(** * A shallow embedding of [server.js]

    The contact-form endpoint and the SEO page renderer of the site server,
    written as Rocq functions over JavaScript strings (sequences of UTF-16
    code units) and JSON values.

    The first part follows the source file from top to bottom: strings and
    the string methods the handlers call, the regular expressions, [esc],
    the values of a parsed body, the handler monad (effects performed and
    where control went), the start of the process, the contact handler, the
    metadata table and the page handlers, and the application as a step
    function over requests.  The second part holds the words the properties
    are stated with, the third the properties and their proofs.

    The middleware in front of the handlers (helmet, the rate limiters,
    compression, the JSON body parser, static files) is the framework's and
    is not modelled: a handler is given the parsed body or query value. *)

From Stdlib Require Import NArith String Ascii Lia.
From stdpp Require Import base list option gmap.

Local Open Scope N_scope.

(** ** JavaScript strings *)

Module JsString.

(** A JavaScript string is a sequence of UTF-16 code units; [length],
    [trim], [replace] and regular expressions without the [u] flag all
    work on code units. *)
Definition jsstring : Type := list N.

Definition bytes_of (s : string) : list N :=
  map (fun b => N.of_nat (nat_of_ascii b)) (list_ascii_of_string s).

(** Code units of one code point. *)
Definition units_of_cp (cp : N) : jsstring :=
  if cp <? 0x10000 then [cp]
  else let v := cp - 0x10000 in
       [0xD800 + N.shiftr v 10; 0xDC00 + N.land v 0x3FF].

Definition cont (b : N) : N := N.land b 0x3F.

(** The literals of the source file are UTF-8 text. *)
Fixpoint utf8_units (bs : list N) : jsstring :=
  match bs with
  | [] => []
  | b0 :: r0 =>
      if b0 <? 0xC0 then b0 :: utf8_units r0
      else match r0 with
      | [] => [b0]
      | b1 :: r1 =>
          if b0 <? 0xE0 then
            units_of_cp (N.shiftl (N.land b0 0x1F) 6 + cont b1) ++ utf8_units r1
          else match r1 with
          | [] => [b0; b1]
          | b2 :: r2 =>
              if b0 <? 0xF0 then
                units_of_cp (N.shiftl (N.land b0 0x0F) 12 + N.shiftl (cont b1) 6 + cont b2)
                  ++ utf8_units r2
              else match r2 with
              | [] => [b0; b1; b2]
              | b3 :: r3 =>
                  units_of_cp (N.shiftl (N.land b0 0x07) 18 + N.shiftl (cont b1) 12
                               + N.shiftl (cont b2) 6 + cont b3)
                    ++ utf8_units r3
              end
          end
      end
  end.

(** [js "text"] is the string literal ['text'] of the source.  A backquote
    in the Rocq literal stands for the double quote: no literal of
    [server.js] holds a backquote (it delimits the template literals). *)
Definition js (s : string) : jsstring :=
  map (fun u => if u =? 96 then 34 else u) (utf8_units (bytes_of s)).

Definition eqb (a b : jsstring) : bool := bool_decide (a = b).

(** *** Whitespace: the set stripped by [trim] and matched by [\s] *)
Definition is_space (u : N) : bool :=
  (9 <=? u) && (u <=? 13) || (u =? 32) || (u =? 0xA0) || (u =? 0x1680)
  || (0x2000 <=? u) && (u <=? 0x200A) || (u =? 0x2028) || (u =? 0x2029)
  || (u =? 0x202F) || (u =? 0x205F) || (u =? 0x3000) || (u =? 0xFEFF).

Definition is_digit (u : N) : bool := (48 <=? u) && (u <=? 57).

Fixpoint trimStart (s : jsstring) : jsstring :=
  match s with
  | u :: r => if is_space u then trimStart r else s
  | [] => []
  end.

Definition trimEnd (s : jsstring) : jsstring := rev (trimStart (rev s)).

(** [String.prototype.trim] *)
Definition trim (s : jsstring) : jsstring := trimEnd (trimStart s).

(** *** Searching *)
Fixpoint strip_prefix (p s : jsstring) : option jsstring :=
  match p, s with
  | [], _ => Some s
  | a :: p', b :: s' => if a =? b then strip_prefix p' s' else None
  | _ :: _, [] => None
  end.

(** [s.startsWith(p)] *)
Definition startsWith (s p : jsstring) : bool :=
  match strip_prefix p s with Some _ => true | None => false end.

(** The first occurrence of [p] in [s]: the text before it and after it. *)
Fixpoint find_first (p s : jsstring) : option (jsstring * jsstring) :=
  match strip_prefix p s with
  | Some post => Some ([], post)
  | None =>
      match s with
      | [] => None
      | u :: r =>
          match find_first p r with
          | Some (pre, post) => Some (u :: pre, post)
          | None => None
          end
      end
  end.

(** [s.includes(p)] *)
Definition includes (s p : jsstring) : bool :=
  match find_first p s with Some _ => true | None => false end.

(** [s.split(sep)[0]] for a one-unit separator. *)
Fixpoint split_head (sep : N) (s : jsstring) : jsstring :=
  match s with
  | [] => []
  | u :: r => if u =? sep then [] else u :: split_head sep r
  end.

(** *** Replacement text
    [GetSubstitution] for a pattern without capture groups: only [$$],
    [$&], [$`] and [$'] are special in the replacement string. *)
Fixpoint substitution (repl pre matched post : jsstring) : jsstring :=
  match repl with
  | [] => []
  | 36 :: r =>
      match r with
      | 36 :: r' => 36 :: substitution r' pre matched post
      | 38 :: r' => matched ++ substitution r' pre matched post
      | 96 :: r' => pre ++ substitution r' pre matched post
      | 39 :: r' => post ++ substitution r' pre matched post
      | _ => 36 :: substitution r pre matched post
      end
  | u :: r => u :: substitution r pre matched post
  end.

(** [s.replace(p, repl)] with a string pattern: the first occurrence only. *)
Definition replace_str (p repl s : jsstring) : jsstring :=
  match find_first p s with
  | Some (pre, post) => pre ++ substitution repl pre p post ++ post
  | None => s
  end.

(** [s.replace(/c/g, repl)] for a one-unit pattern [c] and a
    replacement without [$]. *)
Fixpoint replace_all (c : N) (repl : jsstring) (s : jsstring) : jsstring :=
  match s with
  | [] => []
  | u :: r => (if u =? c then repl else [u]) ++ replace_all c repl r
  end.

End JsString.
Export JsString.

(** ** Regular expressions
    The fragment used by the server: literal text, one unit of a class,
    and the greedy star of a class, with the anchors [^] and [$].  A
    class-plus [c+] is written [One c; Star c]. *)

Module Regex.

Inductive atom : Type :=
| Lit (text : jsstring)
| One (cls : N -> bool)
| Star (cls : N -> bool).

Record regex : Type := Re {
  anchored_start : bool;
  atoms : list atom;
  anchored_end : bool
}.

(** Backtracking match of [ats] at the head of [s]: the matched text and
    the rest, a greedy star giving back one unit at a time. *)
Fixpoint match_here (ats : list atom) (to_end : bool) (s : jsstring)
  : option (jsstring * jsstring) :=
  match ats with
  | [] =>
      match to_end, s with
      | true, _ :: _ => None
      | _, _ => Some ([], s)
      end
  | Lit t :: rest =>
      match strip_prefix t s with
      | Some s' =>
          match match_here rest to_end s' with
          | Some (m, post) => Some (t ++ m, post)
          | None => None
          end
      | None => None
      end
  | One c :: rest =>
      match s with
      | u :: s' =>
          if c u then
            match match_here rest to_end s' with
            | Some (m, post) => Some (u :: m, post)
            | None => None
            end
          else None
      | [] => None
      end
  | Star c :: rest =>
      (fix star (s : jsstring) : option (jsstring * jsstring) :=
         match s with
         | u :: s' =>
             if c u then
               match star s' with
               | Some (m, post) => Some (u :: m, post)
               | None => match_here rest to_end s
               end
             else match_here rest to_end s
         | [] => match_here rest to_end []
         end) s
  end.

(** Leftmost match: text before, matched text, text after. *)
Fixpoint search (ats : list atom) (to_end : bool) (s : jsstring)
  : option (jsstring * jsstring * jsstring) :=
  match match_here ats to_end s with
  | Some (m, post) => Some ([], m, post)
  | None =>
      match s with
      | [] => None
      | u :: r =>
          match search ats to_end r with
          | Some (pre, m, post) => Some (u :: pre, m, post)
          | None => None
          end
      end
  end.

Definition exec (re : regex) (s : jsstring) : option (jsstring * jsstring * jsstring) :=
  if anchored_start re then
    match match_here (atoms re) (anchored_end re) s with
    | Some (m, post) => Some ([], m, post)
    | None => None
    end
  else search (atoms re) (anchored_end re) s.

(** [re.test(s)] *)
Definition test (re : regex) (s : jsstring) : bool :=
  match exec re s with Some _ => true | None => false end.

(** [s.replace(re, repl)] for [re] without the [g] flag. *)
Definition replace (re : regex) (repl s : jsstring) : jsstring :=
  match exec re s with
  | Some (pre, m, post) => pre ++ substitution repl pre m post ++ post
  | None => s
  end.

Definition only (c : N) : N -> bool := fun u => u =? c.
Definition non (c : N) : N -> bool := fun u => negb (u =? c).

End Regex.
Import Regex.

(** ** [esc]: the HTML-escape helper *)

Definition AMP : N := 38.
Definition LT : N := 60.
Definition GT : N := 62.
Definition QUOT : N := 34.
Definition NL : N := 10.

Definition esc (str : jsstring) : jsstring :=
  replace_all QUOT (js "&quot;")
    (replace_all GT (js "&gt;")
       (replace_all LT (js "&lt;")
          (replace_all AMP (js "&amp;") str))).

(** ** JSON values as the handlers see them *)

Module Json.

(** A parsed request body or one of its members.  [JUndefined] is what
    reading an absent property gives.  A number carries the text that
    [String] gives for it ([0] and [-0] both give the text 0); an object
    carries its own properties, each key once. *)
#[warnings="-register-all"] Inductive jsval : Type :=
| JUndefined
| JNull
| JBool (b : bool)
| JNum (text : jsstring)
| JStr (s : jsstring)
| JArr (items : list jsval)
| JObj (props : list (jsstring * jsval)).

Fixpoint own (props : list (jsstring * jsval)) (k : jsstring) : option jsval :=
  match props with
  | [] => None
  | (k', v) :: r => if eqb k' k then Some v else own r k
  end.

(** [o[k]] for a key that neither [Object.prototype] nor
    [Array.prototype] defines (the handlers read only name, phone,
    caseType, email, message and lang). *)
Definition get (o : jsval) (k : jsstring) : jsval :=
  match o with
  | JObj props => default JUndefined (own props k)
  | _ => JUndefined
  end.

(** [v == null] *)
Definition nullish (v : jsval) : bool :=
  match v with JUndefined | JNull => true | _ => false end.

(** [ToBoolean] *)
Definition truthy (v : jsval) : bool :=
  match v with
  | JUndefined | JNull => false
  | JBool b => b
  | JNum t => negb (eqb t (js "0"))
  | JStr s => negb (eqb s [])
  | JArr _ | JObj _ => true
  end.

(** [String(v)]; [None] when the conversion throws a TypeError.  A parsed
    object converts through [Object.prototype.toString] unless an own
    property named toString (never callable in parsed JSON) shadows it;
    an array joins the conversions of its items with commas, null items
    giving the empty string. *)
Fixpoint to_string (v : jsval) : option jsstring :=
  match v with
  | JUndefined => Some (js "undefined")
  | JNull => Some (js "null")
  | JBool b => Some (if b then js "true" else js "false")
  | JNum t => Some t
  | JStr s => Some s
  | JArr items =>
      (fix join (l : list jsval) : option jsstring :=
         match l with
         | [] => Some []
         | x :: r =>
             match (if nullish x then Some [] else to_string x), r with
             | Some e, [] => Some e
             | Some e, _ :: _ =>
                 match join r with
                 | Some t => Some (e ++ js "," ++ t)
                 | None => None
                 end
             | None, _ => None
             end
         end) items
  | JObj props =>
      match own props (js "toString") with
      | Some _ => None
      | None => Some (js "[object Object]")
      end
  end.

(** [v === 'text'] *)
Definition is_str (v : jsval) (text : jsstring) : bool :=
  match v with JStr s => eqb s text | _ => false end.

(** [v ?? d] *)
Definition coalesce (v d : jsval) : jsval := if nullish v then d else v.

End Json.
Export Json.

(** ** Responses, effects and the handler monad *)

(** What a handler sends: the object given to [res.json], or the document
    given to [res.send]. *)
Inductive payload : Type :=
| Reply (ok : bool) (error : option jsstring) (fields : option (list jsstring))
| Html (doc : jsstring).

(** A response: its status, the [Cache-Control] header when the handler
    sets one, and what is sent. *)
Record response : Type := Response {
  status : N;
  cache_control : option jsstring;
  content : payload
}.

(** The argument of [transporter.sendMail]. *)
Record mail : Type := Mail {
  from : jsstring;
  to : jsstring;
  subject : jsstring;
  html : jsstring
}.

(** What a handler does besides responding: a call of [sendMail],
    [console.warn] or [console.error]. *)
Inductive effect : Type :=
| SendMail (m : mail)
| ConsoleWarn (msg : jsstring)
| ConsoleError (msg detail : jsstring).

(** The one exception the handlers can raise: a method call on a value
    that has no such method, a member read of undefined, or a conversion to
    string that fails. *)
Inductive exn : Type := TypeError.

(** Where control is after a statement: at the next one, out of the handler
    through [return res...], or out of it through an exception. *)
Inductive flow (A : Type) : Type :=
| Next (a : A)
| Return (r : response)
| Raise (e : exn).
Arguments Next {A} a.
Arguments Return {A} r.
Arguments Raise {A} e.

(** A handler step: the effects it performed, in order, and where control
    went. *)
Record H (A : Type) : Type := Step {
  effects : list effect;
  control : flow A
}.
Arguments Step {A} effects control.
Arguments effects {A} h.
Arguments control {A} h.

#[global] Instance H_ret : MRet H := fun A a => Step [] (Next a).
#[global] Instance H_bind : MBind H := fun A B k m =>
  match control m with
  | Next a => Step (effects m ++ effects (k a)) (control (k a))
  | Return r => Step (effects m) (Return r)
  | Raise e => Step (effects m) (Raise e)
  end.

#[global] Instance H_fmap : FMap H := fun A B f m => a ← m; mret (f a).

(** [return res.status(code).json(p)] *)
Definition reply {A} (code : N) (p : payload) : H A :=
  Step [] (Return (Response code None p)).
Definition raise {A} (e : exn) : H A := Step [] (Raise e).
Definition emit (e : effect) : H unit := Step [e] (Next tt).
Definition lift {A} (o : option A) : H A :=
  match o with Some a => mret a | None => raise TypeError end.

(** [v.trim()]: a method call on anything but a string throws. *)
Definition call_trim (v : jsval) : H jsstring :=
  match v with
  | JStr s => mret (trim s)
  | _ => raise TypeError
  end.

(** How a request ended: a response was sent, an exception left the
    handler, or the handler ended without responding. *)
Inductive outcome : Type :=
| Responded (r : response)
| Uncaught (e : exn)
| NoResponse.

Definition outcome_of {A} (m : H A) : outcome :=
  match control m with
  | Next _ => NoResponse
  | Return r => Responded r
  | Raise e => Uncaught e
  end.

(** ** Process start: the environment and the transporter *)

(** [process.env], as far as the file reads it. *)
Record environ : Type := Environ {
  SMTP_PASS : option jsstring;
  SMTP_USER : option jsstring
}.

(** The options given to [nodemailer.createTransport]. *)
Record transport : Type := Transport {
  service : jsstring;
  auth_user : jsstring;
  auth_pass : jsstring
}.

(** [a || d] on an environment variable: unset and empty both give [d]. *)
Definition env_or (a : option jsstring) (d : jsstring) : jsstring :=
  match a with
  | Some (u :: r) => u :: r
  | _ => d
  end.

(** Lines 80-88: the transporter exists when [SMTP_PASS] is set and not
    empty, and is null otherwise. *)
Definition transporter_of (env : environ) : option transport :=
  match SMTP_PASS env with
  | Some (u :: r) =>
      Some (Transport (js "gmail") (env_or (SMTP_USER env) (js "pardooren@gmail.com")) (u :: r))
  | _ => None
  end.

(** The module-level constants computed when the process starts. *)
Record server : Type := Server {
  transporter : option transport;
  indexTemplate : jsstring;
  expertiseTemplate : jsstring
}.

(** [index_html] and [expertise_html] are the two files of [public/] read
    at start. *)
Definition startup (env : environ) (index_html expertise_html : jsstring) : server :=
  Server (transporter_of env) index_html expertise_html.

(** What the relay answers to one [sendMail]. *)
Inductive sent : Type :=
| Delivered
| Failed (message : jsstring).

(** ** The contact endpoint (lines 100-169) *)

(** The class [[\d\s\-+().]]. *)
Definition phone_unit (u : N) : bool :=
  is_digit u || is_space u || (u =? 45) || (u =? 43) || (u =? 40) || (u =? 41) || (u =? 46).

(** [/^[\d\s\-+().]+$/] *)
Definition phone_re : regex := Re true [One phone_unit; Star phone_unit] true.

(** The class [[^\s@]]. *)
Definition email_unit (u : N) : bool := negb (is_space u || (u =? 64)).

(** [/^[^\s@]+@[^\s@]+\.[^\s@]+$/] *)
Definition email_re : regex :=
  Re true [One email_unit; Star email_unit; Lit (js "@");
           One email_unit; Star email_unit; Lit (js ".");
           One email_unit; Star email_unit] true.

Fixpoint digits (d : Decimal.uint) : jsstring :=
  match d with
  | Decimal.Nil => []
  | Decimal.D0 r => 48 :: digits r
  | Decimal.D1 r => 49 :: digits r
  | Decimal.D2 r => 50 :: digits r
  | Decimal.D3 r => 51 :: digits r
  | Decimal.D4 r => 52 :: digits r
  | Decimal.D5 r => 53 :: digits r
  | Decimal.D6 r => 54 :: digits r
  | Decimal.D7 r => 55 :: digits r
  | Decimal.D8 r => 56 :: digits r
  | Decimal.D9 r => 57 :: digits r
  end.

(** The text of a non-negative integer inside a template literal. *)
Definition decimal (n : N) : jsstring := digits (N.to_uint n).

(** [v == null || String(v).trim() === ''] *)
Definition is_missing (v : jsval) : H bool :=
  if nullish v then mret true
  else s ← lift (to_string v); mret (eqb (trim s) []).

(** [Object.entries(required).filter(...)] *)
Fixpoint filter_missing (entries : list (jsstring * jsval)) : H (list (jsstring * jsval)) :=
  match entries with
  | [] => mret []
  | (k, v) :: r =>
      b ← is_missing v;
      rest ← filter_missing r;
      mret (if b : bool then (k, v) :: rest else rest)
  end.

(** Lines 103-109: the members that are missing, and the 400 reply that
    lists them. *)
Definition required_stage (name phone caseType : jsval) : H unit :=
  let required := [(js "name", name); (js "phone", phone); (js "caseType", caseType)] in
  missing ← (entries ← filter_missing required; mret (map fst entries));
  if bool_decide (missing = []) then mret tt
  else reply 400 (Reply false (Some (js "Missing required fields")) (Some missing)).

(** Line 112, in the order of the object literal. *)
Definition limits : list (jsstring * N) :=
  [(js "name", 200); (js "phone", 30); (js "caseType", 100);
   (js "email", 254); (js "message", 5000)].

(** [req.body[field]] *)
Definition member (body : jsval) (field : jsstring) : H jsval :=
  if nullish body then raise TypeError else mret (get body field).

(** The template literal of line 115. *)
Definition too_long (field : jsstring) (max : N) : jsstring :=
  field ++ js " exceeds maximum length of " ++ decimal max.

(** Lines 113-117: the loop over [Object.entries(limits)]. *)
Fixpoint length_loop (body : jsval) (entries : list (jsstring * N)) : H unit :=
  match entries with
  | [] => mret tt
  | (field, max) :: r =>
      v ← member body field;
      over ← (if truthy v then s ← lift (to_string v); mret (max <? N.of_nat (length s))
              else mret false);
      if over : bool then reply 400 (Reply false (Some (too_long field max)) None)
      else length_loop body r
  end.

Definition length_stage (body : jsval) : H unit := length_loop body limits.

(** Lines 120-122; [test] converts its argument with [String]. *)
Definition phone_stage (phone : jsval) : H unit :=
  s ← lift (to_string phone);
  if test phone_re s then mret tt
  else reply 400 (Reply false (Some (js "Invalid phone format")) None).

(** Lines 125-127. *)
Definition email_stage (email : jsval) : H unit :=
  if truthy email then
    e ← call_trim email;
    if test email_re e then mret tt
    else reply 400 (Reply false (Some (js "Invalid email format")) None)
  else mret tt.

Definition nl : jsstring := [NL].

(** The inner template literal of line 152. *)
Definition email_row (isHe : bool) (safeEmail : jsstring) : jsstring :=
  concat
    [ js "<tr><td style=`padding:8px;font-weight:bold;border-bottom:1px solid #eee`>";
      (if isHe then js "אימייל" else js "Email");
      js "</td><td style=`padding:8px;border-bottom:1px solid #eee`>";
      safeEmail;
      js "</td></tr>" ].

(** Lines 145-155, line by line. *)
Definition email_html (isHe : bool)
    (safeName safePhone safeCaseType safeEmail safeMessage : jsstring) : jsstring :=
  concat
    [ nl;
      js "        <div dir=`";
      (if isHe then js "rtl" else js "ltr");
      js "` style=`font-family:sans-serif;max-width:600px;margin:0 auto`>";
      nl;
      js "            <h2 style=`color:#835e21`>";
      (if isHe then js "פנייה חדשה מאתר אלון פרדו" else js "New contact from Alon Pardo website");
      js "</h2>";
      nl;
      js "            <table style=`width:100%;border-collapse:collapse`>";
      nl;
      js "                <tr><td style=`padding:8px;font-weight:bold;border-bottom:1px solid #eee;width:30%`>";
      (if isHe then js "שם" else js "Name");
      js "</td><td style=`padding:8px;border-bottom:1px solid #eee`>";
      safeName;
      js "</td></tr>";
      nl;
      js "                <tr><td style=`padding:8px;font-weight:bold;border-bottom:1px solid #eee`>";
      (if isHe then js "טלפון" else js "Phone");
      js "</td><td style=`padding:8px;border-bottom:1px solid #eee`>";
      safePhone;
      js "</td></tr>";
      nl;
      js "                <tr><td style=`padding:8px;font-weight:bold;border-bottom:1px solid #eee`>";
      (if isHe then js "סוג התיק" else js "Case Type");
      js "</td><td style=`padding:8px;border-bottom:1px solid #eee`>";
      safeCaseType;
      js "</td></tr>";
      nl;
      js "                ";
      (if bool_decide (safeEmail = []) then [] else email_row isHe safeEmail);
      nl;
      js "                <tr><td style=`padding:8px;font-weight:bold;border-bottom:1px solid #eee;vertical-align:top`>";
      (if isHe then js "פרטים" else js "Message");
      js "</td><td style=`padding:8px;border-bottom:1px solid #eee`>";
      safeMessage;
      js "</td></tr>";
      nl;
      js "            </table>";
      nl;
      js "        </div>" ].

(** Lines 141-143. *)
Definition email_subject (isHe : bool) (safeName safeCaseType : jsstring) : jsstring :=
  (if isHe then js "פנייה חדשה: " else js "New Contact: ")
    ++ safeName ++ js " – " ++ safeCaseType.

(** Line 159: the sender, read from the environment at each request. *)
Definition email_from (env : environ) : jsstring :=
  js "`Alon Pardo Website` <" ++ env_or (SMTP_USER env) (js "pardooren@gmail.com") ++ js ">".

(** Lines 129-168: the handler from the transporter check on.  [env] is
    [process.env] as the request finds it, [relay] what the mail relay
    answers. *)
Definition dispatch (srv : server) (env : environ) (relay : mail -> sent)
    (name phone caseType email message lang : jsval) : H unit :=
  match transporter srv with
  | None =>
      emit (ConsoleWarn (js "SMTP_PASS not configured – email skipped"));;
      reply 503 (Reply false (Some (js "Email not configured")) None)
  | Some _ =>
      safeName ← esc <$> call_trim name;
      safePhone ← esc <$> call_trim phone;
      safeCaseType ← esc <$> call_trim caseType;
      safeEmail ← (if truthy email then esc <$> call_trim email else mret []);
      safeMessage ← (replace_all NL (js "<br>") ∘ esc) <$> call_trim (coalesce message (JStr []));
      let isHe := is_str lang (js "he") in
      let m := Mail (email_from env) (js "pardooren@gmail.com")
                    (email_subject isHe safeName safeCaseType)
                    (email_html isHe safeName safePhone safeCaseType safeEmail safeMessage) in
      emit (SendMail m);;
      match relay m with
      | Delivered => reply 200 (Reply true None None)
      | Failed message =>
          emit (ConsoleError (js "Email send error:") message);;
          reply 500 (Reply false (Some (js "Failed to send email")) None)
      end
  end.

(** [req.body || {}] *)
Definition fields_of (body : jsval) : jsval :=
  if truthy body then body else JObj [].

(** The four validation stages in the order of the handler. *)
Definition validate (body : jsval) : H unit :=
  let fields := fields_of body in
  required_stage (get fields (js "name")) (get fields (js "phone")) (get fields (js "caseType"));;
  length_stage body;;
  phone_stage (get fields (js "phone"));;
  email_stage (get fields (js "email")).

(** [app.post('/api/contact', ...)] *)
Definition contact (srv : server) (env : environ) (relay : mail -> sent) (body : jsval) : H unit :=
  let fields := fields_of body in
  validate body;;
  dispatch srv env relay
    (get fields (js "name")) (get fields (js "phone")) (get fields (js "caseType"))
    (get fields (js "email")) (get fields (js "message")) (get fields (js "lang")).

(** ** SEO metadata per route (lines 172-213) *)

Record meta : Type := Meta {
  title : jsstring;
  desc : jsstring
}.

(** The object [{ he: ..., en: ... }] of one route. *)
Definition langs (he en : meta) : gmap jsstring meta :=
  {[ js "he" := he; js "en" := en ]}.

(** The object [routeMeta], read only through [routeMeta[route]?.[lang]]:
    a finite map from route to language to entry. *)
Definition routeMeta : gmap jsstring (gmap jsstring meta) :=
  list_to_map
    [ (js "/practice/criminal-lawyer",
       langs
         (Meta (js "עורך דין פלילי | אלון פרדו")
               (js "עורך דין פלילי - ייצוג בחקירות משטרה, כתבי אישום, דיוני מעצר וערעורים. ייעוץ משפטי ישיר ומקצועי."))
         (Meta (js "Criminal Defense Lawyer | Alon Pardo")
               (js "Criminal defense lawyer - representation in police investigations, indictments, detention hearings and appeals.")));
      (js "/practice/traffic-lawyer",
       langs
         (Meta (js "עורך דין תעבורה | אלון פרדו")
               (js "עורך דין תעבורה - ייצוג בעבירות תנועה, פסילת רישיון, נהיגה בשכרות ותאונות דרכים."))
         (Meta (js "Traffic Law Lawyer | Alon Pardo")
               (js "Traffic law lawyer - representation for traffic offenses, license suspension, DUI and road accidents.")));
      (js "/practice/administrative-lawyer",
       langs
         (Meta (js "עורך דין מנהלי | אלון פרדו")
               (js "עורך דין מנהלי - ערעורים על החלטות רשויות, היתרים, רישוי וסכסוכים מוניציפליים."))
         (Meta (js "Administrative Law Lawyer | Alon Pardo")
               (js "Administrative law lawyer - appeals against authority decisions, permits, licensing and municipal disputes.")));
      (js "/practice/employment-lawyer",
       langs
         (Meta (js "עורך דין דיני עבודה | אלון פרדו")
               (js "עורך דין דיני עבודה - ייצוג עובדים ומעסיקים בפיטורין, שימועים, תביעות שכר וסכסוכי עבודה."))
         (Meta (js "Employment Law Lawyer | Alon Pardo")
               (js "Employment law lawyer - representing employees and employers in termination, hearings, wage claims and disputes.")));
      (js "/practice/accessibility-lawyer",
       langs
         (Meta (js "עורך דין נגישות | אלון פרדו")
               (js "עורך דין נגישות - ייעוץ, ציות ותביעות נגישות לעסקים ויחידים. הנחיה מעשית ותיקון."))
         (Meta (js "Accessibility Law Lawyer | Alon Pardo")
               (js "Accessibility law lawyer - compliance, claims and enforcement for businesses and individuals.")));
      (js "/privacy",
       langs
         (Meta (js "מדיניות פרטיות | אלון פרדו")
               (js "מדיניות הפרטיות של אתר עו`ד אלון פרדו - איסוף מידע, שמירה, אבטחה וזכויותיך."))
         (Meta (js "Privacy Policy | Alon Pardo")
               (js "Privacy policy for Alon Pardo Attorney at Law - data collection, retention, security and your rights.")));
      (js "/terms",
       langs
         (Meta (js "תנאי שירות | אלון פרדו")
               (js "תנאי השירות של אתר עו`ד אלון פרדו - שימוש באתר, הגבלות ודין חל."))
         (Meta (js "Terms of Service | Alon Pardo")
               (js "Terms of service for Alon Pardo Attorney at Law website.")));
      (js "/cookies",
       langs
         (Meta (js "מדיניות עוגיות | אלון פרדו")
               (js "מדיניות העוגיות של אתר עו`ד אלון פרדו - סוגי עוגיות, שימוש והגדרות."))
         (Meta (js "Cookie Policy | Alon Pardo")
               (js "Cookie policy for Alon Pardo Attorney at Law website.")));
      (js "/disclaimer",
       langs
         (Meta (js "הצהרה משפטית | אלון פרדו")
               (js "הצהרה משפטית של אתר עו`ד אלון פרדו - הגבלות, אחריות ודין חל."))
         (Meta (js "Legal Disclaimer | Alon Pardo")
               (js "Legal disclaimer for Alon Pardo Attorney at Law website.")));
      (js "/accessibility-statement",
       langs
         (Meta (js "הצהרת נגישות | אלון פרדו")
               (js "הצהרת הנגישות של אתר עו`ד אלון פרדו - תקן WCAG 2.2 AA, תכונות נגישות ויצירת קשר."))
         (Meta (js "Accessibility Statement | Alon Pardo")
               (js "Accessibility statement - WCAG 2.2 AA standard, accessibility features and contact information."))) ].

(** Lines 237-248. *)
Definition expertiseRoutes : list jsstring :=
  [ js "/practice/criminal-lawyer";
    js "/practice/traffic-lawyer";
    js "/practice/administrative-lawyer";
    js "/practice/employment-lawyer";
    js "/practice/accessibility-lawyer";
    js "/privacy";
    js "/terms";
    js "/cookies";
    js "/disclaimer";
    js "/accessibility-statement" ].

(** Line 220. *)
Definition ogImage : jsstring :=
  js "https://images.unsplash.com/photo-1505664194779-8beaceb93744?auto=format&fit=crop&q=80&w=1200".

(** The replacement text of lines 230 and 280: the three image elements,
    then the comment again. *)
Definition ogImageBlock : jsstring :=
  concat
    [ js "<meta property=`og:image` content=`";
      ogImage;
      js "`>";
      nl;
      js "    <meta property=`og:image:width` content=`1200`>";
      nl;
      js "    <meta property=`og:image:height` content=`630`>";
      nl;
      nl;
      js "    <!-- Twitter Card -->" ].

(** [if (!html.includes('og:image')) html = html.replace(...)] *)
Definition inject_ogImage (html : jsstring) : jsstring :=
  if includes html (js "og:image") then html
  else replace_str (js "<!-- Twitter Card -->") ogImageBlock html.

(** [res.set('Cache-Control', 'no-cache')] and [res.type('html').send(html)]. *)
Definition page (html : jsstring) : H unit :=
  Step [] (Return (Response 200 (Some (js "no-cache")) (Html html))).

(** Lines 223-234: [app.get('/', ...)]. *)
Definition root (srv : server) : H unit :=
  page (inject_ogImage (indexTemplate srv)).

(** *** [JSON.stringify] *)

Definition hex_digit (d : N) : N := if d <? 10 then 48 + d else 87 + d.

Definition unicode_escape (u : N) : jsstring :=
  [92; 117; hex_digit (u / 4096 mod 16); hex_digit (u / 256 mod 16);
   hex_digit (u / 16 mod 16); hex_digit (u mod 16)].

Definition is_high (u : N) : bool := (0xD800 <=? u) && (u <=? 0xDBFF).
Definition is_low (u : N) : bool := (0xDC00 <=? u) && (u <=? 0xDFFF).

Definition quote_unit (u : N) : jsstring :=
  if u =? 8 then [92; 98]
  else if u =? 9 then [92; 116]
  else if u =? 10 then [92; 110]
  else if u =? 12 then [92; 102]
  else if u =? 13 then [92; 114]
  else if u =? 34 then [92; 34]
  else if u =? 92 then [92; 92]
  else if (u <? 32) || is_low u then unicode_escape u
  else [u].

(** The inside of [QuoteJSONString]: short escapes, [\uXXXX] for control
    units and lone surrogates, everything else as it is. *)
Fixpoint quote_units (s : jsstring) : jsstring :=
  match s with
  | [] => []
  | u :: r =>
      if is_high u then
        match r with
        | l :: r' =>
            if is_low l then u :: l :: quote_units r'
            else unicode_escape u ++ quote_units r
        | [] => unicode_escape u
        end
      else quote_unit u ++ quote_units r
  end.

Definition quote (s : jsstring) : jsstring := [34] ++ quote_units s ++ [34].

Fixpoint join (sep : jsstring) (parts : list jsstring) : jsstring :=
  match parts with
  | [] => []
  | [p] => p
  | p :: r => p ++ sep ++ join sep r
  end.

(** [JSON.stringify(v)] without indentation, for [v] other than
    [undefined]: an undefined member of an object is left out, an undefined
    item of an array is written null. *)
Fixpoint stringify (v : jsval) : jsstring :=
  match v with
  | JUndefined | JNull => js "null"
  | JBool b => if b then js "true" else js "false"
  | JNum t => t
  | JStr s => quote s
  | JArr items => js "[" ++ join (js ",") (map stringify items) ++ js "]"
  | JObj props =>
      js "{" ++
      join (js ",")
        ((fix members (l : list (jsstring * jsval)) : list jsstring :=
            match l with
            | [] => []
            | (k, JUndefined) :: r => members r
            | (k, x) :: r => (quote k ++ js ":" ++ stringify x) :: members r
            end) props)
      ++ js "}"
  end.

(** *** The page handlers *)

(** [/<opening[^>]*>/]: the shape of six of the seven patterns of the
    chain. *)
Definition tag_re (opening : jsstring) : regex :=
  Re false [Lit opening; Star (non GT); Lit (js ">")] false.

(** [/<title[^>]*>[^<]*<\/title>/] *)
Definition title_re : regex :=
  Re false [Lit (js "<title"); Star (non GT); Lit (js ">");
            Star (non LT); Lit (js "</title>")] false.

(** [routeMeta[route]?.[lang] || routeMeta[route]?.he] over a table. *)
Definition resolve (table : gmap jsstring (gmap jsstring meta))
    (route lang : jsstring) : option meta :=
  match table !! route ≫= (.!! lang) with
  | Some m => Some m
  | None => table !! route ≫= (.!! js "he")
  end.

(** [req.query.lang === 'en' ? 'en' : 'he'] *)
Definition page_lang (q : jsval) : jsstring :=
  if is_str q (js "en") then js "en" else js "he".

(** [lang === 'en' ? route + '?lang=en' : route] *)
Definition canonical_of (route lang : jsstring) : jsstring :=
  if eqb lang (js "en") then route ++ js "?lang=en" else route.

(** The replacement text of line 272. *)
Definition canonical_tag (canonical : jsstring) : jsstring :=
  concat
    [ js "<link rel=`canonical` id=`canonical-link` href=`";
      canonical;
      js "`>" ].

(** The first six [replace] calls of the chain on the template. *)
Definition inject_titles (template : jsstring) (m : meta) : jsstring :=
  let html := template in
  let html := Regex.replace title_re
    (concat [ js "<title id=`page-title`>"; title m; js "</title>" ]) html in
  let html := Regex.replace (tag_re (js "<meta name=`description`"))
    (concat [ js "<meta name=`description` id=`meta-description` content=`";
              desc m; js "`>" ]) html in
  let html := Regex.replace (tag_re (js "<meta property=`og:title`"))
    (concat [ js "<meta property=`og:title` id=`og-title` content=`";
              title m; js "`>" ]) html in
  let html := Regex.replace (tag_re (js "<meta property=`og:description`"))
    (concat [ js "<meta property=`og:description` id=`og-description` content=`";
              desc m; js "`>" ]) html in
  let html := Regex.replace (tag_re (js "<meta name=`twitter:title`"))
    (concat [ js "<meta name=`twitter:title` id=`twitter-title` content=`";
              title m; js "`>" ]) html in
  Regex.replace (tag_re (js "<meta name=`twitter:description`"))
    (concat [ js "<meta name=`twitter:description` id=`twitter-description` content=`";
              desc m; js "`>" ]) html.

(** [/<link rel="canonical"[^>]*>/] *)
Definition canonical_re : regex := tag_re (js "<link rel=`canonical`").

(** The seventh and last [replace] of the chain. *)
Definition inject_canonical (canonical html : jsstring) : jsstring :=
  Regex.replace canonical_re (canonical_tag canonical) html.

(** The chain of seven [replace] calls on the template. *)
Definition inject_meta (template : jsstring) (m : meta) (canonical : jsstring) : jsstring :=
  inject_canonical canonical (inject_titles template m).

(** Line 275. *)
Definition hreflangBlock (route : jsstring) : jsstring :=
  concat
    [ js "<link rel=`alternate` hreflang=`he` href=`";
      route;
      js "`>";
      nl;
      js "    <link rel=`alternate` hreflang=`en` href=`";
      route;
      js "?lang=en`>";
      nl;
      js "    <link rel=`alternate` hreflang=`x-default` href=`";
      route;
      js "`>" ].

(** The text put in place of the anchor comment: the comment again, then
    the block. *)
Definition hreflangInsert (route : jsstring) : jsstring :=
  concat [ js "<!-- Canonical & hreflang -->"; nl; js "    "; hreflangBlock route ].

Definition inject_hreflang (route html : jsstring) : jsstring :=
  replace_str (js "<!-- Canonical & hreflang -->") (hreflangInsert route) html.

(** [meta.title.split('|')[0].trim()] *)
Definition service_name (m : meta) : jsstring := trim (split_head 124 (title m)).

Definition jsonLd (m : meta) (canonical : jsstring) : jsstring :=
  stringify (JObj
    [ (js "@context", JStr (js "https://schema.org"));
      (js "@type", JStr (js "LegalService"));
      (js "name", JStr (service_name m));
      (js "description", JStr (desc m));
      (js "url", JStr canonical);
      (js "provider", JObj
         [ (js "@type", JStr (js "Person"));
           (js "name", JStr (js "Alon Pardo"));
           (js "jobTitle", JStr (js "Attorney at Law"));
           (js "telephone", JStr (js "+972524203401")) ]);
      (js "areaServed", JObj
         [ (js "@type", JStr (js "Country")); (js "name", JStr (js "Israel")) ]);
      (js "availableLanguage", JArr [ JStr (js "Hebrew"); JStr (js "English") ]) ]).

Definition breadcrumb (m : meta) (lang canonical : jsstring) : jsstring :=
  stringify (JObj
    [ (js "@context", JStr (js "https://schema.org"));
      (js "@type", JStr (js "BreadcrumbList"));
      (js "itemListElement", JArr
         [ JObj [ (js "@type", JStr (js "ListItem"));
                  (js "position", JNum (js "1"));
                  (js "name", JStr (if eqb lang (js "en") then js "Home" else js "דף הבית"));
                  (js "item", JStr (js "/")) ];
           JObj [ (js "@type", JStr (js "ListItem"));
                  (js "position", JNum (js "2"));
                  (js "name", JStr (service_name m));
                  (js "item", JStr canonical) ] ]) ]).

(** The text put in place of [</head>]: the two scripts, then [</head>]
    again. *)
Definition jsonLdInsert (lang : jsstring) (m : meta) (canonical : jsstring) : jsstring :=
  concat
    [ js "    <script type=`application/ld+json`>";
      jsonLd m canonical;
      js "</script>";
      nl;
      js "    <script type=`application/ld+json`>";
      breadcrumb m lang canonical;
      js "</script>";
      nl;
      js "</head>" ].

Definition inject_jsonLd (route lang : jsstring) (m : meta) (canonical html : jsstring)
  : jsstring :=
  if startsWith route (js "/practice/") then
    replace_str (js "</head>") (jsonLdInsert lang m canonical) html
  else html.

(** Lines 251-313: the body of the handler registered for [route], over a
    metadata table and a template; reading [meta.title] of an undefined
    [meta] throws. *)
Definition render (table : gmap jsstring (gmap jsstring meta)) (template : jsstring)
    (route : jsstring) (q : jsval) : H unit :=
  let lang := page_lang q in
  let canonical := canonical_of route lang in
  m ← lift (resolve table route lang);
  page (inject_jsonLd route lang m canonical
          (inject_ogImage
             (inject_hreflang route
                (inject_meta template m canonical)))).

(** [app.get(route, ...)] for a [route] of [expertiseRoutes]. *)
Definition expertise (srv : server) (route : jsstring) (q : jsval) : H unit :=
  render routeMeta (expertiseTemplate srv) route q.

(** ** The application: registered handlers and a run of requests *)

Inductive request : Type :=
| GetRoot
| GetPage (path : jsstring) (lang : jsval)
| PostContact (body : jsval).

(** [expertiseRoutes.forEach(route => app.get(route, ...))] *)
Definition registered : list (jsstring * (server -> jsval -> H unit)) :=
  map (fun route => (route, fun srv q => expertise srv route q)) expertiseRoutes.

(** The handler registered under exactly [path].  How the framework
    matches the address of a request against the registered paths (letter
    case, a trailing slash) is not modelled. *)
Fixpoint handler_for (routes : list (jsstring * (server -> jsval -> H unit)))
    (path : jsstring) : option (server -> jsval -> H unit) :=
  match routes with
  | [] => None
  | (route, h) :: r => if eqb route path then Some h else handler_for r path
  end.

(** The handler of this file that serves a request, if one does. *)
Definition handle (srv : server) (env : environ) (relay : mail -> sent)
    (rq : request) : option (H unit) :=
  match rq with
  | GetRoot => Some (root srv)
  | GetPage path q => (fun h => h srv q) <$> handler_for registered path
  | PostContact body => Some (contact srv env relay body)
  end.

(** One request as the process meets it: the environment and the relay's
    behaviour at that time. *)
Record event : Type := Event {
  env_at : environ;
  relay_at : mail -> sent;
  req : request
}.

(** The process between requests: its start-up constants, everything it
    has done so far, and whether it is still running.  The constants are
    bound with [const], and a template is a string, which no code can alter:
    a handler is given the constants to read. *)
Record world : Type := World {
  consts : server;
  happened : list effect;
  running : bool
}.

(** The contact handler is an [async] function: an exception that leaves it
    is the rejection of a promise that nothing handles, and that ends the
    process (Node 15 and later).  A page handler is synchronous: what it
    throws is caught by the framework, and the process goes on. *)
Definition fatal (rq : request) (o : outcome) : bool :=
  match rq, o with
  | PostContact _, Uncaught _ => true
  | _, _ => false
  end.

(** One request: a process that has stopped answers nothing. *)
Definition step (w : world) (ev : event) : world * option outcome :=
  if running w then
    match handle (consts w) (env_at ev) (relay_at ev) (req ev) with
    | Some h =>
        (World (consts w) (happened w ++ effects h)
               (negb (fatal (req ev) (outcome_of h))),
         Some (outcome_of h))
    | None => (w, None)
    end
  else (w, None).

Fixpoint run (w : world) (evs : list event) : world :=
  match evs with
  | [] => w
  | ev :: r => run (fst (step w ev)) r
  end.

(** * Words for the statements

    Predicates and functions the properties below are stated with; none of
    them is part of the server. *)

(** ** Control and effects *)

(** A step that performs nothing: it only decides where control goes. *)
Definition silent {A} (m : H A) : Prop := effects m = [].

(** The request passed the four stages: control reached the transporter
    check. *)
Definition validated (body : jsval) : Prop := control (validate body) = Next tt.

#[global] Instance validated_dec body : Decision (validated body).
Proof.
  unfold validated.
  destruct (control (validate body)) as [[] | r | e];
    [left; reflexivity | right; discriminate | right; discriminate].
Defined.

(** The mails among the effects of a step. *)
Definition mails (es : list effect) : list mail :=
  omap (fun e => match e with SendMail m => Some m | _ => None end) es.

(** A reply of the endpoint: a JSON object with [ok], and a status among
    the four the handler uses. *)
Definition endpoint_reply (r : response) : Prop :=
  (exists ok error fields, content r = Reply ok error fields)
  /\ (status r = 200 \/ status r = 400 \/ status r = 500 \/ status r = 503).

(** A validation step either lets the request go on, ends it with a 400
    reply, or throws. *)
Definition stage_like (m : H unit) : Prop :=
  match control m with
  | Next _ => True
  | Return r => status r = 400 /\ exists error fields, content r = Reply false error fields
  | Raise _ => True
  end.

(** ** Members of the body *)

(** The text a member of the body supplies: its value when it is a string. *)
Definition text_of (v : jsval) : jsstring :=
  match v with JStr s => s | _ => [] end.

Definition is_text (v : jsval) : bool :=
  match v with JStr _ => true | _ => false end.

(** The members on which no [trim] call of the handler throws. *)
Definition textual (name phone caseType email message : jsval) : bool :=
  is_text name && is_text phone && is_text caseType
  && (negb (truthy email) || is_text email)
  && (nullish message || is_text message).

(** A member that is absent, null or a string. *)
Definition plain_member (v : jsval) : bool :=
  match v with JUndefined | JNull | JStr _ => true | _ => false end.

(** A body whose five members read by the handler are absent, null or
    strings. *)
Definition plain_body (body : jsval) : bool :=
  forallb (fun k => plain_member (get body k))
          [js "name"; js "phone"; js "caseType"; js "email"; js "message"].

(** ** The required-field and the length stage *)

(** [String(v)] does not throw, or is not reached. *)
Definition converts (v : jsval) : bool :=
  nullish v || bool_decide (is_Some (to_string v)).

(** Absent, null, or trimmed to the empty string. *)
Definition blank (v : jsval) : bool :=
  nullish v ||
  match to_string v with
  | Some s => eqb (trim s) []
  | None => false
  end.

Definition required_of (body : jsval) : list (jsstring * jsval) :=
  [ (js "name", get (fields_of body) (js "name"));
    (js "phone", get (fields_of body) (js "phone"));
    (js "caseType", get (fields_of body) (js "caseType")) ].

Definition missing_of (body : jsval) : list jsstring :=
  map fst (List.filter (fun e => blank (snd e)) (required_of body)).

Definition missing_reply (missing : list jsstring) : response :=
  Response 400 None (Reply false (Some (js "Missing required fields")) (Some missing)).

(** The test of the loop: [req.body[field] && String(req.body[field]).length > max]. *)
Definition over (body : jsval) (e : jsstring * N) : bool :=
  truthy (get body (fst e)) &&
  match to_string (get body (fst e)) with
  | Some s => snd e <? N.of_nat (length s)
  | None => false
  end.

(** The member's text is longer than the limit. *)
Definition exceeds (body : jsval) (e : jsstring * N) : bool :=
  match to_string (get body (fst e)) with
  | Some s => snd e <? N.of_nat (length s)
  | None => false
  end.

Definition too_long_reply (field : jsstring) (max : N) : response :=
  Response 400 None (Reply false (Some (too_long field max)) None).

(** The reply names the member in its [fields] list, as the reply of the
    required-field stage does. *)
Definition lists_field (r : response) (field : jsstring) : Prop :=
  exists ok error fields, content r = Reply ok error (Some fields) /\ field ∈ fields.

(** The first entry of [limits] whose member is too long, in the order of
    the loop. *)
Definition first_too_long (body : jsval) : option (jsstring * N) :=
  List.find (exceeds body) limits.

(** ** The mail *)

Definition safe (v : jsval) : jsstring := esc (trim (text_of v)).

Definition safe_message (v : jsval) : jsstring :=
  replace_all NL (js "<br>") (esc (trim (text_of v))).

(** The mail composed from textual members. *)
Definition composed (env : environ) (name phone caseType email message lang : jsval) : mail :=
  let isHe := is_str lang (js "he") in
  Mail (email_from env) (js "pardooren@gmail.com")
       (email_subject isHe (safe name) (safe caseType))
       (email_html isHe (safe name) (safe phone) (safe caseType) (safe email)
                   (safe_message message)).

Definition after_send (relay : mail -> sent) (m : mail) : H unit :=
  match relay m with
  | Delivered => Step [SendMail m] (Return (Response 200 None (Reply true None None)))
  | Failed message =>
      Step [SendMail m; ConsoleError (js "Email send error:") message]
           (Return (Response 500 None (Reply false (Some (js "Failed to send email")) None)))
  end.

(** ** Escaping, unit by unit *)

(** What the escape is said to do to one unit: the ampersand, the two
    angle brackets and the double quote become entities. *)
Definition entity (u : N) : jsstring :=
  if u =? AMP then js "&amp;"
  else if u =? LT then js "&lt;"
  else if u =? GT then js "&gt;"
  else if u =? QUOT then js "&quot;"
  else [u].

(** The same for the message, where a newline becomes a line break. *)
Definition entity_or_br (u : N) : jsstring :=
  if u =? NL then js "<br>" else entity u.

(** No angle bracket and no double quote. *)
Definition markup_free (s : jsstring) : Prop :=
  Forall (fun u => u <> LT /\ u <> GT /\ u <> QUOT) s.

(** ** Pages *)

#[global] Instance meta_eq_dec : EqDecision meta.
Proof. solve_decision. Defined.

(** The two entries of a route in [routeMeta]. *)
Definition he_entry (route : jsstring) : option meta := routeMeta !! route ≫= (.!! js "he").
Definition en_entry (route : jsstring) : option meta := routeMeta !! route ≫= (.!! js "en").

Definition has_both (route : jsstring) : bool :=
  match he_entry route, en_entry route with
  | Some he, Some en => negb (bool_decide (he = en))
  | _, _ => false
  end.

(** [t] occurs in [s]. *)
Definition occurs (t s : jsstring) : Prop := exists a b, s = a ++ t ++ b.

(** No dollar sign: the replacement text is inserted as it is. *)
Definition dollar_free (s : jsstring) : bool := forallb (fun u => negb (u =? 36)) s.

(** What the later injections need of a route and a language: the texts
    they insert hold no dollar sign, and the canonical link element holds
    its angle brackets at its two ends only. *)
Definition insertions_plain (route lang : jsstring) : bool :=
  match resolve routeMeta route lang with
  | Some m =>
      let canonical := canonical_of route lang in
      dollar_free (canonical_tag canonical)
      && dollar_free (hreflangInsert route)
      && dollar_free ogImageBlock
      && dollar_free (jsonLdInsert lang m canonical)
      && negb (existsb (N.eqb LT) (tail (canonical_tag canonical)))
      && negb (existsb (N.eqb GT) (removelast (canonical_tag canonical)))
  | None => false
  end.

Ltac same_text :=
  subst; simpl; rewrite ?app_nil_r, <- ?(assoc_L (++)); simpl;
  rewrite <- ?(assoc_L (++)); reflexivity.

(** ** Patterns, anchors and runs *)

(** What a sequence of atoms matches, read off the atoms: a literal is
    itself, a class one unit of it, a star any run of units of its class. *)
Fixpoint matches (ats : list atom) (m : jsstring) : Prop :=
  match ats with
  | [] => m = []
  | Lit t :: r => exists m', m = t ++ m' /\ matches r m'
  | One c :: r => exists u m', m = u :: m' /\ c u = true /\ matches r m'
  | Star c :: r => exists k m', m = k ++ m' /\ forallb c k = true /\ matches r m'
  end.

(** The shape [local@domain.tld] of the email pattern: three non-empty
    parts without whitespace and without an at sign ([domain] and [tld] are
    split at any one of the dots behind the at sign). *)
Definition email_shape (s : jsstring) : Prop :=
  exists a b c,
    s = a ++ js "@" ++ b ++ js "." ++ c
    /\ a <> [] /\ b <> [] /\ c <> []
    /\ forallb email_unit (a ++ b ++ c) = true.

(** One of the two texts starts the other. *)
Definition prefix_compatible (a b : jsstring) : bool := startsWith a b || startsWith b a.

(** An occurrence of [p] can start strictly inside [t]: some proper,
    non-empty end of [t] starts [p] or is started by it. *)
Definition starts_inside (p t : jsstring) : bool :=
  existsb (fun i => prefix_compatible (drop i t) p) (seq 1 (length t - 1)).

(** What the two insertions behind the hreflang links need of a route:
    neither anchor can start inside the block of links. *)
Definition hreflang_clear (route : jsstring) : bool :=
  negb (starts_inside (js "<!-- Twitter Card -->") (hreflangBlock route))
  && negb (starts_inside (js "</head>") (hreflangBlock route))
  && dollar_free (hreflangInsert route).

(** A request to the contact endpoint. *)
Definition is_post (ev : event) : bool :=
  match req ev with PostContact _ => true | _ => false end.

(** ** Tidy pages and the chain of replacements *)

(** Where a scan of the angle brackets of [s] ends, begun inside a tag or
    outside: inside or outside; nothing when a [<] stands inside a tag.  A
    [>] outside a tag is plain text. *)
Fixpoint scan (inside : bool) (s : jsstring) : option bool :=
  match s with
  | [] => Some inside
  | u :: r =>
      if u =? LT then (if inside then None else scan true r)
      else if u =? GT then scan false r
      else scan inside r
  end.

(** A page in which every tag is closed before the next one opens. *)
Definition tidy (s : jsstring) : bool :=
  match scan false s with
  | Some false => true
  | _ => false
  end.

(** An occurrence of [p] can start inside [t] or at its head. *)
Definition overlaps (p t : jsstring) : bool :=
  existsb (fun i => prefix_compatible (drop i t) p) (seq 0 (length t)).

(** The literal text of a tag pattern: a [<] and then neither angle
    bracket. *)
Definition tag_opening (o : jsstring) : bool :=
  match o with
  | u :: r => (u =? LT) && forallb (fun c => negb (c =? LT) && negb (c =? GT)) r
  | [] => false
  end.

(** The replacement text of line 259. *)
Definition title_tag (m : meta) : jsstring :=
  concat [ js "<title id=`page-title`>"; title m; js "</title>" ].

(** The six [replace] calls of lines 260-272: the literal text of the
    pattern [/<opening[^>]*>/] and the replacement text. *)
Definition tag_steps (m : meta) (canonical : jsstring) : list (jsstring * jsstring) :=
  [ (js "<meta name=`description`",
     concat [ js "<meta name=`description` id=`meta-description` content=`"; desc m; js "`>" ]);
    (js "<meta property=`og:title`",
     concat [ js "<meta property=`og:title` id=`og-title` content=`"; title m; js "`>" ]);
    (js "<meta property=`og:description`",
     concat [ js "<meta property=`og:description` id=`og-description` content=`";
              desc m; js "`>" ]);
    (js "<meta name=`twitter:title`",
     concat [ js "<meta name=`twitter:title` id=`twitter-title` content=`"; title m; js "`>" ]);
    (js "<meta name=`twitter:description`",
     concat [ js "<meta name=`twitter:description` id=`twitter-description` content=`";
              desc m; js "`>" ]);
    (js "<link rel=`canonical`", canonical_tag canonical) ].

(** Tag replacements one after the other. *)
Definition chain (steps : list (jsstring * jsstring)) (s : jsstring) : jsstring :=
  fold_left (fun html st => Regex.replace (tag_re (fst st)) (snd st) html) steps s.

(** What the three insertions behind the chain need of a text [t] for its
    occurrences to stay whole: no anchor can start inside [t], and the
    hreflang anchor cannot end inside it. *)
Definition insertions_clear (t : jsstring) : bool :=
  negb (starts_inside (rev (js "<!-- Canonical & hreflang -->")) (rev t))
  && negb (starts_inside (js "<!-- Twitter Card -->") t)
  && negb (starts_inside (js "</head>") t).

(** A replacement text that the later steps leave whole: it is a tidy text
    that starts with [<] and holds no dollar sign, and no later pattern
    and no anchor can start inside it. *)
Definition stays (later : list (jsstring * jsstring)) (r : jsstring) : bool :=
  tidy r && dollar_free r
  && match r with u :: _ => u =? LT | [] => false end
  && forallb (fun st => negb (overlaps (fst st) r)) later
  && insertions_clear r.

(** The steps do not disturb one another: every pattern text is the
    opening of a tag that is no beginning of an earlier pattern text (nor
    the other way round), and every replacement text stays. *)
Fixpoint chain_ok (before : list jsstring) (steps : list (jsstring * jsstring)) : bool :=
  match steps with
  | [] => true
  | (o, r) :: rest =>
      tag_opening o
      && forallb (fun o' => negb (prefix_compatible o o')) before
      && stays rest r
      && chain_ok (before ++ [o]) rest
  end.

(** The same for the seven replacements of a route in a language. *)
Definition meta_clear (route lang : jsstring) : bool :=
  match resolve routeMeta route lang with
  | Some m =>
      let steps := tag_steps m (canonical_of route lang) in
      stays steps (title_tag m)
      && chain_ok [js "<title"; js "</title>"] steps
  | None => false
  end.

(** ** Sample requests *)

Definition str (text : string) : jsval := JStr (js text).

(** The submission of the specification's scenario; the message is two
    lines. *)
Definition dana : jsval :=
  JObj [ (js "name", str "Dana"); (js "phone", str "050-1234567");
         (js "caseType", str "Traffic"); (js "email", str "d@example.com");
         (js "message", JStr (js "Hello" ++ nl ++ js "World")); (js "lang", str "he") ].

Definition no_name : jsval :=
  JObj [ (js "name", JStr []); (js "phone", str "123"); (js "caseType", str "x") ].

(** An object with a member named toString, as [JSON.parse] builds it from
    the text [{"toString":1}]. *)
Definition shadowed : jsval := JObj [ (js "toString", JNum (js "1")) ].

Definition no_name_odd_phone : jsval :=
  JObj [ (js "name", JStr []); (js "phone", shadowed); (js "caseType", str "x") ].

Definition numeric_email : jsval :=
  JObj [ (js "name", str "Dana"); (js "phone", str "050-1234567");
         (js "caseType", str "Traffic"); (js "email", JNum (js "5")) ].

Definition numeric_name : jsval :=
  JObj [ (js "name", JNum (js "12")); (js "phone", JNum (js "123"));
         (js "caseType", JBool true) ].

Definition long_name : jsval :=
  JObj [ (js "name", JStr (repeat 97 (N.to_nat 201))); (js "phone", str "123");
         (js "caseType", str "x") ].

Definition long_message_odd_email : jsval :=
  JObj [ (js "name", str "Dana"); (js "phone", str "123"); (js "caseType", str "x");
         (js "email", shadowed); (js "message", JStr (repeat 97 (N.to_nat 5001))) ].

Definition letters_phone : jsval :=
  JObj [ (js "name", str "Dana"); (js "phone", str "abc"); (js "caseType", str "x") ].

Definition with_password : environ := Environ (Some (js "app-password")) None.
Definition without_password : environ := Environ None None.

Definition delivers : mail -> sent := fun _ => Delivered.
Definition fails : mail -> sent := fun _ => Failed (js "connect ETIMEDOUT").

Definition bare_page : jsstring := js "<html><head></head><body></body></html>".

(** A template in the manner of [public/expertise.html]: a head with the
    elements and the comments the handler looks for. *)
Definition sample_template : jsstring :=
  concat
    [ js "<!DOCTYPE html>"; nl;
      js "<html lang=`he` dir=`rtl`>"; nl;
      js "<head>"; nl;
      js "    <meta charset=`UTF-8`>"; nl;
      js "    <title>Alon Pardo</title>"; nl;
      js "    <meta name=`description` content=`Law office`>"; nl;
      js "    <!-- Canonical & hreflang -->"; nl;
      js "    <link rel=`canonical` href=`/`>"; nl;
      js "    <meta property=`og:title` content=`Alon Pardo`>"; nl;
      js "    <meta property=`og:description` content=`Law office`>"; nl;
      nl;
      js "    <!-- Twitter Card -->"; nl;
      js "    <meta name=`twitter:title` content=`Alon Pardo`>"; nl;
      js "    <meta name=`twitter:description` content=`Law office`>"; nl;
      js "</head>"; nl;
      js "<body><main id=`content`></main></body>"; nl;
      js "</html>" ].

Definition sample_server : server := startup with_password sample_template sample_template.

(** A run with a contact post and other pages between the two renders. *)
Definition sample_run : list event :=
  [ Event with_password delivers (PostContact dana);
    Event without_password fails GetRoot;
    Event with_password fails (GetPage (js "/terms") (str "en")) ].

#[global] Arguments js _ : simpl never.

(** * Properties *)

(** ** Strings *)

Lemma eqb_eq a b : eqb a b = true <-> a = b.
Proof. unfold eqb. by rewrite bool_decide_eq_true. Qed.

Lemma strip_prefix_app p s r : strip_prefix p s = Some r -> s = p ++ r.
Proof.
  revert s. induction p as [| a p IH]; intros [| b s]; simpl; try congruence.
  destruct (a =? b) eqn:E; [| discriminate].
  apply N.eqb_eq in E as ->. intros R. by rewrite (IH _ R).
Qed.

Lemma find_first_app p s pre post :
  find_first p s = Some (pre, post) -> s = pre ++ p ++ post.
Proof.
  revert pre. induction s as [| u s IH]; intros pre; simpl.
  - destruct (strip_prefix p []) eqn:S; [| discriminate].
    intros [= <- <-]. exact (strip_prefix_app _ _ _ S).
  - destruct (strip_prefix p (u :: s)) eqn:S.
    + intros [= <- <-]. exact (strip_prefix_app _ _ _ S).
    + destruct (find_first p s) as [[pre' post'] |]; [| discriminate].
      intros [= <- <-]. simpl. f_equal. by apply IH.
Qed.

Lemma occurs_found t s : includes s t = true -> occurs t s.
Proof.
  unfold includes. destruct (find_first t s) as [[a b] |] eqn:F; [| done].
  intros _. exists a, b. by apply find_first_app.
Qed.

(** ** Regular expressions *)

(** A greedy star that must reach the end of the text matches all of it
    or nothing. *)
Lemma star_to_end c s :
  match_here [Star c] true s = if forallb c s then Some (s, []) else None.
Proof.
  induction s as [| u s IH]; [reflexivity |].
  cbn [forallb]. unfold match_here at 1. fold (match_here [Star c] true s).
  destruct (c u); cbn [andb]; [| reflexivity].
  rewrite IH. by destruct (forallb c s).
Qed.

(** [/^c+$/] accepts exactly the non-empty texts made of units of [c]. *)
Lemma test_class_plus c s :
  test (Re true [One c; Star c] true) s = true <-> s <> [] /\ forallb c s = true.
Proof.
  unfold test, exec. cbn [anchored_start anchored_end atoms].
  destruct s as [| u s]; [split; [discriminate | by intros [? _]] |].
  cbn [match_here forallb]. fold (match_here [Star c] true s).
  destruct (c u); cbn [andb]; [| split; [discriminate | by intros [_ ?]]].
  rewrite star_to_end. destruct (forallb c s); [done |].
  split; [discriminate | by intros [_ ?]].
Qed.

(** ** The handler monad *)

Lemma bind_next_inv {A B} (m : H A) (k : A -> H B) b :
  control (m ≫= k) = Next b -> exists a, control m = Next a /\ control (k a) = Next b.
Proof.
  unfold mbind, H_bind. destruct (control m) as [a | r | e]; simpl; [| done | done].
  intros E. by exists a.
Qed.

Lemma bind_next {A B} (m : H A) (k : A -> H B) a :
  control m = Next a ->
  m ≫= k = Step (effects m ++ effects (k a)) (control (k a)).
Proof. intros E. unfold mbind, H_bind. by rewrite E. Qed.

Lemma bind_return {A B} (m : H A) (k : A -> H B) r :
  control m = Return r -> m ≫= k = Step (effects m) (Return r).
Proof. intros E. unfold mbind, H_bind. by rewrite E. Qed.

Lemma bind_raise {A B} (m : H A) (k : A -> H B) e :
  control m = Raise e -> m ≫= k = Step (effects m) (Raise e).
Proof. intros E. unfold mbind, H_bind. by rewrite E. Qed.

Lemma bind_pure {A B} (a : A) (k : A -> H B) : mret a ≫= k = k a.
Proof. unfold mbind, H_bind, mret, H_ret. simpl. by destruct (k a). Qed.

Lemma bind_step_next {A B} (a : A) (k : A -> H B) : Step [] (Next a) ≫= k = k a.
Proof. apply (bind_pure a k). Qed.

Lemma fmap_step_next {A B} (f : A -> B) (a : A) :
  f <$> (Step [] (Next a) : H A) = Step [] (Next (f a)).
Proof. reflexivity. Qed.

Lemma silent_bind {A B} (m : H A) (k : A -> H B) :
  silent m -> (forall a, silent (k a)) -> silent (m ≫= k).
Proof.
  unfold silent, mbind, H_bind. intros Hm Hk.
  destruct (control m); simpl; rewrite ?Hm, ?Hk; done.
Qed.

Lemma silent_lift {A} (o : option A) : silent (lift o).
Proof. by destruct o. Qed.

Lemma silent_call_trim v : silent (call_trim v).
Proof. by destruct v. Qed.

(** ** Validation performs no effect *)

Lemma silent_is_missing v : silent (is_missing v).
Proof.
  unfold is_missing. destruct (nullish v); [done |].
  apply silent_bind; [apply silent_lift | done].
Qed.

Lemma silent_filter_missing entries : silent (filter_missing entries).
Proof.
  induction entries as [| [k v] r IH]; [done |].
  simpl. apply silent_bind; [apply silent_is_missing | intros b].
  apply silent_bind; [exact IH | done].
Qed.

Lemma silent_required_stage name phone caseType :
  silent (required_stage name phone caseType).
Proof.
  unfold required_stage. apply silent_bind.
  - apply silent_bind; [apply silent_filter_missing | done].
  - intros missing. by case_bool_decide.
Qed.

Lemma silent_member body field : silent (member body field).
Proof. unfold member. by destruct (nullish body). Qed.

Lemma silent_length_loop body entries : silent (length_loop body entries).
Proof.
  induction entries as [| [field max] r IH]; [done |].
  simpl. apply silent_bind; [apply silent_member | intros v].
  apply silent_bind.
  - destruct (truthy v); [| done].
    apply silent_bind; [apply silent_lift | done].
  - intros [|]; [done | exact IH].
Qed.

Lemma silent_phone_stage phone : silent (phone_stage phone).
Proof.
  unfold phone_stage. apply silent_bind; [apply silent_lift | intros s].
  by destruct (test phone_re s).
Qed.

Lemma silent_email_stage email : silent (email_stage email).
Proof.
  unfold email_stage. destruct (truthy email); [| done].
  apply silent_bind; [apply silent_call_trim | intros e].
  by destruct (test email_re e).
Qed.

Lemma silent_validate body : silent (validate body).
Proof.
  unfold validate.
  apply silent_bind; [apply silent_required_stage | intros _].
  apply silent_bind; [apply silent_length_loop | intros _].
  apply silent_bind; [apply silent_phone_stage | intros _].
  apply silent_email_stage.
Qed.

Lemma required_stage_absent :
  control (required_stage JUndefined JUndefined JUndefined)
  = Return (Response 400 None
      (Reply false (Some (js "Missing required fields"))
         (Some [js "name"; js "phone"; js "caseType"]))).
Proof. reflexivity. Qed.

(** A falsy body ([req.body || {}] takes the empty object) is rejected by
    the first stage. *)
Lemma validated_truthy body : validated body -> truthy body = true.
Proof.
  unfold validated, validate, fields_of. destruct (truthy body); [done |].
  change (get (JObj []) _) with JUndefined.
  rewrite (bind_return _ _ _ required_stage_absent). discriminate.
Qed.

Lemma contact_validated srv env relay body :
  validated body ->
  contact srv env relay body =
  dispatch srv env relay
    (get body (js "name")) (get body (js "phone")) (get body (js "caseType"))
    (get body (js "email")) (get body (js "message")) (get body (js "lang")).
Proof.
  intros V. unfold contact, fields_of. rewrite (validated_truthy body V).
  rewrite (bind_next _ _ tt V), (silent_validate body). simpl.
  by destruct (dispatch _ _ _ _ _ _ _ _ _).
Qed.

Lemma contact_rejected srv env relay body :
  ~ validated body ->
  contact srv env relay body = Step [] (control (validate body)).
Proof.
  intros V. unfold validated in V.
  pose proof (silent_validate body) as S. unfold silent in S.
  unfold contact.
  destruct (control (validate body)) as [[] | r | e] eqn:E; [done | |].
  - by rewrite (bind_return _ _ _ E), S.
  - by rewrite (bind_raise _ _ _ E), S.
Qed.

(** ** What the handler sends *)

Lemma call_trim_text s : call_trim (JStr s) = Step [] (Next (trim s)).
Proof. reflexivity. Qed.

Lemma emit_bind {B} e (k : unit -> H B) :
  emit e ≫= k = Step (e :: effects (k tt)) (control (k tt)).
Proof. reflexivity. Qed.

Lemma dispatch_configured srv env relay name phone caseType email message lang t :
  transporter srv = Some t ->
  dispatch srv env relay name phone caseType email message lang =
  if textual name phone caseType email message
  then after_send relay (composed env name phone caseType email message lang)
  else Step [] (Raise TypeError).
Proof.
  intros Ht. unfold dispatch. rewrite Ht. clear Ht.
  destruct name as [| | | | n | |]; try reflexivity.
  destruct phone as [| | | | p | |]; try reflexivity.
  destruct caseType as [| | | | c | |]; try reflexivity.
  rewrite !call_trim_text, !fmap_step_next, !bind_step_next.
  assert (D : (negb (truthy email) || is_text email = true
               /\ (if truthy email then esc <$> call_trim email else mret [])
                  = Step [] (Next (safe email)))
              \/ (negb (truthy email) || is_text email = false
                  /\ (if truthy email then esc <$> call_trim email else mret [])
                     = Step [] (Raise TypeError))).
  { destruct email as [| | [|] | x | x | |]; simpl;
      try (left; split; reflexivity); try (right; split; reflexivity).
    - destruct (eqb x (js "0")); simpl; [left | right]; split; reflexivity.
    - destruct (eqb x []) eqn:X; simpl; left; split; try reflexivity.
      apply eqb_eq in X as ->. reflexivity. }
  unfold textual. cbn [is_text andb].
  destruct D as [[-> ->] | [-> ->]]; [| reflexivity].
  rewrite bind_step_next.
  assert (M : forall text,
    coalesce message (JStr []) = JStr text -> text = text_of message ->
    (replace_all NL (js "<br>") ∘ esc <$> call_trim (coalesce message (JStr [])))
    = Step [] (Next (safe_message message))).
  { intros text -> ->. reflexivity. }
  destruct message as [| | | | msg | |]; try reflexivity;
    (erewrite M by reflexivity); rewrite bind_step_next, emit_bind;
    cbn [nullish is_text orb andb]; unfold after_send, composed, safe;
    cbn [text_of]; destruct (relay _); reflexivity.
Qed.

Lemma dispatch_unconfigured srv env relay name phone caseType email message lang :
  transporter srv = None ->
  dispatch srv env relay name phone caseType email message lang =
  Step [ConsoleWarn (js "SMTP_PASS not configured – email skipped")]
       (Return (Response 503 None (Reply false (Some (js "Email not configured")) None))).
Proof. intros Ht. unfold dispatch. by rewrite Ht. Qed.

Lemma contact_sent srv env relay body m :
  SendMail m ∈ effects (contact srv env relay body) ->
  is_Some (transporter srv) /\ validated body
  /\ textual (get body (js "name")) (get body (js "phone")) (get body (js "caseType"))
             (get body (js "email")) (get body (js "message")) = true
  /\ m = composed env (get body (js "name")) (get body (js "phone"))
           (get body (js "caseType")) (get body (js "email"))
           (get body (js "message")) (get body (js "lang"))
  /\ contact srv env relay body = after_send relay m.
Proof.
  intros Hin. destruct (decide (validated body)) as [V | V].
  2:{ rewrite (contact_rejected _ _ _ _ V) in Hin. simpl in Hin. by apply elem_of_nil in Hin. }
  rewrite (contact_validated _ _ _ _ V) in Hin |- *.
  destruct (transporter srv) as [t |] eqn:Ht.
  2:{ rewrite (dispatch_unconfigured _ _ _ _ _ _ _ _ _ Ht) in Hin. simpl in Hin.
      apply list_elem_of_singleton in Hin. discriminate. }
  rewrite (dispatch_configured _ _ _ _ _ _ _ _ _ t Ht) in Hin |- *.
  destruct (textual _ _ _ _ _).
  2:{ simpl in Hin. by apply elem_of_nil in Hin. }
  assert (m = composed env (get body (js "name")) (get body (js "phone"))
                (get body (js "caseType")) (get body (js "email"))
                (get body (js "message")) (get body (js "lang"))) as ->.
  { unfold after_send in Hin. destruct (relay _); simpl in Hin.
    - apply list_elem_of_singleton in Hin. congruence.
    - apply elem_of_cons in Hin as [Hin | Hin]; [congruence |].
      apply list_elem_of_singleton in Hin. discriminate. }
  done.
Qed.

(** ** [esc] unit by unit *)

Lemma replace_all_app c r a b :
  replace_all c r (a ++ b) = replace_all c r a ++ replace_all c r b.
Proof.
  induction a as [| u a IH]; [done |].
  simpl. by rewrite IH, (assoc_L (++)).
Qed.

Lemma esc_cons u s : esc (u :: s) = entity u ++ esc s.
Proof.
  unfold esc. cbn [replace_all]. rewrite !replace_all_app. f_equal.
  unfold entity.
  destruct (u =? AMP) eqn:Ea; [reflexivity |].
  cbn [replace_all app]. rewrite !replace_all_app.
  destruct (u =? LT) eqn:El; [reflexivity |].
  cbn [replace_all app]. rewrite !replace_all_app.
  destruct (u =? GT) eqn:Eg; [reflexivity |].
  cbn [replace_all app].
  destruct (u =? QUOT) eqn:Eq; reflexivity.
Qed.

Lemma esc_entities s : esc s = flat_map entity s.
Proof.
  induction s as [| u s IH]; [reflexivity |].
  rewrite esc_cons, IH. reflexivity.
Qed.

Lemma entity_markup_free u : markup_free (entity u).
Proof.
  unfold entity, markup_free.
  destruct (u =? AMP) eqn:Ea; [by repeat constructor |].
  destruct (u =? LT) eqn:El; [by repeat constructor |].
  destruct (u =? GT) eqn:Eg; [by repeat constructor |].
  destruct (u =? QUOT) eqn:Eq; [by repeat constructor |].
  apply N.eqb_neq in El, Eg, Eq. by repeat constructor.
Qed.

Lemma esc_markup_free s : markup_free (esc s).
Proof.
  rewrite esc_entities. induction s as [| u s IH]; [constructor |].
  simpl. apply Forall_app. split; [apply entity_markup_free | exact IH].
Qed.

Lemma br_entity u : replace_all NL (js "<br>") (entity u) = entity_or_br u.
Proof.
  unfold entity_or_br, entity.
  destruct (u =? NL) eqn:En.
  - apply N.eqb_eq in En as ->. reflexivity.
  - destruct (u =? AMP); [reflexivity |].
    destruct (u =? LT); [reflexivity |].
    destruct (u =? GT); [reflexivity |].
    destruct (u =? QUOT); [reflexivity |].
    cbn [replace_all]. by rewrite En.
Qed.

Lemma esc_br_entities s :
  replace_all NL (js "<br>") (esc s) = flat_map entity_or_br s.
Proof.
  induction s as [| u s IH]; [reflexivity |].
  rewrite esc_cons, replace_all_app, IH, br_entity. reflexivity.
Qed.

Lemma entity_or_br_cases u :
  (u = NL /\ entity_or_br u = js "<br>")
  \/ (u <> NL /\ entity_or_br u = entity u /\ markup_free (entity_or_br u)).
Proof.
  unfold entity_or_br. destruct (u =? NL) eqn:En.
  - left. by apply N.eqb_eq in En.
  - right. apply N.eqb_neq in En. repeat split; [done |]. apply entity_markup_free.
Qed.

(** ** The required-field stage *)

Lemma is_missing_converts v :
  converts v = true -> is_missing v = Step [] (Next (blank v)).
Proof.
  unfold converts, blank, is_missing. destruct (nullish v); [done |]. simpl.
  intros C. apply bool_decide_eq_true in C as [s ->]. reflexivity.
Qed.

Lemma is_missing_throws v :
  converts v = false -> is_missing v = Step [] (Raise TypeError).
Proof.
  unfold converts, is_missing. destruct (nullish v); [done |]. simpl.
  intros C. apply bool_decide_eq_false in C.
  destruct (to_string v); [| reflexivity]. destruct C. by eexists.
Qed.

Lemma filter_missing_converts entries :
  forallb (fun e => converts (snd e)) entries = true ->
  filter_missing entries = Step [] (Next (List.filter (fun e => blank (snd e)) entries)).
Proof.
  induction entries as [| [k v] r IH]; [done |].
  cbn [forallb snd]. intros [C R]%andb_true_iff.
  cbn [filter_missing List.filter snd].
  rewrite (is_missing_converts v C), bind_step_next, (IH R), bind_step_next.
  by destruct (blank v).
Qed.

Lemma required_stage_converts body :
  forallb (fun e => converts (snd e)) (required_of body) = true ->
  required_stage (get (fields_of body) (js "name")) (get (fields_of body) (js "phone"))
                 (get (fields_of body) (js "caseType"))
  = if bool_decide (missing_of body = []) then Step [] (Next tt)
    else Step [] (Return (missing_reply (missing_of body))).
Proof.
  intros C. unfold required_stage.
  change [(js "name", _); (js "phone", _); (js "caseType", _)] with (required_of body).
  rewrite (filter_missing_converts _ C), !bind_step_next.
  fold (missing_of body). rewrite bind_pure. by case_bool_decide.
Qed.

(** Passing the stage: every required member converts and is not blank. *)
Lemma required_stage_passed body :
  control (required_stage (get (fields_of body) (js "name"))
                          (get (fields_of body) (js "phone"))
                          (get (fields_of body) (js "caseType"))) = Next tt ->
  Forall (fun e => nullish (snd e) = false
                   /\ exists s, to_string (snd e) = Some s /\ trim s <> [])
         (required_of body).
Proof.
  unfold required_stage.
  change [(js "name", _); (js "phone", _); (js "caseType", _)] with (required_of body).
  assert (G : forall entries,
    match control (filter_missing entries) with
    | Next kept =>
        forall e, e ∈ entries -> e ∉ kept ->
          nullish (snd e) = false /\ exists s, to_string (snd e) = Some s /\ trim s <> []
    | _ => True
    end).
  { induction entries as [| [k v] r IH]; [simpl; intros e He; by apply elem_of_nil in He |].
    cbn [filter_missing]. unfold is_missing at 1.
    destruct (nullish v) eqn:Nv.
    - rewrite bind_pure.
      destruct (filter_missing r) as [es [kept | |]]; simpl in *; try done.
      intros e [-> | He]%elem_of_cons Hk; [| apply IH; [done |]].
      + destruct Hk. by left.
      + intros ?. apply Hk. by right.
    - destruct (to_string v) as [s |] eqn:Sv; [| done].
      cbn [lift]. rewrite !bind_pure.
      destruct (filter_missing r) as [es [kept | |]]; simpl in *; try done.
      intros e [-> | He]%elem_of_cons Hk.
      + simpl. split; [done |]. exists s. split; [done |].
        destruct (eqb (trim s) []) eqn:Eb.
        * destruct Hk. by left.
        * intros T. apply eqb_eq in T. congruence.
      + apply IH; [done |]. intros ?. apply Hk.
        destruct (eqb (trim s) []); [by right | done]. }
  specialize (G (required_of body)).
  destruct (filter_missing (required_of body)) as [es [kept | |]]; simpl in *; try done.
  case_bool_decide as Hm; simpl; [| done]. intros _.
  apply map_eq_nil in Hm as ->.
  apply Forall_forall. intros e He. apply G; [done |]. apply not_elem_of_nil.
Qed.

(** ** The length stage *)

Lemma length_loop_find body entries :
  nullish body = false ->
  Forall (fun e => truthy (get body (fst e)) = true ->
                   is_Some (to_string (get body (fst e)))) entries ->
  length_loop body entries =
  match List.find (over body) entries with
  | Some (field, max) => Step [] (Return (too_long_reply field max))
  | None => Step [] (Next tt)
  end.
Proof.
  intros Nb. induction 1 as [| [field max] r C _ IH]; [reflexivity |].
  cbn [length_loop List.find]. unfold member. rewrite Nb, bind_pure.
  unfold over at 1. cbn [fst snd] in *.
  destruct (truthy (get body field)); cbn [andb].
  - destruct (C eq_refl) as [s ->]. cbn [lift]. rewrite !bind_pure.
    destruct (max <? N.of_nat (length s)); [reflexivity | exact IH].
  - rewrite bind_pure. exact IH.
Qed.

Lemma falsy_short v s :
  truthy v = false -> to_string v = Some s -> (length s <= 9)%nat.
Proof.
  destruct v as [| | [|] | t | t | |]; simpl; try discriminate;
    try (intros _ [= <-]; vm_compute; lia).
  - destruct (eqb t (js "0")) eqn:E; [| discriminate].
    apply eqb_eq in E as ->. intros _ [= <-]. vm_compute. lia.
  - destruct (eqb t []) eqn:E; [| discriminate].
    apply eqb_eq in E as ->. intros _ [= <-]. simpl. lia.
Qed.

Lemma over_exceeds body e : e ∈ limits -> over body e = exceeds body e.
Proof.
  intros He. unfold over, exceeds.
  destruct (truthy (get body (fst e))) eqn:T; [reflexivity |]. cbn [andb].
  destruct (to_string (get body (fst e))) as [s |] eqn:S; [| reflexivity].
  pose proof (falsy_short _ _ T S) as L.
  symmetry. apply N.ltb_ge.
  assert (30 <= snd e).
  { unfold limits in He. repeat (apply elem_of_cons in He as [-> | He]; [simpl; lia |]).
    by apply elem_of_nil in He. }
  lia.
Qed.

Lemma find_ext {A} (f g : A -> bool) l :
  (forall x, x ∈ l -> f x = g x) -> List.find f l = List.find g l.
Proof.
  induction l as [| x l IH]; [reflexivity |]. intros E. simpl.
  rewrite (E x) by (by left). rewrite IH; [reflexivity |].
  intros y Hy. apply E. by right.
Qed.

Lemma length_stage_find body :
  validated body \/ control (required_stage (get (fields_of body) (js "name"))
                               (get (fields_of body) (js "phone"))
                               (get (fields_of body) (js "caseType"))) = Next tt ->
  truthy body = true ->
  is_Some (to_string (get body (js "email"))) ->
  is_Some (to_string (get body (js "message"))) ->
  length_stage body =
  match first_too_long body with
  | Some (field, max) => Step [] (Return (too_long_reply field max))
  | None => Step [] (Next tt)
  end.
Proof.
  intros R T Ce Cm.
  assert (R' : control (required_stage (get (fields_of body) (js "name"))
                               (get (fields_of body) (js "phone"))
                               (get (fields_of body) (js "caseType"))) = Next tt).
  { destruct R as [V | R]; [| exact R].
    unfold validated, validate in V.
    destruct (control (required_stage _ _ _)) as [[] | r | e] eqn:E; [done | |].
    - by rewrite (bind_return _ _ _ E) in V.
    - by rewrite (bind_raise _ _ _ E) in V. }
  apply required_stage_passed in R'.
  unfold required_of, fields_of in R'. rewrite T in R'.
  apply Forall_cons in R' as [[_ (n & Sn & _)] R'].
  apply Forall_cons in R' as [[_ (p & Sp & _)] R'].
  apply Forall_cons in R' as [[_ (c & Sc & _)] _].
  cbn [snd] in Sn, Sp, Sc.
  unfold length_stage, first_too_long.
  rewrite <- (find_ext (over body) (exceeds body) limits (fun e He => over_exceeds body e He)).
  apply length_loop_find.
  - by destruct body.
  - unfold limits. repeat constructor; cbn [fst]; intros _; by eauto.
Qed.

(** ** The contact endpoint: claims *)

(** X1. When each required member is absent, null or a value that
    [String] converts, and at least one of them is absent, null or trims to
    the empty string, the endpoint answers 400 with the names of all such
    members in the order name, phone, caseType, performs no effect, and no
    later stage is reached. *)
Theorem missing_fields_all_listed srv env relay body :
  forallb (fun e => converts (snd e)) (required_of body) = true ->
  missing_of body <> [] ->
  contact srv env relay body = Step [] (Return (missing_reply (missing_of body)))
  /\ (forall k v, (k, v) ∈ required_of body -> blank v = true -> k ∈ missing_of body)
  /\ ~ validated body.
Proof.
  intros C M.
  pose proof (required_stage_converts body C) as R.
  rewrite bool_decide_eq_false_2 in R by done.
  assert (V : control (validate body) = Return (missing_reply (missing_of body))).
  { unfold validate. cbv zeta. by rewrite R. }
  assert (NV : ~ validated body) by (unfold validated; by rewrite V).
  split; [| split; [| exact NV]].
  - by rewrite (contact_rejected _ _ _ _ NV), V.
  - intros k v Hin B. unfold missing_of.
    apply (list_elem_of_fmap_2 fst _ (k, v)).
    apply list_elem_of_In, filter_In. split; [by apply list_elem_of_In | exact B].
Qed.

Lemma missing_fields_all_listed_witness :
  contact (startup with_password bare_page bare_page) with_password delivers no_name
  = Step [] (Return (missing_reply [js "name"])).
Proof.
  exact (proj1 (missing_fields_all_listed
                  (startup with_password bare_page bare_page) with_password delivers no_name
                  eq_refl ltac:(discriminate))).
Defined.

(** C3, at a body the claim covers: name is the empty string and phone is
    an object with a member named toString.  The filter of the first stage
    converts phone with [String], the conversion throws, and the exception
    leaves the handler: no 400 reply listing name is sent. *)
Theorem missing_name_odd_phone_throws srv env relay :
  blank (get no_name_odd_phone (js "name")) = true
  /\ contact srv env relay no_name_odd_phone = Step [] (Raise TypeError).
Proof. split; reflexivity. Qed.

(** C4, at a body whose email is the number 5: the first three stages
    pass, [email.trim] is not a function, and the TypeError leaves the
    handler whatever the server, the environment and the relay are; the same
    happens at [name.trim()] for a body of numbers once a transporter
    exists. *)
Theorem non_string_member_throws srv env relay :
  control (required_stage (get numeric_email (js "name")) (get numeric_email (js "phone"))
                          (get numeric_email (js "caseType"));;
           length_stage numeric_email;;
           phone_stage (get numeric_email (js "phone"))) = Next tt
  /\ contact srv env relay numeric_email = Step [] (Raise TypeError)
  /\ outcome_of (contact srv env relay numeric_email) = Uncaught TypeError
  /\ (validated numeric_name
      /\ (is_Some (transporter srv) ->
          contact srv env relay numeric_name = Step [] (Raise TypeError))).
Proof.
  repeat split; try reflexivity.
  intros [t Ht]. rewrite contact_validated by reflexivity.
  by rewrite (dispatch_configured _ _ _ _ _ _ _ _ _ t Ht).
Qed.

(** C6. When the environment at start holds no SMTP_PASS (unset or empty),
    every body that passes the four stages gets status 503 with
    [{ok: false, error: 'Email not configured'}]; the only effect is the
    console warning, so no mail is sent.  The environment at the time of the
    request ([env]) plays no part: the decision is the transporter computed
    at start. *)
Theorem unconfigured_relay_gives_503 env0 index_html expertise_html env relay body :
  SMTP_PASS env0 = None \/ SMTP_PASS env0 = Some [] ->
  validated body ->
  contact (startup env0 index_html expertise_html) env relay body
  = Step [ConsoleWarn (js "SMTP_PASS not configured – email skipped")]
         (Return (Response 503 None (Reply false (Some (js "Email not configured")) None)))
  /\ mails (effects (contact (startup env0 index_html expertise_html) env relay body)) = [].
Proof.
  intros P V.
  assert (T : transporter (startup env0 index_html expertise_html) = None).
  { unfold startup, transporter_of. simpl. by destruct P as [-> | ->]. }
  rewrite (contact_validated _ _ _ _ V), (dispatch_unconfigured _ _ _ _ _ _ _ _ _ T).
  split; reflexivity.
Qed.

Lemma unconfigured_relay_gives_503_witness :
  validated dana
  /\ control (contact (startup without_password bare_page bare_page) with_password delivers dana)
     = Return (Response 503 None (Reply false (Some (js "Email not configured")) None)).
Proof.
  assert (V : validated dana) by reflexivity.
  split; [exact V |].
  exact (f_equal control
           (proj1 (unconfigured_relay_gives_503 without_password bare_page bare_page
                     with_password delivers dana (or_introl eq_refl) V))).
Defined.

(** C7. For every request to the contact endpoint: at most one mail is
    sent; a mail is sent only when the four stages have passed (and a
    transporter exists); a request that fails a stage performs no effect at
    all, and the stages themselves never perform one; when the relay rejects
    the mail, that one attempt is the only one and the reply is 500. *)
Theorem one_send_after_validation srv env relay body :
  (length (mails (effects (contact srv env relay body))) <= 1)%nat
  /\ (forall m, SendMail m ∈ effects (contact srv env relay body) ->
        validated body /\ is_Some (transporter srv))
  /\ (~ validated body -> effects (contact srv env relay body) = [])
  /\ effects (validate body) = []
  /\ (forall m message, SendMail m ∈ effects (contact srv env relay body) ->
        relay m = Failed message ->
        mails (effects (contact srv env relay body)) = [m]
        /\ control (contact srv env relay body)
           = Return (Response 500 None (Reply false (Some (js "Failed to send email")) None))).
Proof.
  assert (S : forall m, SendMail m ∈ effects (contact srv env relay body) ->
            contact srv env relay body = after_send relay m).
  { intros m Hin. by destruct (contact_sent _ _ _ _ _ Hin) as (_ & _ & _ & _ & ->). }
  split; [| split; [| split; [| split]]].
  - destruct (decide (validated body)) as [V | V].
    2:{ rewrite (contact_rejected _ _ _ _ V). simpl. lia. }
    rewrite (contact_validated _ _ _ _ V).
    destruct (transporter srv) as [t |] eqn:Ht.
    + rewrite (dispatch_configured _ _ _ _ _ _ _ _ _ t Ht).
      destruct (textual _ _ _ _ _); [| simpl; lia].
      unfold after_send. destruct (relay _); simpl; lia.
    + rewrite (dispatch_unconfigured _ _ _ _ _ _ _ _ _ Ht). simpl. lia.
  - intros m Hin. by destruct (contact_sent _ _ _ _ _ Hin) as (? & ? & _).
  - intros V. by rewrite (contact_rejected _ _ _ _ V).
  - apply silent_validate.
  - intros m message Hin R. rewrite (S m Hin). unfold after_send. by rewrite R.
Qed.

Lemma required_truthy body :
  control (required_stage (get (fields_of body) (js "name"))
                          (get (fields_of body) (js "phone"))
                          (get (fields_of body) (js "caseType"))) = Next tt ->
  truthy body = true.
Proof.
  unfold fields_of. destruct (truthy body); [done |].
  change (get (JObj []) _) with JUndefined. by rewrite required_stage_absent.
Qed.

(** C9, as the code has it.  Let the body pass the required-field stage,
    let email and message be values that [String] converts, and let some
    member be longer than its limit (name 200, phone 30, caseType 100, email
    254, message 5000 code units of its untrimmed text).  Then the length
    stage ends the request with status 400 and
    [{ok: false, error: '<field> exceeds maximum length of <max>'}], where
    <field> is the first too-long member in the order of the limits and <max>
    its limit; the format stages are not reached and nothing is sent.  The
    member and the limit are named inside the error text only: the reply has
    no [fields] list. *)
Theorem too_long_member_rejected srv env relay body e :
  control (required_stage (get (fields_of body) (js "name"))
                          (get (fields_of body) (js "phone"))
                          (get (fields_of body) (js "caseType"))) = Next tt ->
  is_Some (to_string (get body (js "email"))) ->
  is_Some (to_string (get body (js "message"))) ->
  e ∈ limits -> exceeds body e = true ->
  exists field max,
    first_too_long body = Some (field, max)
    /\ (field, max) ∈ limits /\ exceeds body (field, max) = true
    /\ length_stage body
       = Step [] (Return (Response 400 None
           (Reply false (Some (field ++ js " exceeds maximum length of " ++ decimal max)) None)))
    /\ contact srv env relay body = length_stage body
    /\ ~ lists_field (too_long_reply field max) field.
Proof.
  intros R Ce Cm He Ee.
  pose proof (required_truthy body R) as T.
  pose proof (length_stage_find body (or_intror R) T Ce Cm) as L.
  destruct (first_too_long body) as [[field max] |] eqn:F.
  2:{ apply list_elem_of_In in He.
      pose proof (find_none _ _ F e He) as N. congruence. }
  exists field, max. unfold first_too_long in F.
  destruct (find_some _ _ F) as [Hin Hex].
  assert (V : control (validate body) = Return (too_long_reply field max)).
  { unfold validate. cbv zeta. rewrite (bind_next _ _ tt R).
    cbn [control]. by rewrite (bind_return _ _ _ (f_equal control L)). }
  assert (NV : ~ validated body) by (unfold validated; by rewrite V).
  repeat split; try done.
  - by apply list_elem_of_In.
  - rewrite (contact_rejected _ _ _ _ NV), V. by rewrite L.
  - intros (ok & error & fields & [=] & _).
Qed.

Lemma too_long_member_rejected_witness :
  contact (startup with_password bare_page bare_page) with_password delivers long_name
  = Step [] (Return (Response 400 None
      (Reply false (Some (js "name exceeds maximum length of 200")) None))).
Proof.
  destruct (too_long_member_rejected
              (startup with_password bare_page bare_page) with_password delivers long_name
              (js "name", 200) eq_refl
              (mk_is_Some _ _ eq_refl) (mk_is_Some _ _ eq_refl)
              ltac:(by left) eq_refl)
    as (field & max & F & _ & _ & L & C & _).
  injection F as <- <-. rewrite C. exact L.
Defined.

(** C9 as stated fails.  A name of 201 units is rejected by a reply whose
    only members are [ok] and the sentence [error]: there is no [fields]
    list naming it.  And for a body with a too-long message and an email that
    is an object with a member named toString, the loop converts email first,
    the conversion throws, and no reply is sent. *)
Lemma too_long_reply_counterexample :
  (exceeds long_name (js "name", 200) = true
   /\ contact (startup with_password bare_page bare_page) with_password delivers long_name
      = Step [] (Return (Response 400 None
          (Reply false (Some (js "name exceeds maximum length of 200")) None)))
   /\ ~ lists_field (Response 400 None
          (Reply false (Some (js "name exceeds maximum length of 200")) None)) (js "name"))
  /\ (control (required_stage (get long_message_odd_email (js "name"))
                              (get long_message_odd_email (js "phone"))
                              (get long_message_odd_email (js "caseType"))) = Next tt
      /\ exceeds long_message_odd_email (js "message", 5000) = true
      /\ contact (startup with_password bare_page bare_page) with_password delivers
                 long_message_odd_email
         = Step [] (Raise TypeError)).
Proof.
  repeat split; try (vm_compute; reflexivity).
  intros (ok & error & fields & [=] & _).
Qed.

(** C1. Whenever the endpoint sends a mail, the body passed validation and
    its name, phone and caseType are strings (email is a string or falsy,
    message a string or absent), and the HTML of the mail is the fixed frame
    around five values: name, phone, caseType and email each trimmed and
    escaped, which is the unit-by-unit replacement of the ampersand, the
    angle brackets and the double quote by entities, and the message trimmed,
    escaped the same way and only then with each newline replaced by a line
    break.  So the four values hold no angle bracket and no double quote, and
    every unit of the message contributes either the line break or a piece
    without them. *)
Theorem mail_fields_escaped srv env relay body m :
  SendMail m ∈ effects (contact srv env relay body) ->
  exists safeName safePhone safeCaseType safeEmail safeMessage,
    validated body
    /\ textual (get body (js "name")) (get body (js "phone")) (get body (js "caseType"))
               (get body (js "email")) (get body (js "message")) = true
    /\ html m = email_html (is_str (get body (js "lang")) (js "he"))
                  safeName safePhone safeCaseType safeEmail safeMessage
    /\ safeName = esc (trim (text_of (get body (js "name"))))
    /\ safePhone = esc (trim (text_of (get body (js "phone"))))
    /\ safeCaseType = esc (trim (text_of (get body (js "caseType"))))
    /\ safeEmail = esc (trim (text_of (get body (js "email"))))
    /\ safeMessage
       = replace_all NL (js "<br>") (esc (trim (text_of (get body (js "message")))))
    /\ (forall s, esc s = flat_map entity s)
    /\ safeMessage = flat_map entity_or_br (trim (text_of (get body (js "message"))))
    /\ Forall markup_free [safeName; safePhone; safeCaseType; safeEmail]
    /\ Forall (fun u => entity_or_br u = js "<br>" \/ markup_free (entity_or_br u))
              (trim (text_of (get body (js "message")))).
Proof.
  intros Hin. destruct (contact_sent _ _ _ _ _ Hin) as (_ & V & T & -> & _).
  eexists _, _, _, _, _.
  split; [exact V |]. split; [exact T |]. split; [reflexivity |].
  do 5 (split; [reflexivity |]).
  split; [exact esc_entities |].
  split; [apply esc_br_entities |].
  split.
  - repeat constructor; apply esc_markup_free.
  - apply Forall_forall. intros u _.
    destruct (entity_or_br_cases u) as [[_ ->] | (_ & _ & F)]; [by left | by right].
Qed.

Lemma mail_fields_escaped_witness :
  exists m,
    SendMail m ∈ effects (contact (startup with_password bare_page bare_page)
                                  with_password delivers dana)
    /\ validated dana.
Proof.
  set (m := composed with_password (get dana (js "name")) (get dana (js "phone"))
              (get dana (js "caseType")) (get dana (js "email"))
              (get dana (js "message")) (get dana (js "lang"))).
  assert (Hin : SendMail m ∈ effects (contact (startup with_password bare_page bare_page)
                                              with_password delivers dana)).
  { rewrite contact_validated by reflexivity.
    erewrite dispatch_configured by reflexivity.
    change (textual _ _ _ _ _) with true. apply list_elem_of_here. }
  exists m. split; [exact Hin |].
  destruct (mail_fields_escaped _ _ _ _ _ Hin) as (? & ? & ? & ? & ? & V & _).
  exact V.
Defined.

(** ** The contact endpoint: further properties *)

Lemma stage_like_seq (m : H unit) (k : unit -> H unit) :
  stage_like m -> (forall u, stage_like (k u)) -> stage_like (m ≫= k).
Proof.
  unfold stage_like, mbind, H_bind. intros Hm Hk.
  destruct (control m) as [u | r | e]; simpl; [apply Hk | exact Hm | exact I].
Qed.

Lemma is_missing_no_return v r : control (is_missing v) <> Return r.
Proof.
  unfold is_missing. destruct (nullish v); [done |].
  by destruct (to_string v).
Qed.

Lemma filter_missing_no_return entries r : control (filter_missing entries) <> Return r.
Proof.
  revert r. induction entries as [| [k v] rest IH]; intros r; [done |].
  cbn [filter_missing]. unfold mbind at 1, H_bind.
  pose proof (is_missing_no_return v) as M.
  destruct (control (is_missing v)) as [b | r' | e]; [| by destruct (M r') | done].
  cbn [control]. unfold mbind, H_bind.
  destruct (control (filter_missing rest)) as [kept | r' | e];
    [done | by destruct (IH r') | done].
Qed.

Lemma stage_like_required name phone caseType :
  stage_like (required_stage name phone caseType).
Proof.
  unfold required_stage, stage_like.
  set (entries := [(js "name", name); (js "phone", phone); (js "caseType", caseType)]).
  pose proof (filter_missing_no_return entries) as F.
  unfold mbind, H_bind.
  destruct (control (filter_missing entries)) as [kept | r | e]; cbn [control];
    [| by destruct (F r) | exact I].
  change (control (mret (map fst kept))) with (Next (map fst kept)). cbv iota. cbn [control].
  case_bool_decide; simpl; [exact I | split; [reflexivity | by eexists _, _]].
Qed.

Lemma stage_like_length_loop body entries : stage_like (length_loop body entries).
Proof.
  induction entries as [| [field max] r IH]; [exact I |].
  cbn [length_loop]. unfold member.
  destruct (nullish body); [exact I |]. rewrite bind_pure.
  destruct (truthy (get body field)).
  - destruct (to_string (get body field)) as [s |]; [| exact I].
    cbn [lift]. rewrite !bind_pure.
    destruct (max <? N.of_nat (length s)); [| exact IH].
    split; [reflexivity | by eexists _, _].
  - rewrite bind_pure. exact IH.
Qed.

Lemma stage_like_phone phone : stage_like (phone_stage phone).
Proof.
  unfold phone_stage. destruct (to_string phone) as [s |]; [| exact I].
  cbn [lift]. rewrite bind_pure.
  destruct (test phone_re s); [exact I | split; [reflexivity | by eexists _, _]].
Qed.

Lemma stage_like_email email : stage_like (email_stage email).
Proof.
  unfold email_stage. destruct (truthy email); [| exact I].
  destruct email; try exact I.
  rewrite call_trim_text, bind_step_next.
  destruct (test email_re _); [exact I | split; [reflexivity | by eexists _, _]].
Qed.

Lemma stage_like_validate body : stage_like (validate body).
Proof.
  unfold validate.
  apply stage_like_seq; [apply stage_like_required | intros _].
  apply stage_like_seq; [apply stage_like_length_loop | intros _].
  apply stage_like_seq; [apply stage_like_phone | intros _].
  apply stage_like_email.
Qed.

Lemma contact_ends srv env relay body :
  (exists r, outcome_of (contact srv env relay body) = Responded r /\ endpoint_reply r)
  \/ outcome_of (contact srv env relay body) = Uncaught TypeError.
Proof.
  destruct (decide (validated body)) as [V | V].
  - rewrite (contact_validated _ _ _ _ V).
    destruct (transporter srv) as [t |] eqn:Ht.
    + rewrite (dispatch_configured _ _ _ _ _ _ _ _ _ t Ht).
      destruct (textual _ _ _ _ _); [| by right].
      left. unfold after_send. destruct (relay _); eexists; (split; [reflexivity |]);
        (split; [by eexists _, _, _ | simpl; tauto]).
    + rewrite (dispatch_unconfigured _ _ _ _ _ _ _ _ _ Ht).
      left. eexists. split; [reflexivity |]. split; [by eexists _, _, _ | simpl; tauto].
  - rewrite (contact_rejected _ _ _ _ V). unfold outcome_of. cbn [control].
    pose proof (stage_like_validate body) as S. unfold stage_like, validated in *.
    destruct (control (validate body)) as [[] | r | []]; [done | | by right].
    left. exists r. split; [reflexivity |]. destruct S as [S (error & fields & C)].
    split; [by eexists _, _, _ | tauto].
Qed.

(** X2. Every request to the contact endpoint ends by a reply of the
    endpoint (a JSON object with status 200, 400, 500 or 503) or by a
    TypeError that leaves the handler; the handler never returns without
    responding. *)
Theorem contact_outcomes srv env relay body :
  outcome_of (contact srv env relay body) <> NoResponse
  /\ ((exists r, outcome_of (contact srv env relay body) = Responded r /\ endpoint_reply r)
      \/ outcome_of (contact srv env relay body) = Uncaught TypeError).
Proof.
  pose proof (contact_ends srv env relay body) as E.
  split; [| exact E].
  destruct E as [(r & -> & _) | ->]; discriminate.
Qed.

Lemma plain_member_converts v : plain_member v = true -> converts v = true.
Proof. by destruct v. Qed.

Lemma plain_member_string v : plain_member v = true -> is_Some (to_string v).
Proof. destruct v; try discriminate; by eexists. Qed.

Lemma plain_member_text v : plain_member v = true -> nullish v = false -> is_text v = true.
Proof. by destruct v. Qed.

(** X3. A body whose name, phone, caseType, email and message are each
    absent, null or a string always gets a reply of the endpoint; nothing is
    thrown. *)
Theorem plain_body_replied srv env relay body :
  plain_body (fields_of body) = true ->
  exists r, outcome_of (contact srv env relay body) = Responded r /\ endpoint_reply r.
Proof.
  intros P.
  destruct (contact_ends srv env relay body) as [R | U]; [exact R | exfalso].
  unfold plain_body in P. cbn [forallb] in P.
  destruct (andb_prop _ _ P) as [Pn P1]. destruct (andb_prop _ _ P1) as [Pp P2].
  destruct (andb_prop _ _ P2) as [Pc P3]. destruct (andb_prop _ _ P3) as [Pe P4].
  destruct (andb_prop _ _ P4) as [Pm _]. clear P P1 P2 P3 P4.
  assert (C : forallb (fun e => converts (snd e)) (required_of body) = true).
  { unfold required_of. cbn [forallb snd].
    by rewrite !plain_member_converts. }
  pose proof (required_stage_converts body C) as R.
  destruct (decide (validated body)) as [V | V].
  - pose proof (validated_truthy body V) as T.
    assert (Rq : control (required_stage (get (fields_of body) (js "name"))
                            (get (fields_of body) (js "phone"))
                            (get (fields_of body) (js "caseType"))) = Next tt).
    { unfold validated, validate in V.
      destruct (control (required_stage _ _ _)) as [[] | r | e] eqn:E; [done | |].
      - by rewrite (bind_return _ _ _ E) in V.
      - by rewrite (bind_raise _ _ _ E) in V. }
    apply required_stage_passed in Rq. unfold required_of in Rq.
    apply Forall_cons in Rq as [[Nn _] Rq]. apply Forall_cons in Rq as [[Np _] Rq].
    apply Forall_cons in Rq as [[Nc _] _]. cbn [snd] in Nn, Np, Nc.
    unfold fields_of in *. rewrite T in *.
    rewrite (contact_validated _ _ _ _ V) in U.
    destruct (transporter srv) as [t |] eqn:Ht.
    + rewrite (dispatch_configured _ _ _ _ _ _ _ _ _ t Ht) in U.
      assert (X : textual (get body (js "name")) (get body (js "phone"))
                    (get body (js "caseType")) (get body (js "email"))
                    (get body (js "message")) = true).
      { unfold textual. rewrite !plain_member_text by done. cbn [andb].
        apply andb_true_intro. split.
        - destruct (get body (js "email")); try done. apply orb_true_r.
        - by destruct (get body (js "message")). }
      rewrite X in U. unfold after_send in U. by destruct (relay _).
    + by rewrite (dispatch_unconfigured _ _ _ _ _ _ _ _ _ Ht) in U.
  - rewrite (contact_rejected _ _ _ _ V) in U. unfold outcome_of in U. cbn [control] in U.
    assert (NR : forall e, control (validate body) <> Raise e); [| by destruct
      (control (validate body)) as [| | e]; [| | destruct (NR e)]].
    intros e. unfold validate.
    case_bool_decide as M.
    2:{ by rewrite (bind_return _ _ _ (f_equal control R)). }
    rewrite R, bind_step_next.
    assert (T : truthy body = true) by (apply required_truthy; by rewrite R).
    unfold fields_of in *. rewrite T in *.
    rewrite (length_stage_find body); try (by apply plain_member_string).
    2:{ right. unfold fields_of. rewrite T. by rewrite R. }
    2:{ exact T. }
    destruct (first_too_long body) as [[field max] |]; [done |].
    rewrite bind_step_next. unfold phone_stage.
    destruct (plain_member_string _ Pp) as [s ->]. cbn [lift]. rewrite bind_pure.
    destruct (test phone_re s); [| done]. rewrite bind_pure.
    unfold email_stage. destruct (truthy (get body (js "email"))) eqn:Te; [| done].
    destruct (get body (js "email")); try done.
    rewrite call_trim_text, bind_step_next. by destruct (test email_re _).
Qed.

Lemma plain_body_replied_witness :
  exists r,
    outcome_of (contact (startup with_password bare_page bare_page) with_password delivers
                        no_name) = Responded r
    /\ endpoint_reply r.
Proof.
  exact (plain_body_replied (startup with_password bare_page bare_page) with_password
           delivers no_name eq_refl).
Defined.

(** X4. The phone of a request that passed validation: its [String]
    conversion is not empty and holds only digits, whitespace and the
    symbols [- + ( ) .]. *)
Theorem validated_phone_format body :
  validated body ->
  exists s, to_string (get body (js "phone")) = Some s
            /\ s <> [] /\ Forall (fun u => phone_unit u = true) s.
Proof.
  intros V. pose proof (validated_truthy body V) as T.
  unfold validated, validate, fields_of in V. rewrite T in V.
  apply bind_next_inv in V as ([] & _ & V).
  apply bind_next_inv in V as ([] & _ & V).
  apply bind_next_inv in V as ([] & P & _).
  unfold phone_stage in P.
  destruct (to_string (get body (js "phone"))) as [s |]; [| done].
  cbn [lift] in P. rewrite bind_pure in P.
  destruct (test phone_re s) eqn:E; [| done].
  apply test_class_plus in E as [Hs Hc].
  exists s. repeat split; [done |].
  apply Forall_forall. intros u Hu%list_elem_of_In.
  exact (proj1 (forallb_forall _ _) Hc u Hu).
Qed.

Example letters_phone_rejected srv env relay :
  contact srv env relay letters_phone
  = Step [] (Return (Response 400 None
      (Reply false (Some (js "Invalid phone format")) None))).
Proof. reflexivity. Qed.

Lemma validated_phone_format_witness :
  validated dana
  /\ exists s, to_string (get dana (js "phone")) = Some s
               /\ s <> [] /\ Forall (fun u => phone_unit u = true) s.
Proof.
  assert (V : validated dana) by reflexivity.
  split; [exact V | exact (validated_phone_format dana V)].
Defined.

(** The scenario of the specification: the valid Hebrew submission with a
    configured relay gets [{ok: true}] and exactly one mail, to the fixed
    address, whose HTML holds the name and a line break in place of the
    newline; when the relay rejects the mail the reply is 500 after that one
    attempt, the relay's message going to the console only. *)
Example dana_scenario :
  exists m,
    contact (startup with_password bare_page bare_page) with_password delivers dana
    = Step [SendMail m] (Return (Response 200 None (Reply true None None)))
    /\ contact (startup with_password bare_page bare_page) with_password fails dana
       = Step [SendMail m; ConsoleError (js "Email send error:") (js "connect ETIMEDOUT")]
              (Return (Response 500 None
                 (Reply false (Some (js "Failed to send email")) None)))
    /\ to m = js "pardooren@gmail.com"
    /\ occurs (js "Dana") (html m)
    /\ occurs (js "Hello<br>World") (html m)
    /\ occurs (js "dir=`rtl`") (html m).
Proof.
  eexists. split; [| split; [| split; [| split; [| split]]]].
  - rewrite contact_validated by reflexivity.
    erewrite dispatch_configured by reflexivity. reflexivity.
  - rewrite contact_validated by reflexivity.
    erewrite dispatch_configured by reflexivity. reflexivity.
  - reflexivity.
  - apply occurs_found. vm_compute. reflexivity.
  - apply occurs_found. vm_compute. reflexivity.
  - apply occurs_found. vm_compute. reflexivity.
Qed.

(** ** The page handlers: claims *)

Lemma all_have_both : forallb has_both expertiseRoutes = true.
Proof. vm_compute. reflexivity. Qed.

Lemma registered_entries route :
  route ∈ expertiseRoutes ->
  exists he en, he_entry route = Some he /\ en_entry route = Some en /\ he <> en.
Proof.
  intros Hin%list_elem_of_In.
  pose proof (proj1 (forallb_forall _ _) all_have_both route Hin) as B.
  unfold has_both in B.
  destruct (he_entry route) as [he |]; [| done].
  destruct (en_entry route) as [en |]; [| done].
  exists he, en. repeat split. intros ->. by rewrite bool_decide_eq_true_2 in B.
Qed.

Lemma page_lang_cases q :
  (q = JStr (js "en") /\ page_lang q = js "en")
  \/ (q <> JStr (js "en") /\ page_lang q = js "he").
Proof.
  unfold page_lang, is_str. destruct q as [| | | | s | |]; try (right; split; [discriminate | reflexivity]).
  destruct (eqb s (js "en")) eqn:E.
  - apply eqb_eq in E as ->. by left.
  - right. split; [| reflexivity]. intros [= ->].
    assert (eqb (js "en") (js "en") = true) by by apply eqb_eq. congruence.
Qed.

Lemma resolve_registered route q :
  route ∈ expertiseRoutes ->
  resolve routeMeta route (page_lang q)
  = if is_str q (js "en") then en_entry route else he_entry route.
Proof.
  intros Hin. destruct (registered_entries route Hin) as (he & en & Hh & He & _).
  unfold resolve, page_lang.
  destruct (is_str q (js "en")).
  - fold (en_entry route). by rewrite He.
  - fold (he_entry route). by rewrite Hh.
Qed.

Lemma handler_for_registered routes path :
  is_Some (handler_for (map (fun route => (route, fun srv q => expertise srv route q)) routes)
                       path)
  <-> path ∈ routes.
Proof.
  induction routes as [| r routes IH]; simpl.
  - split; [by intros [? ?] | by intros ?%elem_of_nil].
  - destruct (eqb r path) eqn:E.
    + apply eqb_eq in E as ->. split; [intros _; by left | by eexists].
    + rewrite IH. split; [by right |].
      intros [-> | ?]%elem_of_cons; [| done].
      assert (eqb r r = true) by by apply eqb_eq. congruence.
Qed.

Lemma routeMeta_absent path : routeMeta !! path = None <-> path ∉ expertiseRoutes.
Proof.
  unfold routeMeta.
  match goal with |- list_to_map ?l !! _ = None <-> _ => set (table := l) end.
  assert (K : table.*1 = expertiseRoutes) by (vm_compute; reflexivity).
  pose proof (not_elem_of_list_to_map (M:=gmap jsstring) table path) as E.
  rewrite K in E. symmetry. exact E.
Qed.

(** C10. The registered routes are the five [/practice/<area>-lawyer]
    pages and [/privacy], [/terms], [/cookies], [/disclaimer],
    [/accessibility-statement]: ten distinct paths, [/disclaimer] among them;
    a page handler exists for a path exactly when it is one of them, and
    [routeMeta] has an entry for exactly these paths.  Each of them has an he
    and an en entry, so for every query value the entry of the selected
    language is found (the fallback to he is not taken) and the handler
    answers with a page (reading the metadata never throws). *)
Theorem ten_routes_with_both_languages :
  expertiseRoutes
  = map (fun area => js "/practice/" ++ area ++ js "-lawyer")
        [js "criminal"; js "traffic"; js "administrative"; js "employment";
         js "accessibility"]
    ++ [js "/privacy"; js "/terms"; js "/cookies"; js "/disclaimer";
        js "/accessibility-statement"]
  /\ length expertiseRoutes = 10%nat
  /\ NoDup expertiseRoutes
  /\ js "/disclaimer" ∈ expertiseRoutes
  /\ (forall path, is_Some (handler_for registered path) <-> path ∈ expertiseRoutes)
  /\ (forall path, is_Some (routeMeta !! path) <-> path ∈ expertiseRoutes)
  /\ Forall (fun route =>
       exists he en,
         routeMeta !! route ≫= (.!! js "he") = Some he
         /\ routeMeta !! route ≫= (.!! js "en") = Some en
         /\ (forall q, routeMeta !! route ≫= (.!! page_lang q)
                       = Some (if is_str q (js "en") then en else he))
         /\ (forall srv q, exists doc, expertise srv route q = page doc))
      expertiseRoutes.
Proof.
  assert (ND : NoDup expertiseRoutes).
  { apply (bool_decide_unpack _). vm_compute. exact I. }
  split; [vm_compute; reflexivity |].
  split; [reflexivity |].
  split; [exact ND |].
  split; [apply (bool_decide_unpack _); vm_compute; exact I |].
  split; [intros path; apply handler_for_registered |].
  split.
  - intros path. rewrite <- not_eq_None_Some, routeMeta_absent.
    split; [apply dec_stable | tauto].
  - apply Forall_forall. intros route Hin.
    destruct (registered_entries route Hin) as (he & en & Hh & He & _).
    exists he, en. split; [exact Hh |]. split; [exact He |]. split.
    + intros q. unfold page_lang. by destruct (is_str q (js "en")).
    + intros srv q. unfold expertise, render.
      rewrite (resolve_registered route q Hin).
      destruct (is_str q (js "en")); rewrite ?He, ?Hh; cbn [lift];
        rewrite bind_pure; by eexists.
Qed.





(** ** Runs of requests *)

Lemma step_consts w ev : consts (fst (step w ev)) = consts w.
Proof. unfold step. destruct (running w); [| done]. by destruct (handle _ _ _ _). Qed.

Lemma run_consts w evs : consts (run w evs) = consts w.
Proof.
  revert w. induction evs as [| ev evs IH]; intros w; [reflexivity |].
  simpl. by rewrite IH, step_consts.
Qed.

Lemma step_page w env relay route q :
  snd (step w (Event env relay (GetPage route q)))
  = if running w
    then (fun h => outcome_of (h (consts w) q)) <$> handler_for registered route
    else None.
Proof.
  unfold step, handle. cbn [req env_at relay_at]. destruct (running w); [| done].
  by destruct (handler_for registered route).
Qed.

(** A process that has stopped stays as it is. *)
Lemma step_stopped w ev : running w = false -> step w ev = (w, None).
Proof. intros R. unfold step. by rewrite R. Qed.

Lemma run_stopped w evs : running w = false -> run w evs = w.
Proof.
  revert w. induction evs as [| ev evs IH]; intros w R; [reflexivity |].
  cbn [run]. rewrite (step_stopped _ _ R). cbn [fst]. by apply IH.
Qed.

Lemma run_running w evs : running (run w evs) = true -> running w = true.
Proof.
  destruct (running w) eqn:R; [done |]. by rewrite (run_stopped _ _ R), R.
Qed.

(** ** Occurrences that survive the later injections *)

Lemma substitution_cons u r pre m post :
  u <> 36 -> substitution (u :: r) pre m post = u :: substitution r pre m post.
Proof.
  intros Hu. destruct u as [| p]; [reflexivity |].
  do 6 (destruct p as [p | p |]; try reflexivity). by destruct Hu.
Qed.

Lemma substitution_plain repl pre m post :
  dollar_free repl = true -> substitution repl pre m post = repl.
Proof.
  induction repl as [| u r IH]; [reflexivity |].
  cbn [dollar_free forallb]. intros [Hu Hr]%andb_true_iff.
  apply negb_true_iff, N.eqb_neq in Hu.
  rewrite (substitution_cons _ _ _ _ _ Hu). f_equal. by apply IH.
Qed.

Lemma replace_str_plain p repl s :
  dollar_free repl = true ->
  replace_str p repl s = s
  \/ exists pre post, s = pre ++ p ++ post /\ replace_str p repl s = pre ++ repl ++ post.
Proof.
  intros D. unfold replace_str.
  destruct (find_first p s) as [[pre post] |] eqn:F; [right | by left].
  exists pre, post. split; [by apply find_first_app |].
  by rewrite (substitution_plain _ _ _ _ D).
Qed.

(** Text inserted in front of a unit [c] of [s] leaves an occurrence of [t]
    whole when [c] stands nowhere in [t] but at its head. *)
Lemma occurs_insert_before t pre c post x :
  occurs t (pre ++ c :: post) -> c ∉ tail t -> occurs t (pre ++ x ++ c :: post).
Proof.
  intros (a & b & E) Hc.
  apply app_eq_inv in E as [(k & -> & E) | (k & -> & E)].
  - apply app_eq_inv in E as [(k' & -> & E) | (k' & -> & ->)].
    + destruct k' as [| c' k'].
      * exists a, (x ++ c :: post). same_text.
      * injection E as <- ->. destruct k as [| u k].
        -- exists (a ++ x), b. same_text.
        -- destruct Hc. simpl. apply elem_of_app. right. by left.
    + exists a, (k' ++ x ++ c :: post). same_text.
  - exists (pre ++ x ++ k), b. rewrite E. same_text.
Qed.

(** Text inserted behind a unit [c] of [s] leaves an occurrence of [t] whole
    when [c] stands nowhere in [t] but at its end. *)
Lemma occurs_insert_after t pre c post x :
  occurs t (pre ++ c :: post) -> c ∉ removelast t -> occurs t (pre ++ c :: x ++ post).
Proof.
  intros (a & b & E) Hc.
  apply app_eq_inv in E as [(k & -> & E) | (k & -> & E)].
  - apply app_eq_inv in E as [(k' & -> & E) | (k' & -> & ->)].
    + destruct k' as [| c' k'].
      * exists a, (c :: x ++ post). same_text.
      * injection E as <- ->. destruct k' as [| u k'].
        -- exists a, (x ++ b). same_text.
        -- destruct Hc. rewrite removelast_app by done.
           apply elem_of_app. right. simpl. by left.
    + exists a, (k' ++ c :: x ++ post). same_text.
  - destruct k as [| c' k].
    + simpl in E. destruct t as [| u t].
      * exists pre, (c :: x ++ post). same_text.
      * injection E as <- E. destruct t as [| u' t].
        -- exists pre, (x ++ b). same_text.
        -- destruct Hc. simpl. by left.
    + injection E as <- ->. exists (pre ++ c :: x ++ k), b. same_text.
Qed.

Lemma replace_str_keeps_behind p0 c y t s :
  dollar_free ((p0 ++ [c]) ++ y) = true -> c ∉ removelast t ->
  occurs t s -> occurs t (replace_str (p0 ++ [c]) ((p0 ++ [c]) ++ y) s).
Proof.
  intros D Hc O.
  destruct (replace_str_plain (p0 ++ [c]) _ s D) as [-> | (pre & post & -> & ->)]; [done |].
  rewrite <- !(assoc_L (++)). rewrite <- !(assoc_L (++)) in O.
  rewrite (assoc_L (++) pre p0). rewrite (assoc_L (++) pre p0) in O.
  by apply (occurs_insert_after t (pre ++ p0) c post y).
Qed.

Lemma replace_str_keeps_before c p1 x t s :
  dollar_free (x ++ c :: p1) = true -> c ∉ tail t ->
  occurs t s -> occurs t (replace_str (c :: p1) (x ++ c :: p1) s).
Proof.
  intros D Hc O.
  destruct (replace_str_plain (c :: p1) _ s D) as [-> | (pre & post & -> & ->)]; [done |].
  rewrite <- !(assoc_L (++)).
  by apply (occurs_insert_before t pre c (p1 ++ post) x).
Qed.

Lemma replace_found re repl s pre old post :
  exec re s = Some (pre, old, post) -> dollar_free repl = true ->
  Regex.replace re repl s = pre ++ repl ++ post.
Proof.
  intros E D. unfold Regex.replace. by rewrite E, (substitution_plain _ _ _ _ D).
Qed.

Lemma andb_six a b c d e f :
  a && b && c && d && e && f = true ->
  a = true /\ b = true /\ c = true /\ d = true /\ e = true /\ f = true.
Proof. by destruct a, b, c, d, e, f. Qed.

Lemma all_insertions_plain :
  forallb (fun route => insertions_plain route (js "he") && insertions_plain route (js "en"))
          expertiseRoutes = true.
Proof. vm_compute. reflexivity. Qed.

Lemma concat_snoc (parts : list jsstring) (p : jsstring) :
  concat (parts ++ [p]) = concat parts ++ p.
Proof. rewrite concat_app. simpl. by rewrite app_nil_r. Qed.

Lemma not_existsb_elem c (s : jsstring) : existsb (N.eqb c) s = false -> c ∉ s.
Proof.
  intros E Hin. apply list_elem_of_In in Hin.
  assert (existsb (N.eqb c) s = true); [| congruence].
  apply existsb_exists. exists c. split; [done | apply N.eqb_refl].
Qed.

Lemma inject_hreflang_keeps route t html :
  dollar_free (hreflangInsert route) = true -> GT ∉ removelast t ->
  occurs t html -> occurs t (inject_hreflang route html).
Proof.
  intros D Hc O. unfold inject_hreflang.
  change (js "<!-- Canonical & hreflang -->") with (js "<!-- Canonical & hreflang --" ++ [GT]).
  assert (E : hreflangInsert route
              = (js "<!-- Canonical & hreflang --" ++ [GT])
                  ++ concat [nl; js "    "; hreflangBlock route]) by reflexivity.
  rewrite E in D |- *. by apply replace_str_keeps_behind.
Qed.

Lemma inject_ogImage_keeps t html :
  LT ∉ tail t -> occurs t html -> occurs t (inject_ogImage html).
Proof.
  intros Hc O. unfold inject_ogImage. destruct (includes html (js "og:image")); [done |].
  change (js "<!-- Twitter Card -->") with (LT :: js "!-- Twitter Card -->").
  assert (E : ogImageBlock
              = concat [ js "<meta property=`og:image` content=`"; ogImage; js "`>"; nl;
                         js "    <meta property=`og:image:width` content=`1200`>"; nl;
                         js "    <meta property=`og:image:height` content=`630`>"; nl;
                         nl; js "    " ]
                ++ LT :: js "!-- Twitter Card -->") by (vm_compute; reflexivity).
  rewrite E. apply replace_str_keeps_before; [| done | done].
  rewrite <- E. vm_compute. reflexivity.
Qed.

Lemma inject_jsonLd_keeps route lang m canonical t html :
  dollar_free (jsonLdInsert lang m canonical) = true -> LT ∉ tail t ->
  occurs t html -> occurs t (inject_jsonLd route lang m canonical html).
Proof.
  intros D Hc O. unfold inject_jsonLd.
  destruct (startsWith route (js "/practice/")); [| done].
  change (js "</head>") with (LT :: js "/head>").
  assert (E : jsonLdInsert lang m canonical
              = concat [ js "    <script type=`application/ld+json`>";
                         jsonLd m canonical; js "</script>"; nl;
                         js "    <script type=`application/ld+json`>";
                         breadcrumb m lang canonical; js "</script>"; nl ]
                ++ LT :: js "/head>").
  { unfold jsonLdInsert. by rewrite <- concat_snoc. }
  rewrite E in D |- *. by apply replace_str_keeps_before.
Qed.

(** The document a registered page handler sends holds the canonical link
    element, whenever the template (after the six earlier replacements) has
    a canonical link element to replace. *)
Lemma canonical_link_in_page srv route q :
  route ∈ expertiseRoutes ->
  exists m,
    resolve routeMeta route (page_lang q) = Some m
    /\ (test canonical_re (inject_titles (expertiseTemplate srv) m) = true ->
        exists doc,
          expertise srv route q = page doc
          /\ occurs (canonical_tag (canonical_of route (page_lang q))) doc).
Proof.
  intros Hin.
  assert (P : insertions_plain route (page_lang q) = true).
  { apply list_elem_of_In in Hin.
    pose proof (proj1 (forallb_forall _ _) all_insertions_plain route Hin) as B.
    apply andb_true_iff in B as [Bh Be].
    by destruct (page_lang_cases q) as [[_ ->] | [_ ->]]. }
  unfold insertions_plain in P.
  destruct (resolve routeMeta route (page_lang q)) as [m |] eqn:R; [| done].
  exists m. split; [done |]. intros T.
  destruct (andb_six _ _ _ _ _ _ P) as (Dc & Dh & _ & Dj & HL & HG). clear P.
  apply negb_true_iff, not_existsb_elem in HL, HG.
  eexists. split.
  - unfold expertise, render. rewrite R. cbn [lift]. by rewrite bind_pure.
  - apply inject_jsonLd_keeps; [done | done |].
    apply inject_ogImage_keeps; [done |].
    apply inject_hreflang_keeps; [done | done |].
    unfold inject_meta, inject_canonical, test in *.
    destruct (exec canonical_re _) as [[[pre old] post] |] eqn:E; [| done].
    rewrite (replace_found _ _ _ _ _ _ E Dc). by exists pre, post.
Qed.

Lemma canonical_of_lang route q :
  canonical_of route (page_lang q)
  = if is_str q (js "en") then route ++ js "?lang=en" else route.
Proof. unfold canonical_of, page_lang. by destruct (is_str q (js "en")). Qed.

Lemma canonical_tag_text c :
  canonical_tag c = js "<link rel=`canonical` id=`canonical-link` href=`" ++ c ++ js "`>".
Proof. unfold canonical_tag. cbn [concat]. by rewrite app_nil_r. Qed.

(** * Further properties of the code *)

(** ** [esc] as a code *)

Lemma esc_app a b : esc (a ++ b) = esc a ++ esc b.
Proof. rewrite !esc_entities. apply flat_map_app. Qed.

Lemma entity_plain u :
  u <> AMP -> u <> LT -> u <> GT -> u <> QUOT -> entity u = [u].
Proof.
  intros Ha Hl Hg Hq. unfold entity.
  by rewrite (proj2 (N.eqb_neq _ _) Ha), (proj2 (N.eqb_neq _ _) Hl),
             (proj2 (N.eqb_neq _ _) Hg), (proj2 (N.eqb_neq _ _) Hq).
Qed.

Lemma entity_cases u :
  (u = AMP /\ entity u = js "&amp;") \/ (u = LT /\ entity u = js "&lt;")
  \/ (u = GT /\ entity u = js "&gt;") \/ (u = QUOT /\ entity u = js "&quot;")
  \/ (u <> AMP /\ u <> LT /\ u <> GT /\ u <> QUOT /\ entity u = [u]).
Proof.
  unfold entity.
  destruct (u =? AMP) eqn:Ea; [left; by apply N.eqb_eq in Ea |].
  destruct (u =? LT) eqn:El; [right; left; by apply N.eqb_eq in El |].
  destruct (u =? GT) eqn:Eg; [right; right; left; by apply N.eqb_eq in Eg |].
  destruct (u =? QUOT) eqn:Eq; [right; right; right; left; by apply N.eqb_eq in Eq |].
  apply N.eqb_neq in Ea, El, Eg, Eq. by repeat right.
Qed.

(** The entities form a prefix code: two of them at the head of equal
    texts are the same entity, of the same unit. *)
Lemma entity_prefix_code u v x y :
  entity u ++ x = entity v ++ y -> u = v /\ x = y.
Proof.
  destruct (entity_cases u) as [[-> ->] | [[-> ->] | [[-> ->] | [[-> ->] | (Ua & Ul & Ug & Uq & ->)]]]];
  destruct (entity_cases v) as [[-> ->] | [[-> ->] | [[-> ->] | [[-> ->] | (Va & Vl & Vg & Vq & ->)]]]];
  vm_compute js; cbn [app]; intros E; try discriminate;
  try (injection E as E; by subst);
  try (injection E as E; subst; done).
Qed.

Lemma esc_injective a b : esc a = esc b -> a = b.
Proof.
  revert b. induction a as [| u a IH]; intros [| v b].
  - done.
  - rewrite esc_cons. change (esc []) with (@nil N).
    destruct (entity_cases v) as [[_ ->] | [[_ ->] | [[_ ->] | [[_ ->] | (_ & _ & _ & _ & ->)]]]];
      discriminate.
  - rewrite esc_cons. change (esc []) with (@nil N).
    destruct (entity_cases u) as [[_ ->] | [[_ ->] | [[_ ->] | [[_ ->] | (_ & _ & _ & _ & ->)]]]];
      discriminate.
  - rewrite !esc_cons. intros [-> E]%entity_prefix_code. by rewrite (IH b E).
Qed.

Lemma esc_length s : (length s <= length (esc s))%nat.
Proof.
  induction s as [| u s IH]; [done |].
  rewrite esc_cons, length_app. simpl.
  assert (1 <= length (entity u))%nat; [| lia].
  destruct (entity_cases u) as [[_ ->] | [[_ ->] | [[_ ->] | [[_ ->] | (_ & _ & _ & _ & ->)]]]];
    vm_compute; lia.
Qed.

Lemma esc_plain s :
  Forall (fun u => u <> AMP /\ u <> LT /\ u <> GT /\ u <> QUOT) s -> esc s = s.
Proof.
  induction 1 as [| u s (Ha & Hl & Hg & Hq) _ IH]; [reflexivity |].
  by rewrite esc_cons, IH, entity_plain.
Qed.

Lemma br_not_entity v x y : v <> NL -> js "<br>" ++ x <> entity v ++ y.
Proof.
  intros Hn.
  destruct (entity_cases v) as [[-> ->] | [[-> ->] | [[-> ->] | [[-> ->] | (Va & Vl & Vg & Vq & ->)]]]];
    vm_compute js; cbn [app]; intros E; try discriminate.
  injection E as E _. by subst.
Qed.

Lemma entity_or_br_prefix_code u v x y :
  entity_or_br u ++ x = entity_or_br v ++ y -> u = v /\ x = y.
Proof.
  destruct (entity_or_br_cases u) as [[-> ->] | (Un & -> & _)];
  destruct (entity_or_br_cases v) as [[-> ->] | (Vn & -> & _)].
  - intros E. split; [done |]. by apply app_inv_head in E.
  - intros E. by apply br_not_entity in E.
  - intros E. symmetry in E. by apply br_not_entity in E.
  - apply entity_prefix_code.
Qed.

Lemma entity_or_br_filled u : entity_or_br u <> [].
Proof.
  destruct (entity_or_br_cases u) as [[_ ->] | (_ & -> & _)]; [done |].
  destruct (entity_cases u) as [[_ ->] | [[_ ->] | [[_ ->] | [[_ ->] | (_ & _ & _ & _ & ->)]]]];
    done.
Qed.

Lemma message_injective a b :
  replace_all NL (js "<br>") (esc a) = replace_all NL (js "<br>") (esc b) -> a = b.
Proof.
  rewrite !esc_br_entities. revert b. induction a as [| u a IH]; intros [| v b]; cbn [flat_map].
  - done.
  - intros E. symmetry in E. apply app_eq_nil in E as [E _]. by apply entity_or_br_filled in E.
  - intros E. apply app_eq_nil in E as [E _]. by apply entity_or_br_filled in E.
  - intros [-> E]%entity_or_br_prefix_code. by rewrite (IH b E).
Qed.

(** X6. [esc] works unit by unit: it distributes over concatenation, it
    leaves a text without ampersand, angle bracket and double quote as it is,
    it never shortens a text, and it loses nothing: two texts with the same
    escape are the same text, also after the newlines of the message have
    become line breaks.  It is not idempotent: escaping an escaped ampersand
    escapes it again. *)
Theorem esc_is_a_code :
  (forall a b, esc (a ++ b) = esc a ++ esc b)
  /\ (forall s, Forall (fun u => u <> AMP /\ u <> LT /\ u <> GT /\ u <> QUOT) s -> esc s = s)
  /\ (forall s, (length s <= length (esc s))%nat)
  /\ (forall a b, esc a = esc b -> a = b)
  /\ (forall a b, replace_all NL (js "<br>") (esc a) = replace_all NL (js "<br>") (esc b) ->
                  a = b)
  /\ (forall s, AMP ∈ s -> esc (esc s) <> esc s).
Proof.
  split; [exact esc_app |]. split; [exact esc_plain |].
  split; [exact esc_length |]. split; [exact esc_injective |].
  split; [exact message_injective |].
  intros s Hin E. apply esc_injective in E.
  apply list_elem_of_split in Hin as (a & b & ->).
  rewrite esc_app, esc_cons in E. apply (f_equal length) in E.
  rewrite !length_app in E. cbn [length] in E.
  pose proof (esc_length a). pose proof (esc_length b).
  change (length (entity AMP)) with 5%nat in E. lia.
Qed.

(** ** What validation guarantees *)

Lemma length_loop_passed body entries :
  control (length_loop body entries) = Next tt ->
  Forall (fun e => over body e = false) entries.
Proof.
  induction entries as [| [field max] r IH]; [constructor |].
  cbn [length_loop]. unfold member.
  destruct (nullish body); [done |]. rewrite bind_pure.
  destruct (truthy (get body field)) eqn:T.
  - destruct (to_string (get body field)) as [s |] eqn:S; [| done].
    cbn [lift]. rewrite !bind_pure.
    destruct (max <? N.of_nat (length s)) eqn:L; [done |].
    intros P. constructor; [| by apply IH].
    unfold over. cbn [fst snd]. by rewrite T, S, L.
  - rewrite bind_pure. intros P. constructor; [| by apply IH].
    unfold over. cbn [fst snd]. by rewrite T.
Qed.

Lemma validated_stages body :
  validated body ->
  control (required_stage (get body (js "name")) (get body (js "phone"))
                          (get body (js "caseType"))) = Next tt
  /\ control (length_stage body) = Next tt
  /\ control (phone_stage (get body (js "phone"))) = Next tt
  /\ control (email_stage (get body (js "email"))) = Next tt.
Proof.
  intros V. pose proof (validated_truthy body V) as T.
  unfold validated, validate, fields_of in V. rewrite T in V.
  apply bind_next_inv in V as ([] & R & V).
  apply bind_next_inv in V as ([] & L & V).
  apply bind_next_inv in V as ([] & P & E).
  done.
Qed.

(** X7. A body that passes validation respects every limit: the [String]
    text of name is at most 200 code units long, of phone 30, of caseType
    100, of email 254 and of message 5000, whenever the member has such a
    text (an absent member counts with the text undefined). *)
Theorem validated_within_limits body field max s :
  validated body ->
  (field, max) ∈ limits ->
  to_string (get body field) = Some s ->
  N.of_nat (length s) <= max.
Proof.
  intros V Hin S.
  destruct (validated_stages body V) as (_ & L & _).
  apply length_loop_passed in L.
  pose proof (proj1 (Forall_forall _ _) L _ Hin) as O. cbv beta in O.
  rewrite (over_exceeds body _ Hin) in O.
  unfold exceeds in O. cbn [fst snd] in O. rewrite S in O.
  by apply N.ltb_ge.
Qed.

Lemma validated_within_limits_witness :
  N.of_nat (length (js "Hello" ++ nl ++ js "World")) <= 5000.
Proof.
  exact (validated_within_limits dana (js "message") 5000 (js "Hello" ++ nl ++ js "World")
           eq_refl ltac:(do 4 right; left) eq_refl).
Defined.

(** ** The regular expression engine against what its atoms say *)

Lemma match_here_star c rest to_end s :
  match_here (Star c :: rest) to_end s =
  match s with
  | u :: s' =>
      if c u then
        match match_here (Star c :: rest) to_end s' with
        | Some (m, post) => Some (u :: m, post)
        | None => match_here rest to_end s
        end
      else match_here rest to_end s
  | [] => match_here rest to_end []
  end.
Proof. by destruct s. Qed.

Lemma match_here_sound ats to_end s m post :
  match_here ats to_end s = Some (m, post) ->
  s = m ++ post /\ matches ats m /\ (to_end = true -> post = []).
Proof.
  revert s m post. induction ats as [| a ats IH]; intros s m post.
  - cbn [match_here matches]. destruct to_end, s; try discriminate; by intros [= <- <-].
  - destruct a as [t | c | c].
    + cbn [match_here matches].
      destruct (strip_prefix t s) as [s' |] eqn:P; [| discriminate].
      apply strip_prefix_app in P as ->.
      destruct (match_here ats to_end s') as [[m' post'] |] eqn:E; [| discriminate].
      intros [= <- <-]. destruct (IH _ _ _ E) as (-> & M & T).
      split; [by rewrite (assoc_L (++)) |]. split; [by exists m' | exact T].
    + cbn [match_here matches]. destruct s as [| u s']; [discriminate |].
      destruct (c u) eqn:C; [| discriminate].
      destruct (match_here ats to_end s') as [[m' post'] |] eqn:E; [| discriminate].
      intros [= <- <-]. destruct (IH _ _ _ E) as (-> & M & T).
      split; [done |]. split; [by exists u, m' | exact T].
    + revert m post. induction s as [| u s' IHs]; intros m post; rewrite match_here_star.
      * intros E. destruct (IH _ _ _ E) as (-> & M & T).
        split; [done |]. split; [| exact T]. cbn [matches]. by exists [], m.
      * destruct (c u) eqn:C.
        -- destruct (match_here (Star c :: ats) to_end s') as [[m' post'] |] eqn:E.
           ++ intros [= <- <-]. destruct (IHs _ _ eq_refl) as (-> & M & T).
              split; [done |]. split; [| exact T].
              cbn [matches] in *. destruct M as (k & m'' & -> & K & M).
              exists (u :: k), m''. cbn [forallb]. by rewrite C, K.
           ++ intros E'. destruct (IH _ _ _ E') as (-> & M & T).
              split; [done |]. split; [| exact T]. cbn [matches]. by exists [], m.
        -- intros E'. destruct (IH _ _ _ E') as (-> & M & T).
           split; [done |]. split; [| exact T]. cbn [matches]. by exists [], m.
Qed.

Lemma strip_prefix_found t r : strip_prefix t (t ++ r) = Some r.
Proof. induction t as [| a t IH]; [done |]. simpl. by rewrite N.eqb_refl. Qed.

(** Backtracking misses nothing: when some split of the text fits the
    atoms, the engine finds a match. *)
Lemma match_here_complete ats to_end m post :
  matches ats m -> (to_end = true -> post = []) ->
  is_Some (match_here ats to_end (m ++ post)).
Proof.
  revert m. induction ats as [| a ats IH]; intros m M T.
  - cbn [matches] in M. subst m. cbn [match_here app].
    destruct to_end; [rewrite T by done |]; by destruct post.
  - destruct a as [t | c | c]; cbn [matches] in M.
    + destruct M as (m' & -> & M). cbn [match_here].
      rewrite <- (assoc_L (++)), strip_prefix_found.
      destruct (IH m' M T) as [[m1 p1] ->]. by eexists.
    + destruct M as (u & m' & -> & C & M). cbn [match_here app]. rewrite C.
      destruct (IH m' M T) as [[m1 p1] ->]. by eexists.
    + destruct M as (k & m' & -> & K & M). rewrite <- (assoc_L (++)).
      induction k as [| u k IHk].
      * cbn [app]. rewrite match_here_star.
        destruct (IH m' M T) as [[m1 p1] E].
        destruct (m' ++ post) as [| v s'] eqn:S; [by rewrite E |].
        destruct (c v); [| by rewrite E].
        destruct (match_here (Star c :: ats) to_end s') as [[m2 p2] |]; [by eexists |].
        by rewrite E.
      * cbn [forallb] in K. apply andb_true_iff in K as [C K].
        cbn [app]. rewrite match_here_star, C.
        destruct (IHk K) as [[m2 p2] ->]. by eexists.
Qed.

(** For a pattern anchored at both ends, [test] says exactly whether the
    whole text fits the atoms. *)
Lemma test_anchored ats s : test (Re true ats true) s = true <-> matches ats s.
Proof.
  unfold test, exec. cbn [anchored_start anchored_end atoms]. split.
  - destruct (match_here ats true s) as [[m post] |] eqn:E; [| discriminate].
    intros _. destruct (match_here_sound _ _ _ _ _ E) as (-> & M & T).
    by rewrite (T eq_refl), app_nil_r.
  - intros M. destruct (match_here_complete ats true s [] M) as [[m post] E]; [done |].
    rewrite app_nil_r in E. by rewrite E.
Qed.

Lemma matches_class_plus c (m : jsstring) :
  (exists u m', m = u :: m' /\ c u = true
     /\ exists k m'', m' = k ++ m'' /\ forallb c k = true /\ m'' = [])
  <-> m <> [] /\ forallb c m = true.
Proof.
  split.
  - intros (u & m' & -> & C & k & m'' & -> & K & ->).
    split; [done |]. cbn [forallb]. by rewrite C, app_nil_r, K.
  - intros [N F]. destruct m as [| u m]; [done |].
    cbn [forallb] in F. apply andb_true_iff in F as [C K].
    exists u, m. repeat split; [done |]. exists m, []. by rewrite app_nil_r.
Qed.

Lemma email_re_shape s : test email_re s = true <-> email_shape s.
Proof.
  unfold email_re. rewrite test_anchored. cbn [matches]. unfold email_shape. split.
  - intros (u1 & m1 & -> & C1 & k1 & m2 & -> & K1 & m3 & -> &
            u2 & m4 & -> & C2 & k2 & m5 & -> & K2 & m6 & -> &
            u3 & m7 & -> & C3 & k3 & m8 & -> & K3 & ->).
    exists (u1 :: k1), (u2 :: k2), (u3 :: k3).
    split; [by rewrite app_nil_r |].
    repeat split; try done.
    rewrite !forallb_app. cbn [forallb]. by rewrite C1, K1, C2, K2, C3, K3.
  - intros (a & b & c & -> & Na & Nb & Nc & F).
    rewrite !forallb_app in F.
    apply andb_true_iff in F as [Fa F]. apply andb_true_iff in F as [Fb Fc].
    destruct a as [| u1 k1]; [done |]. destruct b as [| u2 k2]; [done |].
    destruct c as [| u3 k3]; [done |].
    cbn [forallb] in Fa, Fb, Fc.
    apply andb_true_iff in Fa as [C1 K1]. apply andb_true_iff in Fb as [C2 K2].
    apply andb_true_iff in Fc as [C3 K3].
    exists u1, (k1 ++ js "@" ++ (u2 :: k2) ++ js "." ++ u3 :: k3).
    split; [done |]. split; [done |].
    exists k1, (js "@" ++ (u2 :: k2) ++ js "." ++ u3 :: k3).
    split; [done |]. split; [done |].
    exists ((u2 :: k2) ++ js "." ++ u3 :: k3). split; [done |].
    exists u2, (k2 ++ js "." ++ u3 :: k3). split; [done |]. split; [done |].
    exists k2, (js "." ++ u3 :: k3). split; [done |]. split; [done |].
    exists (u3 :: k3). split; [done |].
    exists u3, k3. split; [done |]. split; [done |].
    exists k3, []. by rewrite app_nil_r.
Qed.

(** X8. The email stage lets a string through exactly when it is empty
    (the member counts as not given) or, once trimmed, has the shape
    [local@domain.tld]: three non-empty parts free of whitespace and at
    signs, the first followed by an at sign and the second by a dot.  A
    string of blanks only is therefore rejected, not taken as absent. *)
Theorem email_stage_accepts e :
  control (email_stage (JStr e)) = Next tt <-> e = [] \/ email_shape (trim e).
Proof.
  unfold email_stage. cbn [truthy].
  destruct (eqb e []) eqn:E; cbn [negb].
  - apply eqb_eq in E. split; [by left | done].
  - rewrite call_trim_text, bind_step_next.
    assert (N : e <> []) by (intros ->; by rewrite (proj2 (eqb_eq [] []) eq_refl) in E).
    rewrite <- email_re_shape. destruct (test email_re (trim e)); split; try done.
    + by right.
    + by intros [? | ?].
Qed.

(** ** An accepted submission *)

(** For a plain body that passed validation no [trim] call throws. *)
Lemma plain_validated_textual body :
  plain_body (fields_of body) = true -> validated body ->
  textual (get body (js "name")) (get body (js "phone")) (get body (js "caseType"))
          (get body (js "email")) (get body (js "message")) = true.
Proof.
  intros P V. pose proof (validated_truthy body V) as T.
  destruct (validated_stages body V) as (Rq & _).
  unfold plain_body, fields_of in P. rewrite T in P. cbn [forallb] in P.
  destruct (andb_prop _ _ P) as [Pn P1]. destruct (andb_prop _ _ P1) as [Pp P2].
  destruct (andb_prop _ _ P2) as [Pc P3]. destruct (andb_prop _ _ P3) as [Pe P4].
  destruct (andb_prop _ _ P4) as [Pm _]. clear P P1 P2 P3 P4.
  assert (Rq' : control (required_stage (get (fields_of body) (js "name"))
                           (get (fields_of body) (js "phone"))
                           (get (fields_of body) (js "caseType"))) = Next tt).
  { unfold fields_of. by rewrite T. }
  apply required_stage_passed in Rq'. unfold required_of, fields_of in Rq'. rewrite T in Rq'.
  apply Forall_cons in Rq' as [[Nn _] Rq']. apply Forall_cons in Rq' as [[Np _] Rq'].
  apply Forall_cons in Rq' as [[Nc _] _]. cbn [snd] in Nn, Np, Nc.
  unfold textual. rewrite !plain_member_text by done. cbn [andb].
  apply andb_true_intro. split.
  - destruct (get body (js "email")); try done. apply orb_true_r.
  - by destruct (get body (js "message")).
Qed.

(** X5. An accepted submission.  For a body whose members are absent, null
    or strings, with a transporter configured: when the body passes
    validation, the handler sends exactly one mail and nothing before it;
    the mail goes to pardooren@gmail.com from the account named in the
    environment of the request (the account the transporter logs in with,
    when the environment is as it was at the start); the reply is 200 [{ok: true}] when the relay
    takes the mail, and otherwise 500 with the fixed sentence, the relay's
    message going to the console only.  When the body does not pass, nothing
    is sent. *)
Theorem accepted_submission_mailed srv env relay body :
  plain_body (fields_of body) = true ->
  is_Some (transporter srv) ->
  let m := composed env (get body (js "name")) (get body (js "phone"))
             (get body (js "caseType")) (get body (js "email"))
             (get body (js "message")) (get body (js "lang")) in
  to m = js "pardooren@gmail.com"
  /\ from m = js "`Alon Pardo Website` <" ++ env_or (SMTP_USER env) (js "pardooren@gmail.com")
              ++ js ">"
  /\ (forall t, transporter_of env = Some t ->
                from m = js "`Alon Pardo Website` <" ++ auth_user t ++ js ">")
  /\ (validated body ->
        mails (effects (contact srv env relay body)) = [m]
        /\ match relay m with
           | Delivered =>
               contact srv env relay body
               = Step [SendMail m] (Return (Response 200 None (Reply true None None)))
           | Failed message =>
               contact srv env relay body
               = Step [SendMail m; ConsoleError (js "Email send error:") message]
                   (Return (Response 500 None
                      (Reply false (Some (js "Failed to send email")) None)))
           end)
  /\ (~ validated body -> effects (contact srv env relay body) = []).
Proof.
  intros P [t Ht] m. split; [reflexivity |]. split; [reflexivity |]. split.
  { intros t'. unfold transporter_of. destruct (SMTP_PASS env) as [[| u r] |]; try done.
    by intros [= <-]. }
  split.
  - intros V. rewrite (contact_validated _ _ _ _ V).
    rewrite (dispatch_configured _ _ _ _ _ _ _ _ _ t Ht).
    rewrite (plain_validated_textual body P V). fold m.
    unfold after_send. by destruct (relay m).
  - intros V. by rewrite (contact_rejected _ _ _ _ V).
Qed.

Lemma accepted_submission_mailed_witness :
  let srv := startup with_password bare_page bare_page in
  let m := composed with_password (get dana (js "name")) (get dana (js "phone"))
             (get dana (js "caseType")) (get dana (js "email"))
             (get dana (js "message")) (get dana (js "lang")) in
  to m = js "pardooren@gmail.com"
  /\ from m = js "`Alon Pardo Website` <"
              ++ env_or (SMTP_USER with_password) (js "pardooren@gmail.com") ++ js ">"
  /\ (forall t, transporter_of with_password = Some t ->
                from m = js "`Alon Pardo Website` <" ++ auth_user t ++ js ">")
  /\ (validated dana ->
        mails (effects (contact srv with_password fails dana)) = [m]
        /\ match fails m with
           | Delivered =>
               contact srv with_password fails dana
               = Step [SendMail m] (Return (Response 200 None (Reply true None None)))
           | Failed message =>
               contact srv with_password fails dana
               = Step [SendMail m; ConsoleError (js "Email send error:") message]
                   (Return (Response 500 None
                      (Reply false (Some (js "Failed to send email")) None)))
           end)
  /\ (~ validated dana -> effects (contact srv with_password fails dana) = []).
Proof.
  exact (accepted_submission_mailed (startup with_password bare_page bare_page)
           with_password fails dana eq_refl (ex_intro _ _ eq_refl)).
Defined.

(** ** The replies of validation *)

Lemma filter_missing_sub entries r :
  control (filter_missing entries) = Next r -> r ⊆ entries.
Proof.
  revert r. induction entries as [| [k v] rest IH]; intros r.
  - cbn [filter_missing]. intros [= <-]. done.
  - cbn [filter_missing].
    destruct (control (is_missing v)) as [b | x | x] eqn:B.
    2:{ by rewrite (bind_return _ _ _ B). }
    2:{ by rewrite (bind_raise _ _ _ B). }
    rewrite (bind_next _ _ _ B). cbn [control].
    destruct (control (filter_missing rest)) as [r' | x | x] eqn:F.
    2:{ by rewrite (bind_return _ _ _ F). }
    2:{ by rewrite (bind_raise _ _ _ F). }
    rewrite (bind_next _ _ _ F). cbn [control]. intros [= <-].
    specialize (IH r' eq_refl). destruct b.
    + intros x [-> | Hx]%elem_of_cons; [left | right; by apply IH].
    + intros x Hx. right. by apply IH.
Qed.

Lemma required_stage_reply name phone caseType r :
  control (required_stage name phone caseType) = Return r ->
  exists missing,
    r = missing_reply missing /\ missing <> []
    /\ missing ⊆ [js "name"; js "phone"; js "caseType"].
Proof.
  unfold required_stage.
  set (required := [(js "name", name); (js "phone", phone); (js "caseType", caseType)]).
  destruct (control (filter_missing required)) as [es | x | x] eqn:F.
  2:{ pose proof (filter_missing_no_return required x) as N. by rewrite F in N. }
  2:{ rewrite (bind_raise _ _ _ (f_equal control (bind_raise _ _ _ F))). done. }
  assert (M : control (entries ← filter_missing required; mret (map fst entries))
              = Next (map fst es)).
  { by rewrite (bind_next _ _ _ F). }
  rewrite (bind_next _ _ _ M). cbn [control].
  case_bool_decide as E; [done |]. intros [= <-].
  exists (map fst es). split; [reflexivity |]. split; [exact E |].
  apply filter_missing_sub in F.
  intros k (e & -> & Hin)%list_elem_of_fmap. apply F in Hin.
  unfold required in Hin.
  repeat (apply elem_of_cons in Hin as [-> | Hin]); cbn [fst];
    [left | right; left | do 2 right; left | by apply elem_of_nil in Hin].
Qed.

Lemma length_loop_reply body entries r :
  control (length_loop body entries) = Return r ->
  exists field max, (field, max) ∈ entries /\ r = too_long_reply field max.
Proof.
  induction entries as [| [field max] rest IH]; [done |].
  cbn [length_loop]. unfold member.
  destruct (nullish body); [done |]. rewrite bind_pure.
  destruct (truthy (get body field)).
  - destruct (to_string (get body field)) as [s |]; [| done].
    cbn [lift]. rewrite !bind_pure.
    destruct (max <? N.of_nat (length s)).
    + intros [= <-]. exists field, max. split; [left | reflexivity].
    + intros R. destruct (IH R) as (f & x & Hin & ->). exists f, x. split; [by right | done].
  - rewrite bind_pure. intros R. destruct (IH R) as (f & x & Hin & ->).
    exists f, x. split; [by right | done].
Qed.

(** X9. Every reply of the validation is a 400 of one of four kinds:
    the missing members (a non-empty list out of name, phone, caseType), a
    member over its limit (one of the five of the table, named in the
    sentence, with no list), the phone format, or the email format; and
    the three later kinds are given only to a body none of whose required
    members is missing. *)
Theorem validation_replies body r :
  control (validate body) = Return r ->
  (exists missing, r = missing_reply missing /\ missing <> []
                   /\ missing ⊆ [js "name"; js "phone"; js "caseType"])
  \/ (control (required_stage (get (fields_of body) (js "name"))
                 (get (fields_of body) (js "phone"))
                 (get (fields_of body) (js "caseType"))) = Next tt
      /\ ((exists field max, (field, max) ∈ limits /\ r = too_long_reply field max)
          \/ r = Response 400 None (Reply false (Some (js "Invalid phone format")) None)
          \/ r = Response 400 None (Reply false (Some (js "Invalid email format")) None))).
Proof.
  unfold validate.
  destruct (control (required_stage _ _ _)) as [[] | x | x] eqn:Rq.
  2:{ rewrite (bind_return _ _ _ Rq). cbn [control]. intros [= <-].
      left. by apply required_stage_reply in Rq. }
  2:{ by rewrite (bind_raise _ _ _ Rq). }
  rewrite (bind_next _ _ _ Rq). cbn [control]. intros R. right. split; [reflexivity |].
  destruct (control (length_stage body)) as [[] | x | x] eqn:L.
  2:{ rewrite (bind_return _ _ _ L) in R. cbn [control] in R. injection R as <-.
      left. by apply length_loop_reply in L. }
  2:{ by rewrite (bind_raise _ _ _ L) in R. }
  rewrite (bind_next _ _ _ L) in R. cbn [control] in R. right.
  destruct (control (phone_stage (get (fields_of body) (js "phone")))) as [[] | x | x] eqn:Ph.
  2:{ rewrite (bind_return _ _ _ Ph) in R. cbn [control] in R. injection R as <-.
      left. unfold phone_stage in Ph.
      destruct (to_string _) as [s |]; [| done]. cbn [lift] in Ph. rewrite bind_pure in Ph.
      destruct (test phone_re s); [done |]. by injection Ph as <-. }
  2:{ by rewrite (bind_raise _ _ _ Ph) in R. }
  rewrite (bind_next _ _ _ Ph) in R. cbn [control] in R. right.
  unfold email_stage in R.
  destruct (truthy _); [| done].
  destruct (get (fields_of body) (js "email")); try done.
  rewrite call_trim_text, bind_step_next in R.
  destruct (test email_re _); [done |]. by injection R as <-.
Qed.

Lemma validation_replies_witness :
  (exists missing, missing_reply [js "name"] = missing_reply missing /\ missing <> []
                   /\ missing ⊆ [js "name"; js "phone"; js "caseType"])
  \/ (control (required_stage (get (fields_of no_name) (js "name"))
                 (get (fields_of no_name) (js "phone"))
                 (get (fields_of no_name) (js "caseType"))) = Next tt
      /\ ((exists field max, (field, max) ∈ limits
                             /\ missing_reply [js "name"] = too_long_reply field max)
          \/ missing_reply [js "name"]
             = Response 400 None (Reply false (Some (js "Invalid phone format")) None)
          \/ missing_reply [js "name"]
             = Response 400 None (Reply false (Some (js "Invalid email format")) None))).
Proof. exact (validation_replies no_name (missing_reply [js "name"]) eq_refl). Defined.

(** ** The og:image injection and the landing page *)

Lemma find_first_eq p s :
  find_first p s =
  match strip_prefix p s with
  | Some post => Some ([], post)
  | None =>
      match s with
      | [] => None
      | u :: r =>
          match find_first p r with
          | Some (pre, post) => Some (u :: pre, post)
          | None => None
          end
      end
  end.
Proof. by destruct s. Qed.

Lemma find_first_complete p s : occurs p s -> is_Some (find_first p s).
Proof.
  intros (a & b & ->). induction a as [| u a IH]; rewrite find_first_eq.
  - cbn [app]. by rewrite strip_prefix_found.
  - destruct (strip_prefix p _); [done |]. cbn [app].
    destruct IH as [[pre post] ->]. done.
Qed.

(** [replace] with a string pattern works on the first occurrence: no
    occurrence starts further left. *)
Lemma find_first_leftmost p s pre post a b :
  find_first p s = Some (pre, post) -> s = a ++ p ++ b -> (length pre <= length a)%nat.
Proof.
  revert s pre post. induction a as [| u a IH]; intros s pre post F ->;
    rewrite find_first_eq in F.
  - cbn [app] in F. rewrite strip_prefix_found in F. by injection F as <- _.
  - destruct (strip_prefix p _); [injection F as <- _; cbn; lia |].
    cbn [app] in F. destruct (find_first p (a ++ p ++ b)) as [[pre' post'] |] eqn:E; [| done].
    injection F as <- _. specialize (IH _ _ _ E eq_refl). cbn [length]. lia.
Qed.

Lemma includes_occurs s t : includes s t = true <-> occurs t s.
Proof.
  split; [apply occurs_found |].
  intros [[pre post] E]%find_first_complete. unfold includes. by rewrite E.
Qed.

Lemma ogImageBlock_plain : dollar_free ogImageBlock = true.
Proof. vm_compute. reflexivity. Qed.

Lemma ogImageBlock_tagged : includes ogImageBlock (js "og:image") = true.
Proof. vm_compute. reflexivity. Qed.

Lemma ogImageBlock_anchor :
  exists tags, ogImageBlock = tags ++ js "<!-- Twitter Card -->"
               /\ occurs (js "<meta property=`og:image` content=`" ++ ogImage ++ js "`>") tags.
Proof.
  exists (concat
    [ js "<meta property=`og:image` content=`"; ogImage; js "`>"; nl;
      js "    <meta property=`og:image:width` content=`1200`>"; nl;
      js "    <meta property=`og:image:height` content=`630`>"; nl; nl; js "    " ]).
  split; [vm_compute; reflexivity |].
  apply occurs_found. vm_compute. reflexivity.
Qed.

Lemma occurs_inside t a x b : occurs t x -> occurs t (a ++ x ++ b).
Proof.
  intros (c & d & ->). exists (a ++ c), (d ++ b). by rewrite <- !(assoc_L (++)).
Qed.

(** What the injection does to a page, by cases. *)
Lemma inject_ogImage_cases html :
  (inject_ogImage html = html
   /\ (occurs (js "og:image") html \/ ~ occurs (js "<!-- Twitter Card -->") html))
  \/ (~ occurs (js "og:image") html
      /\ exists pre post,
           html = pre ++ js "<!-- Twitter Card -->" ++ post
           /\ inject_ogImage html = pre ++ ogImageBlock ++ post
           /\ forall a b, html = a ++ js "<!-- Twitter Card -->" ++ b ->
                          (length pre <= length a)%nat).
Proof.
  unfold inject_ogImage. destruct (includes html (js "og:image")) eqn:I.
  - left. split; [reflexivity |]. left. by apply includes_occurs.
  - assert (N : ~ occurs (js "og:image") html).
    { intros O%includes_occurs. congruence. }
    unfold replace_str.
    destruct (find_first (js "<!-- Twitter Card -->") html) as [[pre post] |] eqn:F.
    + right. split; [exact N |]. exists pre, post.
      split; [by apply find_first_app |].
      split; [by rewrite (substitution_plain _ _ _ _ ogImageBlock_plain) |].
      intros a b E. exact (find_first_leftmost _ _ _ _ _ _ F E).
    + left. split; [reflexivity |]. right.
      intros [x E]%find_first_complete. congruence.
Qed.

Lemma inject_ogImage_again html : inject_ogImage (inject_ogImage html) = inject_ogImage html.
Proof.
  destruct (inject_ogImage_cases html) as [[E _] | (_ & pre & post & _ & E & _)].
  - by rewrite E.
  - rewrite E. unfold inject_ogImage at 1.
    assert (I : includes (pre ++ ogImageBlock ++ post) (js "og:image") = true).
    { apply includes_occurs, occurs_inside, includes_occurs, ogImageBlock_tagged. }
    by rewrite I.
Qed.

Lemma ogImageBlock_text :
  ogImageBlock
  = js "<meta property=`og:image` content=`" ++ ogImage ++ js "`>" ++ nl
    ++ js "    <meta property=`og:image:width` content=`1200`>" ++ nl
    ++ js "    <meta property=`og:image:height` content=`630`>" ++ nl ++ nl
    ++ js "    <!-- Twitter Card -->".
Proof. unfold ogImageBlock. cbn [concat]. by rewrite app_nil_r. Qed.

(** X10. The landing page.  [GET /] always answers 200 with an HTML page
    and [Cache-Control: no-cache], and performs no effect.  The page is the
    template itself when the template mentions og:image already or has no
    Twitter-Card comment; otherwise it is the template with its first
    Twitter-Card comment replaced by the three og:image tags (the image, its
    width 1200 and its height 630), a blank line and the comment again:
    nothing else is inserted and everything else is unchanged.  Serving the
    page that was served changes nothing: the tags are never inserted
    twice. *)
Theorem root_page srv :
  exists doc,
    root srv = Step [] (Return (Response 200 (Some (js "no-cache")) (Html doc)))
    /\ inject_ogImage doc = doc
    /\ ((doc = indexTemplate srv
         /\ (occurs (js "og:image") (indexTemplate srv)
             \/ ~ occurs (js "<!-- Twitter Card -->") (indexTemplate srv)))
        \/ (~ occurs (js "og:image") (indexTemplate srv)
            /\ exists pre post,
                 indexTemplate srv = pre ++ js "<!-- Twitter Card -->" ++ post
                 /\ doc = pre
                          ++ js "<meta property=`og:image` content=`" ++ ogImage ++ js "`>" ++ nl
                          ++ js "    <meta property=`og:image:width` content=`1200`>" ++ nl
                          ++ js "    <meta property=`og:image:height` content=`630`>" ++ nl
                          ++ nl
                          ++ js "    <!-- Twitter Card -->" ++ post
                 /\ forall a b, indexTemplate srv = a ++ js "<!-- Twitter Card -->" ++ b ->
                                (length pre <= length a)%nat)).
Proof.
  exists (inject_ogImage (indexTemplate srv)).
  split; [reflexivity |]. split; [apply inject_ogImage_again |].
  destruct (inject_ogImage_cases (indexTemplate srv))
    as [[E C] | (N & pre & post & E & R & L)].
  - left. by split.
  - right. split; [exact N |].
    exists pre, post. split; [exact E |]. split; [| exact L].
    by rewrite R, ogImageBlock_text, <- !(assoc_L (++)).
Qed.

(** ** Inserting in front of an anchor *)

Lemma startsWith_app s r : startsWith (s ++ r) s = true.
Proof. unfold startsWith. by rewrite strip_prefix_found. Qed.

Lemma prefix_compatible_app k b p post :
  k ++ b = p ++ post -> prefix_compatible k p = true.
Proof.
  intros [(z & -> & _) | (z & -> & _)]%app_eq_inv; unfold prefix_compatible.
  - by rewrite startsWith_app.
  - rewrite startsWith_app. apply orb_true_r.
Qed.

(** Text put in front of an occurrence of [p] breaks no occurrence of [t],
    unless [p] starts inside [t]. *)
Lemma occurs_insert_at t pre p post x :
  starts_inside p t = false ->
  occurs t (pre ++ p ++ post) -> occurs t (pre ++ x ++ p ++ post).
Proof.
  intros S (a & b & E).
  apply app_eq_inv in E as [(k & -> & E) | (k & -> & E)].
  - symmetry in E. apply app_eq_inv in E as [(k' & -> & E) | (k' & -> & E)].
    + exists a, (k' ++ x ++ p ++ post). by rewrite <- !(assoc_L (++)).
    + destruct k as [| u k].
      { exists (a ++ x), b. by rewrite app_nil_r, <- !(assoc_L (++)), E. }
      destruct k' as [| v k'].
      { rewrite app_nil_r in *. exists a, (x ++ p ++ post). by rewrite <- !(assoc_L (++)). }
      exfalso. apply not_true_iff_false in S. apply S.
      unfold starts_inside. apply existsb_exists. exists (length (u :: k)). split.
      * apply in_seq. rewrite length_app. cbn [length]. lia.
      * rewrite drop_app_length. symmetry in E. exact (prefix_compatible_app _ _ _ _ E).
  - exists (pre ++ x ++ k), b. by rewrite E, <- !(assoc_L (++)).
Qed.

Lemma replace_str_keeps p x t s :
  dollar_free (x ++ p) = true -> starts_inside p t = false ->
  occurs t s -> occurs t (replace_str p (x ++ p) s).
Proof.
  intros D S O. unfold replace_str.
  destruct (find_first p s) as [[pre post] |] eqn:F; [| exact O].
  rewrite (substitution_plain _ _ _ _ D), <- (assoc_L (++)).
  apply find_first_app in F as ->. by apply occurs_insert_at.
Qed.

Lemma inject_ogImage_keeps_clear t html :
  starts_inside (js "<!-- Twitter Card -->") t = false ->
  occurs t html -> occurs t (inject_ogImage html).
Proof.
  intros S O. unfold inject_ogImage. destruct (includes _ _); [exact O |].
  destruct ogImageBlock_anchor as (tags & B & _).
  pose proof ogImageBlock_plain as D. rewrite B in *.
  by apply replace_str_keeps.
Qed.

Lemma jsonLdInsert_anchor lang m canonical :
  jsonLdInsert lang m canonical =
  concat [ js "    <script type=`application/ld+json`>"; jsonLd m canonical; js "</script>";
           nl;
           js "    <script type=`application/ld+json`>"; breadcrumb m lang canonical;
           js "</script>"; nl ] ++ js "</head>".
Proof. unfold jsonLdInsert. cbn [concat]. by rewrite app_nil_r, <- !(assoc_L (++)). Qed.

Lemma inject_jsonLd_keeps_clear route lang m canonical t html :
  dollar_free (jsonLdInsert lang m canonical) = true ->
  starts_inside (js "</head>") t = false ->
  occurs t html -> occurs t (inject_jsonLd route lang m canonical html).
Proof.
  intros D S O. unfold inject_jsonLd. destruct (startsWith _ _); [| exact O].
  rewrite jsonLdInsert_anchor in *. by apply replace_str_keeps.
Qed.

Lemma all_hreflang_clear : forallb hreflang_clear expertiseRoutes = true.
Proof. vm_compute. reflexivity. Qed.

Lemma head_close_clear :
  starts_inside (js "<!-- Canonical & hreflang -->") (js "</head>") = false
  /\ starts_inside (js "<!-- Twitter Card -->") (js "</head>") = false.
Proof. split; vm_compute; reflexivity. Qed.

Lemma registered_plain route q m :
  route ∈ expertiseRoutes ->
  resolve routeMeta route (page_lang q) = Some m ->
  dollar_free (hreflangInsert route) = true
  /\ dollar_free (jsonLdInsert (page_lang q) m (canonical_of route (page_lang q))) = true.
Proof.
  intros Hin%list_elem_of_In R.
  pose proof (proj1 (forallb_forall _ _) all_insertions_plain route Hin) as P.
  cbv beta in P. apply andb_true_iff in P as [Phe Pen].
  assert (P : insertions_plain route (page_lang q) = true).
  { unfold page_lang. by destruct (is_str q (js "en")). }
  clear Phe Pen. unfold insertions_plain in P. rewrite R in P.
  apply andb_six in P as (_ & P2 & _ & P4 & _). by split.
Qed.

(** X11. The hreflang links.  For every registered route and every query,
    when the page has the comment [<!-- Canonical & hreflang -->] once the
    metadata is in, the page sent holds the three alternate links of the
    route (he, en with [?lang=en], x-default) as one block: the two later
    insertions do not break it. *)
Theorem hreflang_links_in_page srv route q :
  route ∈ expertiseRoutes ->
  exists m doc,
    resolve routeMeta route (page_lang q) = Some m
    /\ expertise srv route q = page doc
    /\ (occurs (js "<!-- Canonical & hreflang -->")
               (inject_meta (expertiseTemplate srv) m (canonical_of route (page_lang q))) ->
        occurs (hreflangBlock route) doc).
Proof.
  intros Hin.
  destruct (canonical_link_in_page srv route q Hin) as (m & R & _).
  exists m. eexists. split; [exact R |].
  unfold expertise, render. rewrite R. cbn [lift]. rewrite bind_pure.
  split; [reflexivity |]. intros O.
  destruct (registered_plain route q m Hin R) as [D1 D2].
  pose proof (proj1 (forallb_forall _ _) all_hreflang_clear route
                (proj1 (list_elem_of_In _ _) Hin)) as C.
  unfold hreflang_clear in C.
  apply andb_true_iff in C as [C _]. apply andb_true_iff in C as [C1 C2].
  apply negb_true_iff in C1, C2.
  apply inject_jsonLd_keeps_clear; [exact D2 | exact C2 |].
  apply inject_ogImage_keeps_clear; [exact C1 |].
  unfold inject_hreflang, replace_str.
  apply find_first_complete in O as [[pre post] F]. rewrite F.
  rewrite (substitution_plain _ _ _ _ D1).
  unfold hreflangInsert. cbn [concat]. rewrite app_nil_r.
  exists (pre ++ js "<!-- Canonical & hreflang -->" ++ nl ++ js "    "), post.
  by rewrite <- !(assoc_L (++)).
Qed.

Lemma hreflang_links_in_page_witness :
  exists m doc,
    resolve routeMeta (js "/terms") (page_lang (str "en")) = Some m
    /\ expertise sample_server (js "/terms") (str "en") = page doc
    /\ occurs (js "<!-- Canonical & hreflang -->")
              (inject_meta (expertiseTemplate sample_server) m
                 (canonical_of (js "/terms") (page_lang (str "en"))))
    /\ occurs (hreflangBlock (js "/terms")) doc.
Proof.
  destruct (hreflang_links_in_page sample_server (js "/terms") (str "en")
              ltac:(do 6 right; left)) as (m & doc & R & E & K).
  assert (O : occurs (js "<!-- Canonical & hreflang -->")
                (inject_meta (expertiseTemplate sample_server) m
                   (canonical_of (js "/terms") (page_lang (str "en"))))).
  { vm_compute in R. injection R as <-. apply occurs_found. vm_compute. reflexivity. }
  exists m, doc. split; [exact R |]. split; [exact E |]. split; [exact O | exact (K O)].
Defined.

(** X12. Structured data.  A registered route outside [/practice/] is sent
    without the JSON-LD step.  For a registered route under [/practice/],
    when the page has [</head>] once the metadata is in, the page sent is
    the page of the earlier steps with two scripts put in front of its first
    [</head>]: the LegalService object and the breadcrumb list, both built
    from the entry of the selected language and the canonical address. *)
Theorem jsonld_in_practice_pages srv route q :
  route ∈ expertiseRoutes ->
  exists m doc,
    let lang := page_lang q in
    let canonical := canonical_of route lang in
    let before := inject_ogImage (inject_hreflang route
                    (inject_meta (expertiseTemplate srv) m canonical)) in
    resolve routeMeta route lang = Some m
    /\ expertise srv route q = page doc
    /\ (startsWith route (js "/practice/") = false -> doc = before)
    /\ (startsWith route (js "/practice/") = true ->
        occurs (js "</head>") (inject_meta (expertiseTemplate srv) m canonical) ->
        exists pre post,
          before = pre ++ js "</head>" ++ post
          /\ (forall a b, before = a ++ js "</head>" ++ b -> (length pre <= length a)%nat)
          /\ doc = pre
                   ++ js "    <script type=`application/ld+json`>" ++ jsonLd m canonical
                   ++ js "</script>" ++ nl
                   ++ js "    <script type=`application/ld+json`>"
                   ++ breadcrumb m lang canonical ++ js "</script>" ++ nl
                   ++ js "</head>" ++ post).
Proof.
  intros Hin.
  destruct (canonical_link_in_page srv route q Hin) as (m & R & _).
  exists m. eexists. cbv zeta. split; [exact R |].
  unfold expertise, render. rewrite R. cbn [lift]. rewrite bind_pure.
  split; [reflexivity |].
  destruct (registered_plain route q m Hin R) as [D1 D2].
  unfold inject_jsonLd. split.
  - by intros ->.
  - intros -> O.
    assert (O' : occurs (js "</head>")
                   (inject_ogImage (inject_hreflang route
                      (inject_meta (expertiseTemplate srv) m
                         (canonical_of route (page_lang q)))))).
    { apply inject_ogImage_keeps; [by apply not_existsb_elem; vm_compute |].
      apply inject_hreflang_keeps; [exact D1 | by apply not_existsb_elem; vm_compute |].
      exact O. }
    unfold replace_str.
    apply find_first_complete in O' as [[pre post] F]. rewrite F.
    exists pre, post. split; [by apply find_first_app |].
    split; [intros a b E; exact (find_first_leftmost _ _ _ _ _ _ F E) |].
    rewrite (substitution_plain _ _ _ _ D2). unfold jsonLdInsert. cbn [concat].
    by rewrite app_nil_r, <- !(assoc_L (++)).
Qed.

Lemma jsonld_in_practice_pages_witness :
  exists m doc,
    let srv := startup with_password bare_page bare_page in
    let route := js "/practice/traffic-lawyer" in
    let lang := page_lang JUndefined in
    let canonical := canonical_of route lang in
    let before := inject_ogImage (inject_hreflang route
                    (inject_meta (expertiseTemplate srv) m canonical)) in
    resolve routeMeta route lang = Some m
    /\ expertise srv route JUndefined = page doc
    /\ (startsWith route (js "/practice/") = false -> doc = before)
    /\ (startsWith route (js "/practice/") = true ->
        occurs (js "</head>") (inject_meta (expertiseTemplate srv) m canonical) ->
        exists pre post,
          before = pre ++ js "</head>" ++ post
          /\ (forall a b, before = a ++ js "</head>" ++ b -> (length pre <= length a)%nat)
          /\ doc = pre
                   ++ js "    <script type=`application/ld+json`>" ++ jsonLd m canonical
                   ++ js "</script>" ++ nl
                   ++ js "    <script type=`application/ld+json`>"
                   ++ breadcrumb m lang canonical ++ js "</script>" ++ nl
                   ++ js "</head>" ++ post).
Proof.
  exact (jsonld_in_practice_pages (startup with_password bare_page bare_page)
           (js "/practice/traffic-lawyer") JUndefined ltac:(right; left)).
Defined.

(** ** The log of a run *)

Lemma contact_mails srv env relay body :
  (length (mails (effects (contact srv env relay body))) <= 1)%nat
  /\ (transporter srv = None -> mails (effects (contact srv env relay body)) = []).
Proof.
  destruct (decide (validated body)) as [V | V].
  2:{ rewrite (contact_rejected _ _ _ _ V). cbn. split; [lia | done]. }
  rewrite (contact_validated _ _ _ _ V).
  destruct (transporter srv) as [t |] eqn:Ht.
  - rewrite (dispatch_configured _ _ _ _ _ _ _ _ _ t Ht). split; [| done].
    destruct (textual _ _ _ _ _); [| cbn; lia].
    unfold after_send. destruct (relay _); cbn; lia.
  - rewrite (dispatch_unconfigured _ _ _ _ _ _ _ _ _ Ht). cbn. split; [lia | done].
Qed.

Lemma render_silent table template route q : effects (render table template route q) = [].
Proof. unfold render. by destruct (resolve _ _ _). Qed.

Lemma handler_for_silent routes path h srv q :
  handler_for (map (fun route => (route, fun srv q => expertise srv route q)) routes) path
  = Some h ->
  effects (h srv q) = [].
Proof.
  induction routes as [| route r IH]; [done |]. cbn [map handler_for].
  destruct (eqb route path); [| exact IH].
  intros [= <-]. apply render_silent.
Qed.

Lemma handle_effects srv env relay rq h :
  handle srv env relay rq = Some h ->
  (length (mails (effects h)) <= (if rq is PostContact _ then 1 else 0))%nat
  /\ (transporter srv = None -> mails (effects h) = [])
  /\ (if rq is PostContact _ then True else effects h = []).
Proof.
  destruct rq as [| path q | body]; cbn [handle].
  - intros [= <-]. cbn. split; [lia | done].
  - destruct (handler_for registered path) as [g |] eqn:G; [| done].
    cbn. intros [= <-]. rewrite (handler_for_silent _ _ _ srv q G). cbn. split; [lia | done].
  - intros [= <-]. destruct (contact_mails srv env relay body) as [L N]. done.
Qed.

(** X13. The log of a run.  Over any run of requests the process only
    adds to what it has done; a page request (the landing page or a
    registered route, any query) and a request no handler of the file
    serves add nothing; the mails added are at most one for each request to
    the contact endpoint; and a process started without a mail password
    never sends a mail, whatever the environment is by the time of the
    requests. *)
Theorem run_log w evs :
  exists new,
    happened (run w evs) = happened w ++ new
    /\ (length (mails new) <= length (List.filter is_post evs))%nat
    /\ (forallb (fun ev => negb (is_post ev)) evs = true -> new = [])
    /\ (transporter (consts w) = None -> mails new = []).
Proof.
  revert w. induction evs as [| ev r IH]; intros w.
  - exists []. cbn. rewrite app_nil_r. repeat split; done.
  - cbn [run]. destruct (IH (fst (step w ev))) as (new & E & L & P & N).
    rewrite E. rewrite step_consts in N. clear E IH.
    unfold step, is_post in *. cbn [List.filter forallb].
    destruct (running w).
    2:{ exists new. cbn [fst]. split; [reflexivity |]. split; [| split].
        - destruct (req ev); cbn [length]; lia.
        - by intros [_ Q2]%andb_true_iff; apply P.
        - exact N. }
    destruct (handle (consts w) (env_at ev) (relay_at ev) (req ev)) as [h |] eqn:Hh.
    + destruct (handle_effects _ _ _ _ _ Hh) as (L1 & N1 & S1).
      exists (effects h ++ new). cbn [fst happened].
      split; [by rewrite (assoc_L (++)) |].
      unfold mails in *. rewrite omap_app, length_app.
      split; [| split].
      * destruct (req ev); cbn [length] in *; lia.
      * intros [Q1 Q2]%andb_true_iff. rewrite (P Q2), app_nil_r.
        by destruct (req ev).
      * intros T. by rewrite (N1 T), (N T).
    + exists new. cbn [fst]. split; [reflexivity |]. split; [| split].
      * destruct (req ev); cbn [length]; lia.
      * by intros [_ Q2]%andb_true_iff; apply P.
      * exact N.
Qed.

(** ** One metadata replacement *)

Lemma search_eq ats to_end s :
  search ats to_end s =
  match match_here ats to_end s with
  | Some (m, post) => Some ([], m, post)
  | None =>
      match s with
      | [] => None
      | u :: r =>
          match search ats to_end r with
          | Some (pre, m, post) => Some (u :: pre, m, post)
          | None => None
          end
      end
  end.
Proof. by destruct s. Qed.

Lemma search_sound ats s pre m post :
  search ats false s = Some (pre, m, post) -> s = pre ++ m ++ post /\ matches ats m.
Proof.
  revert pre. induction s as [| u s IH]; intros pre; rewrite search_eq.
  - destruct (match_here ats false []) as [[m' post'] |] eqn:E; [| done].
    intros [= <- <- <-]. by destruct (match_here_sound _ _ _ _ _ E) as (? & ? & _).
  - destruct (match_here ats false (u :: s)) as [[m' post'] |] eqn:E.
    + intros [= <- <- <-]. by destruct (match_here_sound _ _ _ _ _ E) as (? & ? & _).
    + destruct (search ats false s) as [[[pre' m'] post'] |]; [| done].
      intros [= <- <- <-]. destruct (IH _ eq_refl) as [-> M]. done.
Qed.

(** The search stops at the first place where the atoms fit. *)
Lemma search_leftmost ats s a m b :
  s = a ++ m ++ b -> matches ats m ->
  exists pre m' post,
    search ats false s = Some (pre, m', post) /\ (length pre <= length a)%nat.
Proof.
  intros -> M. induction a as [| u a IH]; rewrite search_eq.
  - cbn [app]. destruct (match_here_complete ats false m b M) as [[m' post'] ->]; [done |].
    exists [], m', post'. done.
  - cbn [app]. destruct (match_here ats false (u :: a ++ m ++ b)) as [[m' post'] |].
    + exists [], m', post'. split; [done |]. cbn. lia.
    + destruct IH as (pre & m' & post & -> & L). exists (u :: pre), m', post.
      split; [done |]. cbn. lia.
Qed.

Lemma matches_tag opening m :
  matches [Lit opening; Star (non GT); Lit (js ">")] m
  <-> exists k, m = opening ++ k ++ js ">" /\ forallb (non GT) k = true.
Proof.
  cbn [matches]. split.
  - intros (m1 & -> & k & m2 & -> & K & m3 & -> & ->). exists k. by rewrite app_nil_r.
  - intros (k & -> & K). exists (k ++ js ">"). split; [done |].
    exists k, (js ">"). split; [done |]. split; [done |]. exists []. by rewrite app_nil_r.
Qed.

(** X14. One metadata replacement, for the six patterns of the shape
    [<opening[^>]*>] (the descriptions, the og and twitter titles, the
    canonical link) and a replacement text without a dollar sign: either
    the page has no such element and is left as it is, or exactly one
    element is replaced: the first text from [opening] up to the nearest
    [>]; what stands before and behind it is kept. *)
Theorem tag_replace_one_element opening repl s :
  dollar_free repl = true ->
  (Regex.replace (tag_re opening) repl s = s
   /\ forall a k b, forallb (non GT) k = true -> s <> a ++ (opening ++ k ++ js ">") ++ b)
  \/ (exists pre k post,
        s = pre ++ (opening ++ k ++ js ">") ++ post
        /\ forallb (non GT) k = true
        /\ Regex.replace (tag_re opening) repl s = pre ++ repl ++ post
        /\ forall a k' b, forallb (non GT) k' = true ->
                          s = a ++ (opening ++ k' ++ js ">") ++ b ->
                          (length pre <= length a)%nat).
Proof.
  intros D. unfold Regex.replace, tag_re, exec.
  cbn [anchored_start anchored_end atoms].
  destruct (search _ false s) as [[[pre m] post] |] eqn:E.
  - right. destruct (search_sound _ _ _ _ _ E) as [-> (k & -> & K)%matches_tag].
    exists pre, k, post. split; [done |]. split; [exact K |].
    split; [by rewrite (substitution_plain _ _ _ _ D) |].
    intros a k' b K' S.
    destruct (search_leftmost _ _ a _ b S (proj2 (matches_tag opening _) (ex_intro _ k' (conj eq_refl K'))))
      as (pre' & m' & post' & E' & L).
    rewrite E in E'. by injection E' as <- _ _.
  - left. split; [reflexivity |]. intros a k b K S.
    destruct (search_leftmost _ _ a _ b S (proj2 (matches_tag opening _) (ex_intro _ k (conj eq_refl K))))
      as (pre' & m' & post' & E' & _).
    congruence.
Qed.

Lemma tag_replace_one_element_witness :
  (inject_canonical (js "/terms") bare_page = bare_page
   /\ forall a k b, forallb (non GT) k = true ->
        bare_page <> a ++ (js "<link rel=`canonical`" ++ k ++ js ">") ++ b)
  \/ (exists pre k post,
        bare_page = pre ++ (js "<link rel=`canonical`" ++ k ++ js ">") ++ post
        /\ forallb (non GT) k = true
        /\ inject_canonical (js "/terms") bare_page
           = pre ++ canonical_tag (js "/terms") ++ post
        /\ forall a k' b, forallb (non GT) k' = true ->
                          bare_page = a ++ (js "<link rel=`canonical`" ++ k' ++ js ">") ++ b ->
                          (length pre <= length a)%nat).
Proof.
  exact (tag_replace_one_element (js "<link rel=`canonical`") (canonical_tag (js "/terms"))
           bare_page eq_refl).
Defined.

(** * The page against its template *)

(** ** Tidy pages *)

Lemma scan_app st a b : scan st (a ++ b) = scan st a ≫= (fun st' => scan st' b).
Proof.
  revert st. induction a as [| u a IH]; intros st; [reflexivity |].
  cbn [app scan]. destruct (u =? LT); [destruct st; [reflexivity | apply IH] |].
  destruct (u =? GT); apply IH.
Qed.

Lemma tidy_scan s : tidy s = true <-> scan false s = Some false.
Proof. unfold tidy. destruct (scan false s) as [[|] |]; split; congruence. Qed.

Lemma scan_inside x post e :
  forallb (non GT) x = true -> scan true (x ++ GT :: post) = Some e ->
  (LT ∉ x) /\ scan false post = Some e.
Proof.
  induction x as [| u x IH]; cbn [forallb app scan].
  - intros _ S. split; [apply not_elem_of_nil | exact S].
  - intros [G X]%andb_true_iff. unfold non in G. apply negb_true_iff in G. rewrite G.
    destruct (u =? LT) eqn:L; [discriminate |].
    intros S. destruct (IH X S) as [N P]. split; [| exact P].
    apply N.eqb_neq in L. intros [E | Hin]%elem_of_cons; [by apply L | by apply N].
Qed.

Lemma scan_outside k rest :
  forallb (non LT) k = true -> scan false (k ++ rest) = scan false rest.
Proof.
  induction k as [| u k IH]; [reflexivity |]. cbn [forallb app scan].
  intros [L K]%andb_true_iff. unfold non in L. apply negb_true_iff in L. rewrite L.
  destruct (u =? GT); by apply IH.
Qed.

Lemma tidy_replaced pre repl post :
  scan false pre = Some false -> tidy repl = true -> scan false post = Some false ->
  tidy (pre ++ repl ++ post) = true.
Proof.
  intros P R%tidy_scan Q. apply tidy_scan.
  rewrite scan_app, P. cbn. rewrite scan_app, R. cbn. exact Q.
Qed.

Lemma no_brackets_inv (r : jsstring) :
  forallb (fun c => negb (c =? LT) && negb (c =? GT)) r = true ->
  forallb (non GT) r = true /\ (LT ∉ r).
Proof.
  induction r as [| c r IH]; [split; [reflexivity | apply not_elem_of_nil] |].
  cbn [forallb]. intros [[L G]%andb_true_iff F]%andb_true_iff.
  destruct (IH F) as [F1 F2]. unfold non at 1. rewrite G, F1. split; [reflexivity |].
  apply negb_true_iff, N.eqb_neq in L.
  intros [E | Hin]%elem_of_cons; [by apply L | by apply F2].
Qed.

Lemma tag_opening_inv o :
  tag_opening o = true ->
  exists o1, o = LT :: o1 /\ forallb (non GT) o1 = true /\ (LT ∉ o1).
Proof.
  destruct o as [| u o1]; [discriminate |]. cbn [tag_opening].
  intros [->%N.eqb_eq F]%andb_true_iff. exists o1. split; [reflexivity |].
  by apply no_brackets_inv.
Qed.

Lemma js_gt : js ">" = [GT].
Proof. vm_compute. reflexivity. Qed.

(** In a tidy page a tag pattern matches a whole tag. *)
Lemma tag_in_tidy pre o k post :
  tag_opening o = true -> forallb (non GT) k = true ->
  tidy (pre ++ (o ++ k ++ js ">") ++ post) = true ->
  scan false pre = Some false /\ scan false post = Some false
  /\ (LT ∉ tail (o ++ k ++ js ">")).
Proof.
  intros (o1 & -> & G1 & L1)%tag_opening_inv K T%tidy_scan.
  rewrite scan_app in T. destruct (scan false pre) as [st |]; [| discriminate].
  cbn [mbind option_bind] in T. cbn [app scan] in T.
  change (LT =? LT) with true in T. cbv iota in T.
  destruct st; [discriminate |].
  rewrite js_gt in *. cbn [app tail] in *.
  assert (Eq : (o1 ++ k ++ [GT]) ++ post = (o1 ++ k) ++ GT :: post)
    by (by rewrite <- !(assoc_L (++))).
  rewrite Eq in T. clear Eq.
  apply scan_inside in T as [N P]; [| by rewrite forallb_app, G1, K].
  split; [reflexivity |]. split; [exact P |].
  rewrite (assoc_L (++)). intros [Hin | Hin%list_elem_of_singleton]%elem_of_app; [by apply N | done].
Qed.

(** ** Occurrences and a replaced part *)

Lemma prefix_compatible_sym a b : prefix_compatible a b = prefix_compatible b a.
Proof. unfold prefix_compatible. apply orb_comm. Qed.

Lemma startsWith_inv s p : startsWith s p = true -> exists r, s = p ++ r.
Proof.
  unfold startsWith. destruct (strip_prefix p s) as [r |] eqn:E; [| discriminate].
  intros _. exists r. by apply strip_prefix_app.
Qed.

Lemma prefix_compatible_inv a b :
  prefix_compatible a b = true -> exists x y, a ++ x = b ++ y.
Proof.
  unfold prefix_compatible.
  intros [(r & ->)%startsWith_inv | (r & ->)%startsWith_inv]%orb_true_iff.
  - exists [], r. by rewrite app_nil_r.
  - exists r, []. by rewrite app_nil_r.
Qed.

(** A text that goes with [o ++ x] goes with [o]. *)
Lemma prefix_compatible_ext a o x :
  prefix_compatible a (o ++ x) = true -> prefix_compatible a o = true.
Proof.
  intros (y & z & E)%prefix_compatible_inv. rewrite <- (assoc_L (++)) in E.
  exact (prefix_compatible_app _ _ _ _ E).
Qed.

Lemma prefix_compatible_heads c c' (x y : jsstring) :
  c <> c' -> prefix_compatible (c :: x) (c' :: y) = false.
Proof.
  intros N. apply not_true_iff_false. intros (a & b & E)%prefix_compatible_inv.
  cbn [app] in E. congruence.
Qed.

Lemma overlaps_false o t d :
  overlaps o t = false -> (d < length t)%nat -> prefix_compatible (drop d t) o = false.
Proof.
  intros O L. apply not_true_iff_false. intros C.
  apply not_true_iff_false in O. apply O. unfold overlaps.
  apply existsb_exists. exists d. split; [apply in_seq; lia | exact C].
Qed.

(** A part [M] of a text is replaced: an occurrence of [t] stays when [M]
    starts nowhere in [t] and [t] starts nowhere inside [M]. *)
Lemma occurs_replaced t pre M post repl :
  (forall d, (d < length t)%nat -> prefix_compatible (drop d t) M = false) ->
  (forall d, (0 < d < length M)%nat -> prefix_compatible (drop d M) t = false) ->
  occurs t (pre ++ M ++ post) -> occurs t (pre ++ repl ++ post).
Proof.
  intros A B (a & b & E).
  destruct t as [| t0 t'] eqn:Et; [by exists [], (pre ++ repl ++ post) |]. rewrite <- Et in *.
  assert (Lt : (0 < length t)%nat) by (rewrite Et; cbn; lia). clear Et.
  apply app_eq_inv in E as [(z & -> & E) | (z & -> & E)].
  - apply app_eq_inv in E as [(z' & Ez & E) | (z' & -> & E)].
    + destruct z' as [| c z'].
      { rewrite app_nil_r in Ez. subst z. exists a, (repl ++ post).
        by rewrite <- !(assoc_L (++)). }
      exfalso. specialize (A (length z)). rewrite Ez, drop_app_length in A.
      rewrite (prefix_compatible_app _ _ _ _ (eq_sym E)) in A.
      rewrite length_app in A. cbn [length] in A. by discriminate A; lia.
    + exists a, (z' ++ repl ++ post). by rewrite <- !(assoc_L (++)).
  - apply app_eq_inv in E as [(z' & -> & E) | (z' & -> & E)].
    + destruct z' as [| c z'].
      { cbn [app] in E. subst post. exists (pre ++ repl), b.
        by rewrite <- !(assoc_L (++)). }
      destruct z as [| c0 z].
      * exfalso. specialize (A 0%nat Lt). rewrite drop_0 in A. cbn [app] in A, E.
        by rewrite (prefix_compatible_app t b (c :: z') post E) in A.
      * exfalso. specialize (B (length (c0 :: z))). rewrite drop_app_length in B.
        rewrite (prefix_compatible_app _ _ _ _ (eq_sym E)) in B.
        rewrite length_app in B. cbn [length] in B. by discriminate B; lia.
    + exists (pre ++ repl ++ z'), b. by rewrite E, <- !(assoc_L (++)).
Qed.

(** ** One tag replacement in a tidy page *)

Lemma tag_match o s pre M post :
  exec (tag_re o) s = Some (pre, M, post) ->
  s = pre ++ M ++ post /\ exists k, M = o ++ k ++ js ">" /\ forallb (non GT) k = true.
Proof.
  unfold tag_re, exec. cbn [anchored_start anchored_end atoms]. intros E.
  destruct (search_sound _ _ _ _ _ E) as [-> M']. split; [reflexivity |].
  by apply matches_tag.
Qed.

Lemma test_tag_found o a k b :
  forallb (non GT) k = true -> test (tag_re o) (a ++ (o ++ k ++ js ">") ++ b) = true.
Proof.
  intros K. unfold test, tag_re, exec. cbn [anchored_start anchored_end atoms].
  destruct (search_leftmost _ _ a _ b eq_refl
              (proj2 (matches_tag o _) (ex_intro _ k (conj eq_refl K))))
    as (pre & m & post & -> & _).
  reflexivity.
Qed.

Lemma tag_step_cases o repl s :
  dollar_free repl = true ->
  (Regex.replace (tag_re o) repl s = s /\ test (tag_re o) s = false)
  \/ (exists pre k post,
        s = pre ++ (o ++ k ++ js ">") ++ post /\ forallb (non GT) k = true
        /\ Regex.replace (tag_re o) repl s = pre ++ repl ++ post
        /\ test (tag_re o) s = true).
Proof.
  intros D. unfold Regex.replace, test.
  destruct (exec (tag_re o) s) as [[[pre M] post] |] eqn:E; [right | by left].
  destruct (tag_match _ _ _ _ _ E) as [-> (k & -> & K)].
  exists pre, k, post. by rewrite (substitution_plain _ _ _ _ D).
Qed.

Lemma tag_step_tidy o repl s :
  tag_opening o = true -> tidy repl = true -> dollar_free repl = true ->
  tidy s = true -> tidy (Regex.replace (tag_re o) repl s) = true.
Proof.
  intros O R D T.
  destruct (tag_step_cases o repl s D) as [[-> _] | (pre & k & post & -> & K & -> & _)];
    [exact T |].
  destruct (tag_in_tidy _ _ _ _ O K T) as (P & Q & _). by apply tidy_replaced.
Qed.

Lemma tag_step_inserts o repl s :
  dollar_free repl = true -> test (tag_re o) s = true ->
  occurs repl (Regex.replace (tag_re o) repl s).
Proof.
  intros D T.
  destruct (tag_step_cases o repl s D) as [[_ F] | (pre & k & post & _ & _ & -> & _)];
    [congruence |].
  by exists pre, post.
Qed.

Lemma drop_head_in (l : jsstring) n :
  (n < length l)%nat -> exists c r, drop n l = c :: r /\ c ∈ l.
Proof.
  revert n. induction l as [| u l IH]; intros n L; [cbn in L; lia |].
  destruct n as [| n].
  - exists u, l. split; [reflexivity | left].
  - cbn [drop]. cbn [length] in L. destruct (IH n ltac:(lia)) as (c & r & E & Hin).
    exists c, r. split; [exact E | by right].
Qed.

(** No text that starts with [<] starts inside a text with no [<] behind
    its head. *)
Lemma inner_clear (M t' : jsstring) d :
  LT ∉ tail M -> (0 < d < length M)%nat ->
  prefix_compatible (drop d M) (LT :: t') = false.
Proof.
  intros N L. destruct M as [| m0 M]; [cbn in L; lia |].
  destruct d as [| d]; [lia |]. cbn [drop tail length] in *.
  destruct (drop_head_in M d ltac:(lia)) as (c & r & -> & Hin).
  apply prefix_compatible_heads. by intros ->.
Qed.

Lemma tag_step_keeps o repl t s :
  tag_opening o = true -> dollar_free repl = true -> tidy s = true ->
  (forall d, (d < length t)%nat -> prefix_compatible (drop d t) o = false) ->
  (exists t', t = LT :: t') ->
  occurs t s -> occurs t (Regex.replace (tag_re o) repl s).
Proof.
  intros O D T A (t' & Et) Oc.
  destruct (tag_step_cases o repl s D) as [[-> _] | (pre & k & post & -> & K & -> & _)];
    [exact Oc |].
  destruct (tag_in_tidy _ _ _ _ O K T) as (_ & _ & N).
  apply (occurs_replaced t pre (o ++ k ++ js ">") post repl); [| | exact Oc].
  - intros d L. apply not_true_iff_false. intros C%prefix_compatible_ext.
    by rewrite (A d L) in C.
  - intros d L. rewrite Et. by apply inner_clear.
Qed.

(** An element of another pattern is still there to be found. *)
Lemma tag_step_findable o o' repl s :
  tag_opening o = true -> tag_opening o' = true -> prefix_compatible o' o = false ->
  dollar_free repl = true -> tidy s = true ->
  test (tag_re o') s = true -> test (tag_re o') (Regex.replace (tag_re o) repl s) = true.
Proof.
  intros O O' C D T F. unfold test in F.
  destruct (exec (tag_re o') s) as [[[p1 E] p2] |] eqn:X; [| discriminate]. clear F.
  destruct (tag_match _ _ _ _ _ X) as [Es (k' & -> & K')].
  assert (N : LT ∉ tail (o' ++ k' ++ js ">")).
  { rewrite Es in T. by destruct (tag_in_tidy _ _ _ _ O' K' T) as (_ & _ & N). }
  destruct (tag_opening_inv _ O) as (o1 & Eo & _).
  destruct (tag_opening_inv _ O') as (o1' & Eo' & _).
  assert (Oc : occurs (o' ++ k' ++ js ">") (Regex.replace (tag_re o) repl s)).
  { apply tag_step_keeps; try done.
    - intros d L. destruct d as [| d].
      + rewrite drop_0. apply not_true_iff_false.
        rewrite prefix_compatible_sym. intros C'%prefix_compatible_ext.
        by rewrite prefix_compatible_sym, C in C'.
      + rewrite Eo. apply inner_clear; [exact N | lia].
    - rewrite Eo'. by eexists.
    - by exists p1, p2. }
  destruct Oc as (a & b & ->). by apply test_tag_found.
Qed.

(** ** The chain of tag replacements *)

Lemma chain_cons st steps s :
  chain (st :: steps) s = chain steps (Regex.replace (tag_re (fst st)) (snd st) s).
Proof. reflexivity. Qed.

Lemma stays_inv later r :
  stays later r = true ->
  tidy r = true /\ dollar_free r = true /\ (exists r', r = LT :: r')
  /\ forallb (fun st => negb (overlaps (fst st) r)) later = true
  /\ insertions_clear r = true.
Proof.
  unfold stays. intros [[[[T D]%andb_true_iff Hd]%andb_true_iff F]%andb_true_iff I]%andb_true_iff.
  repeat split; try done.
  destruct r as [| u r']; [discriminate |]. apply N.eqb_eq in Hd as ->. by eexists.
Qed.

Lemma chain_ok_cons before o r rest :
  chain_ok before ((o, r) :: rest) = true ->
  tag_opening o = true
  /\ forallb (fun o' => negb (prefix_compatible o o')) before = true
  /\ stays rest r = true
  /\ chain_ok (before ++ [o]) rest = true.
Proof.
  cbn [chain_ok]. intros [[[O B]%andb_true_iff S]%andb_true_iff C]%andb_true_iff. done.
Qed.

Lemma chain_ok_tidy before steps s :
  chain_ok before steps = true -> tidy s = true -> tidy (chain steps s) = true.
Proof.
  revert before s. induction steps as [| [o r] rest IH]; intros before s C T; [exact T |].
  destruct (chain_ok_cons _ _ _ _ C) as (O & _ & S & C').
  destruct (stays_inv _ _ S) as (Tr & D & _).
  rewrite chain_cons. apply (IH _ _ C'). by apply tag_step_tidy.
Qed.

(** A text that the steps leave whole is in the page after them. *)
Lemma chain_keeps before steps t s :
  chain_ok before steps = true -> tidy s = true ->
  forallb (fun st => negb (overlaps (fst st) t)) steps = true ->
  (exists t', t = LT :: t') ->
  occurs t s -> occurs t (chain steps s).
Proof.
  revert before s. induction steps as [| [o r] rest IH]; intros before s C T F Ht Oc;
    [exact Oc |].
  destruct (chain_ok_cons _ _ _ _ C) as (O & _ & S & C').
  destruct (stays_inv _ _ S) as (Tr & D & _).
  cbn [forallb fst] in F. apply andb_true_iff in F as [F1 F].
  apply negb_true_iff in F1.
  rewrite chain_cons. apply (IH _ _ C'); try done.
  - by apply tag_step_tidy.
  - apply tag_step_keeps; try done. intros d L. by apply overlaps_false.
Qed.

Lemma chain_ok_before before steps o r o' :
  chain_ok before steps = true -> (o, r) ∈ steps -> o' ∈ before ->
  prefix_compatible o o' = false /\ tag_opening o = true.
Proof.
  revert before. induction steps as [| [o1 r1] rest IH]; intros before C Hin Hb.
  - by apply elem_of_nil in Hin.
  - destruct (chain_ok_cons _ _ _ _ C) as (O & B & _ & C').
    apply elem_of_cons in Hin as [[= -> ->] | Hin].
    + split; [| exact O].
      apply list_elem_of_In in Hb.
      by apply negb_true_iff, (proj1 (forallb_forall _ _) B).
    + apply (IH _ C' Hin). apply elem_of_app. by left.
Qed.

(** The element a step finds in the page before the chain is replaced by
    the step's text, and that text is in the page after the chain. *)
Lemma chain_inserts before steps s o r :
  chain_ok before steps = true -> tidy s = true ->
  (o, r) ∈ steps -> test (tag_re o) s = true ->
  occurs r (chain steps s).
Proof.
  revert before s. induction steps as [| [o1 r1] rest IH]; intros before s C T Hin F.
  - by apply elem_of_nil in Hin.
  - destruct (chain_ok_cons _ _ _ _ C) as (O & B & S & C').
    destruct (stays_inv _ _ S) as (Tr & D & Hd & Fr & _).
    rewrite chain_cons. cbn [fst snd].
    assert (T' : tidy (Regex.replace (tag_re o1) r1 s) = true) by (by apply tag_step_tidy).
    apply elem_of_cons in Hin as [[= -> ->] | Hin].
    + apply (chain_keeps _ _ _ _ C'); try done. by apply tag_step_inserts.
    + apply (IH _ _ C' T' Hin).
      destruct (chain_ok_before _ _ o r o1 C' Hin) as [P O'].
      { apply elem_of_app. right. left. }
      by apply tag_step_findable.
Qed.

(** ** The title replacement in a tidy page *)

Lemma matches_title m :
  matches [Lit (js "<title"); Star (non GT); Lit (js ">"); Star (non LT); Lit (js "</title>")] m
  <-> exists k1 k2, m = js "<title" ++ k1 ++ js ">" ++ k2 ++ js "</title>"
                    /\ forallb (non GT) k1 = true /\ forallb (non LT) k2 = true.
Proof.
  cbn [matches]. split.
  - intros (m1 & -> & k1 & m2 & -> & K1 & m3 & -> & k2 & m4 & -> & K2 & m5 & -> & ->).
    exists k1, k2. by rewrite app_nil_r.
  - intros (k1 & k2 & -> & K1 & K2). eexists. split; [reflexivity |].
    exists k1. eexists. split; [reflexivity |]. split; [exact K1 |].
    eexists. split; [reflexivity |]. exists k2. eexists. split; [reflexivity |].
    split; [exact K2 |]. exists []. by rewrite app_nil_r.
Qed.

Lemma title_match s pre M post :
  exec title_re s = Some (pre, M, post) ->
  s = pre ++ M ++ post
  /\ exists k1 k2, M = js "<title" ++ k1 ++ js ">" ++ k2 ++ js "</title>"
                   /\ forallb (non GT) k1 = true /\ forallb (non LT) k2 = true.
Proof.
  unfold title_re, exec. cbn [anchored_start anchored_end atoms]. intros E.
  destruct (search_sound _ _ _ _ _ E) as [-> M']. split; [reflexivity |].
  by apply matches_title.
Qed.

Lemma js_title_open : js "<title" = LT :: js "title".
Proof. vm_compute. reflexivity. Qed.

Lemma title_word_plain :
  forallb (non GT) (js "title") = true /\ (LT ∉ js "title")
  /\ scan false (js "</title>") = Some false /\ (LT ∉ tail (js "</title>")).
Proof.
  split; [vm_compute; reflexivity |]. split; [by apply not_existsb_elem; vm_compute |].
  split; [vm_compute; reflexivity |]. by apply not_existsb_elem; vm_compute.
Qed.

(** In a tidy page the title pattern matches a whole title element. *)
Lemma title_in_tidy pre k1 k2 post :
  forallb (non GT) k1 = true -> forallb (non LT) k2 = true ->
  tidy (pre ++ (js "<title" ++ k1 ++ js ">" ++ k2 ++ js "</title>") ++ post) = true ->
  scan false pre = Some false /\ scan false post = Some false
  /\ exists m1, js "<title" ++ k1 ++ js ">" ++ k2 ++ js "</title>"
                = LT :: m1 ++ js "</title>"
                /\ (LT ∉ m1).
Proof.
  intros K1 K2 T%tidy_scan. destruct title_word_plain as (W1 & W2 & W3 & _).
  rewrite js_title_open, js_gt in *.
  rewrite scan_app in T. destruct (scan false pre) as [st |]; [| discriminate].
  cbn [mbind option_bind app scan] in T.
  change (LT =? LT) with true in T. cbv iota in T.
  destruct st; [discriminate |].
  assert (Eq : (js "title" ++ k1 ++ GT :: k2 ++ js "</title>") ++ post
               = (js "title" ++ k1) ++ GT :: (k2 ++ js "</title>" ++ post))
    by (rewrite <- !(assoc_L (++)); cbn [app]; by rewrite <- !(assoc_L (++))).
  rewrite Eq in T. clear Eq.
  apply scan_inside in T as [N P]; [| by rewrite forallb_app, W1, K1].
  rewrite (scan_outside _ _ K2), scan_app, W3 in P. cbn [mbind option_bind] in P.
  split; [reflexivity |]. split; [exact P |].
  exists (js "title" ++ k1 ++ [GT] ++ k2). split; [by rewrite <- !(assoc_L (++)) |].
  rewrite !elem_of_app. intros [Hin | [Hin | [Hin%list_elem_of_singleton | Hin]]].
  - by apply W2.
  - apply N. apply elem_of_app. by right.
  - done.
  - apply list_elem_of_In in Hin.
    pose proof (proj1 (forallb_forall _ _) K2 _ Hin) as X. unfold non in X.
    by rewrite N.eqb_refl in X.
Qed.

Lemma title_step_cases repl s :
  dollar_free repl = true ->
  (Regex.replace title_re repl s = s /\ test title_re s = false)
  \/ (exists pre k1 k2 post,
        s = pre ++ (js "<title" ++ k1 ++ js ">" ++ k2 ++ js "</title>") ++ post
        /\ forallb (non GT) k1 = true /\ forallb (non LT) k2 = true
        /\ Regex.replace title_re repl s = pre ++ repl ++ post
        /\ test title_re s = true).
Proof.
  intros D. unfold Regex.replace, test.
  destruct (exec title_re s) as [[[pre M] post] |] eqn:E; [right | by left].
  destruct (title_match _ _ _ _ E) as [-> (k1 & k2 & -> & K1 & K2)].
  exists pre, k1, k2, post. by rewrite (substitution_plain _ _ _ _ D).
Qed.

Lemma title_step_tidy repl s :
  tidy repl = true -> dollar_free repl = true ->
  tidy s = true -> tidy (Regex.replace title_re repl s) = true.
Proof.
  intros R D T.
  destruct (title_step_cases repl s D)
    as [[-> _] | (pre & k1 & k2 & post & -> & K1 & K2 & -> & _)]; [exact T |].
  destruct (title_in_tidy _ _ _ _ K1 K2 T) as (P & Q & _). by apply tidy_replaced.
Qed.

Lemma title_step_inserts repl s :
  dollar_free repl = true -> test title_re s = true ->
  occurs repl (Regex.replace title_re repl s).
Proof.
  intros D T.
  destruct (title_step_cases repl s D)
    as [[_ F] | (pre & k1 & k2 & post & _ & _ & _ & -> & _)]; [congruence |].
  by exists pre, post.
Qed.

(** Inside a title element only its closing tag starts with [<]. *)
Lemma inner_clear_closing (m1 B t' : jsstring) d :
  LT ∉ m1 -> LT ∉ tail B -> prefix_compatible B (LT :: t') = false ->
  (0 < d < length (LT :: m1 ++ B))%nat ->
  prefix_compatible (drop d (LT :: m1 ++ B)) (LT :: t') = false.
Proof.
  intros N1 N2 C L. destruct d as [| d]; [lia |]. cbn [drop length] in *.
  rewrite length_app in L.
  destruct (decide (d < length m1)%nat) as [Hd | Hd].
  - rewrite drop_app_le by lia.
    destruct (drop_head_in m1 d Hd) as (c & r & -> & Hin). cbn [app].
    apply prefix_compatible_heads. by intros ->.
  - rewrite drop_app_ge by lia.
    destruct (decide (d - length m1 = 0)%nat) as [-> | Hn]; [by rewrite drop_0 |].
    apply inner_clear; [exact N2 | lia].
Qed.

(** An element of a tag pattern is still there after the title has been
    replaced. *)
Lemma title_step_findable o' repl s :
  tag_opening o' = true ->
  prefix_compatible o' (js "<title") = false ->
  prefix_compatible o' (js "</title>") = false ->
  dollar_free repl = true -> tidy s = true ->
  test (tag_re o') s = true -> test (tag_re o') (Regex.replace title_re repl s) = true.
Proof.
  intros O' C1 C2 D T F. unfold test in F.
  destruct (exec (tag_re o') s) as [[[p1 E] p2] |] eqn:X; [| discriminate]. clear F.
  destruct (tag_match _ _ _ _ _ X) as [Es (k' & -> & K')].
  assert (N : LT ∉ tail (o' ++ k' ++ js ">")).
  { rewrite Es in T. by destruct (tag_in_tidy _ _ _ _ O' K' T) as (_ & _ & N). }
  destruct (tag_opening_inv _ O') as (o1' & Eo' & _).
  assert (Oc : occurs (o' ++ k' ++ js ">") (Regex.replace title_re repl s)).
  { destruct (title_step_cases repl s D)
      as [[-> _] | (pre & k1 & k2 & post & Ep & K1 & K2 & -> & _)]; [by exists p1, p2 |].
    rewrite Ep in T. destruct (title_in_tidy _ _ _ _ K1 K2 T) as (_ & _ & m1 & Em & N1).
    apply (occurs_replaced _ pre (js "<title" ++ k1 ++ js ">" ++ k2 ++ js "</title>") post).
    - intros d L. apply not_true_iff_false. intros C%prefix_compatible_ext.
      destruct d as [| d].
      + rewrite drop_0, prefix_compatible_sym in C.
        apply prefix_compatible_ext in C. by rewrite prefix_compatible_sym, C1 in C.
      + rewrite js_title_open in C. rewrite inner_clear in C; [done | exact N | lia].
    - intros d L. rewrite Em in *. rewrite Eo'. cbn [app].
      destruct title_word_plain as (_ & _ & _ & W4).
      apply inner_clear_closing; try done.
      apply not_true_iff_false. intros C.
      change (LT :: o1' ++ k' ++ js ">") with ((LT :: o1') ++ k' ++ js ">") in C.
      apply prefix_compatible_ext in C.
      by rewrite <- Eo', prefix_compatible_sym, C2 in C.
    - rewrite <- Ep. by exists p1, p2. }
  destruct Oc as (a & b & ->). by apply test_tag_found.
Qed.

(** ** The insertions behind the chain *)

Lemma occurs_rev t s : occurs t s -> occurs (rev t) (rev s).
Proof.
  intros (a & b & ->). exists (rev b), (rev a).
  by rewrite !rev_app_distr, <- !(assoc_L (++)).
Qed.

(** Text put behind an occurrence of [p] breaks no occurrence of [t],
    unless [p] ends inside [t]. *)
Lemma occurs_insert_behind t pre p post x :
  starts_inside (rev p) (rev t) = false ->
  occurs t (pre ++ p ++ post) -> occurs t (pre ++ p ++ x ++ post).
Proof.
  intros S O%occurs_rev. rewrite !rev_app_distr, <- !(assoc_L (++)) in O.
  apply (occurs_insert_at _ _ _ _ (rev x) S), occurs_rev in O.
  rewrite !rev_app_distr, !rev_involutive, <- !(assoc_L (++)) in O. exact O.
Qed.

Lemma later_keeps route lang m canonical t html :
  dollar_free (hreflangInsert route) = true ->
  dollar_free (jsonLdInsert lang m canonical) = true ->
  insertions_clear t = true ->
  occurs t html ->
  occurs t (inject_jsonLd route lang m canonical
              (inject_ogImage (inject_hreflang route html))).
Proof.
  intros D1 D2 [[C1 C2]%andb_true_iff C3]%andb_true_iff O.
  apply negb_true_iff in C1, C2, C3.
  apply inject_jsonLd_keeps_clear; [exact D2 | exact C3 |].
  apply inject_ogImage_keeps_clear; [exact C2 |].
  unfold inject_hreflang, replace_str.
  destruct (find_first _ html) as [[pre post] |] eqn:F; [| exact O].
  rewrite (substitution_plain _ _ _ _ D1).
  apply find_first_app in F as ->.
  unfold hreflangInsert. cbn [concat]. rewrite app_nil_r.
  replace (js "<!-- Canonical & hreflang -->" ++ nl ++ js "    " ++ hreflangBlock route)
    with (js "<!-- Canonical & hreflang -->" ++ (nl ++ js "    " ++ hreflangBlock route))
    by reflexivity.
  rewrite <- !(assoc_L (++)).
  replace (nl ++ js "    " ++ hreflangBlock route ++ post)
    with ((nl ++ js "    " ++ hreflangBlock route) ++ post)
    by (by rewrite <- !(assoc_L (++))).
  by apply occurs_insert_behind.
Qed.

(** ** The metadata in the page sent *)

Lemma inject_meta_chain template m canonical :
  inject_meta template m canonical
  = chain (tag_steps m canonical) (Regex.replace title_re (title_tag m) template).
Proof.
  unfold inject_meta, inject_canonical, inject_titles, chain, tag_steps, title_tag,
    canonical_re.
  cbn [fold_left fst snd]. reflexivity.
Qed.

Lemma all_meta_clear :
  forallb (fun route => meta_clear route (js "he") && meta_clear route (js "en"))
          expertiseRoutes = true.
Proof. vm_compute. reflexivity. Qed.

Lemma metadata_in_page srv route q :
  route ∈ expertiseRoutes ->
  tidy (expertiseTemplate srv) = true ->
  exists m doc,
    resolve routeMeta route (page_lang q) = Some m
    /\ expertise srv route q = page doc
    /\ (test title_re (expertiseTemplate srv) = true -> occurs (title_tag m) doc)
    /\ (forall o r, (o, r) ∈ tag_steps m (canonical_of route (page_lang q)) ->
          test (tag_re o) (expertiseTemplate srv) = true -> occurs r doc).
Proof.
  intros Hin T.
  destruct (canonical_link_in_page srv route q Hin) as (m & R & _).
  exists m. eexists. split; [exact R |].
  unfold expertise, render. rewrite R. cbn [lift]. rewrite bind_pure.
  split; [reflexivity |].
  destruct (registered_plain route q m Hin R) as [D1 D2].
  assert (M : meta_clear route (page_lang q) = true).
  { pose proof (proj1 (forallb_forall _ _) all_meta_clear route
                  (proj1 (list_elem_of_In _ _) Hin)) as P.
    cbv beta in P. apply andb_true_iff in P as [Phe Pen].
    unfold page_lang. by destruct (is_str q (js "en")). }
  unfold meta_clear in M. rewrite R in M. cbv zeta in M.
  apply andb_true_iff in M as [St C].
  destruct (stays_inv _ _ St) as (Tt & Dt & Ht & Ft & It).
  rewrite inject_meta_chain.
  assert (T1 : tidy (Regex.replace title_re (title_tag m) (expertiseTemplate srv)) = true)
    by (by apply title_step_tidy).
  split.
  - intros F. apply later_keeps; [exact D1 | exact D2 | exact It |].
    apply (chain_keeps _ _ _ _ C T1 Ft Ht). by apply title_step_inserts.
  - intros o r Hs F.
    assert (Ir : insertions_clear r = true).
    { clear F. revert C Hs. generalize [js "<title"; js "</title>"].
      generalize (tag_steps m (canonical_of route (page_lang q))).
      intros steps. induction steps as [| [o1 r1] rest IH]; intros before C Hs.
      - apply elem_of_nil in Hs. destruct Hs.
      - destruct (chain_ok_cons _ _ _ _ C) as (_ & _ & S & C').
        apply elem_of_cons in Hs as [[= -> ->] | Hs].
        + by destruct (stays_inv _ _ S) as (_ & _ & _ & _ & I).
        + exact (IH _ C' Hs). }
    apply later_keeps; [exact D1 | exact D2 | exact Ir |].
    apply (chain_inserts _ _ _ o r C T1 Hs).
    destruct (chain_ok_before _ _ o r (js "<title") C Hs) as [P1 O']; [left |].
    destruct (chain_ok_before _ _ o r (js "</title>") C Hs) as [P2 _]; [right; left |].
    exact (title_step_findable o (title_tag m) _ O' P1 P2 Dt T F).
Qed.

Lemma title_tag_text m : title_tag m = js "<title id=`page-title`>" ++ title m ++ js "</title>".
Proof. unfold title_tag. cbn [concat]. by rewrite app_nil_r. Qed.

Lemma tag_steps_description m c :
  (js "<meta name=`description`",
   js "<meta name=`description` id=`meta-description` content=`" ++ desc m ++ js "`>")
  ∈ tag_steps m c.
Proof. unfold tag_steps. cbn [concat]. rewrite app_nil_r. left. Qed.

Lemma tag_steps_canonical m c :
  (js "<link rel=`canonical`", canonical_tag c) ∈ tag_steps m c.
Proof. unfold tag_steps. do 5 right. left. Qed.

(** C5. The metadata a page is rendered with is what the lookup resolves
    for the route and the selected language: the entry of that language
    when the route has one, else the route's he entry; for a registered
    route that is always the entry of the selected language.  The canonical
    address is the route itself unless the query value is the string en, when
    it is the route followed by [?lang=en]; and when the template holds a
    canonical link element for the last [replace] to find, the page sent for
    a registered route holds that element with exactly this address.  The
    entry is in the page sent: for a registered route and a tidy template,
    the title element, the description and the canonical link that the
    template has are sent with the title and the description of the entry
    and with the canonical address, and so is each of the other elements
    the chain replaces. *)
Theorem page_metadata_and_canonical :
  (forall table route lang e, table !! route = Some e ->
     resolve table route lang
     = match e !! lang with Some m => Some m | None => e !! js "he" end)
  /\ (forall table template route q m,
        resolve table route (page_lang q) = Some m ->
        render table template route q
        = page (inject_jsonLd route (page_lang q) m (canonical_of route (page_lang q))
                  (inject_ogImage
                     (inject_hreflang route
                        (inject_meta template m (canonical_of route (page_lang q)))))))
  /\ (forall route q,
        canonical_of route (page_lang q)
        = if is_str q (js "en") then route ++ js "?lang=en" else route)
  /\ (forall srv route q, route ∈ expertiseRoutes ->
        exists m,
          resolve routeMeta route (page_lang q) = Some m
          /\ routeMeta !! route ≫= (.!! page_lang q) = Some m
          /\ (test canonical_re (inject_titles (expertiseTemplate srv) m) = true ->
              exists doc,
                expertise srv route q = page doc
                /\ occurs (js "<link rel=`canonical` id=`canonical-link` href=`"
                             ++ (if is_str q (js "en") then route ++ js "?lang=en" else route)
                             ++ js "`>") doc))
  /\ (forall srv route q, route ∈ expertiseRoutes ->
        tidy (expertiseTemplate srv) = true ->
        exists m doc,
          routeMeta !! route ≫= (.!! page_lang q) = Some m
          /\ expertise srv route q = page doc
          /\ (test title_re (expertiseTemplate srv) = true ->
              occurs (js "<title id=`page-title`>" ++ title m ++ js "</title>") doc)
          /\ (test (tag_re (js "<meta name=`description`")) (expertiseTemplate srv) = true ->
              occurs (js "<meta name=`description` id=`meta-description` content=`"
                        ++ desc m ++ js "`>") doc)
          /\ (test canonical_re (expertiseTemplate srv) = true ->
              occurs (js "<link rel=`canonical` id=`canonical-link` href=`"
                        ++ (if is_str q (js "en") then route ++ js "?lang=en" else route)
                        ++ js "`>") doc)
          /\ (forall o r, (o, r) ∈ tag_steps m (canonical_of route (page_lang q)) ->
                test (tag_re o) (expertiseTemplate srv) = true -> occurs r doc)).
Proof.
  split; [| split; [| split; [| split]]].
  - intros table route lang e Ht. unfold resolve. rewrite Ht. reflexivity.
  - intros table template route q m R. unfold render. rewrite R. cbn [lift].
    by rewrite bind_pure.
  - exact canonical_of_lang.
  - intros srv route q Hin.
    destruct (canonical_link_in_page srv route q Hin) as (m & R & K).
    exists m. split; [exact R |]. split.
    + rewrite (resolve_registered route q Hin) in R. unfold page_lang.
      by destruct (is_str q (js "en")).
    + intros T. destruct (K T) as (doc & E & O). exists doc. split; [exact E |].
      rewrite canonical_of_lang, canonical_tag_text in O. exact O.
  - intros srv route q Hin T.
    destruct (metadata_in_page srv route q Hin T) as (m & doc & R & E & Ti & St).
    exists m, doc. split.
    { rewrite (resolve_registered route q Hin) in R. unfold page_lang.
      by destruct (is_str q (js "en")). }
    split; [exact E |]. split; [| split; [| split; [| exact St]]].
    + intros F. rewrite <- title_tag_text. exact (Ti F).
    + intros F. exact (St _ _ (tag_steps_description m _) F).
    + intros F. rewrite <- canonical_of_lang, <- canonical_tag_text.
      exact (St _ _ (tag_steps_canonical m _) F).
Qed.

Lemma page_metadata_and_canonical_witness :
  (exists m doc,
     routeMeta !! js "/practice/traffic-lawyer" ≫= (.!! page_lang (str "en")) = Some m
     /\ expertise sample_server (js "/practice/traffic-lawyer") (str "en") = page doc
     /\ occurs (js "<title id=`page-title`>" ++ title m ++ js "</title>") doc
     /\ occurs (js "<meta name=`description` id=`meta-description` content=`"
                  ++ desc m ++ js "`>") doc
     /\ occurs (js "<link rel=`canonical` id=`canonical-link` href=`"
                  ++ (if is_str (str "en") (js "en")
                      then js "/practice/traffic-lawyer" ++ js "?lang=en"
                      else js "/practice/traffic-lawyer")
                  ++ js "`>") doc)
  /\ (exists m doc,
        resolve routeMeta (js "/terms") (page_lang JUndefined) = Some m
        /\ test canonical_re (inject_titles (expertiseTemplate sample_server) m) = true
        /\ expertise sample_server (js "/terms") JUndefined = page doc
        /\ occurs (js "<link rel=`canonical` id=`canonical-link` href=`"
                     ++ (if is_str JUndefined (js "en")
                         then js "/terms" ++ js "?lang=en" else js "/terms")
                     ++ js "`>") doc).
Proof.
  split.
  - destruct (proj2 (proj2 (proj2 (proj2 page_metadata_and_canonical)))
                sample_server (js "/practice/traffic-lawyer") (str "en")
                ltac:(right; left) eq_refl)
      as (m & doc & R & E & Ti & De & Ca & _).
    exists m, doc. split; [exact R |]. split; [exact E |].
    split; [apply Ti; vm_compute; reflexivity |].
    split; [apply De; vm_compute; reflexivity |].
    apply Ca. vm_compute. reflexivity.
  - destruct (proj1 (proj2 (proj2 (proj2 page_metadata_and_canonical)))
                sample_server (js "/terms") JUndefined ltac:(do 6 right; left))
      as (m & R & _ & K).
    assert (T : test canonical_re (inject_titles (expertiseTemplate sample_server) m) = true).
    { vm_compute in R. injection R as <-. vm_compute. reflexivity. }
    destruct (K T) as (doc & E & O).
    exists m, doc. split; [exact R |]. split; [exact T |]. split; [exact E | exact O].
Defined.

(** ** Rendering again *)

Lemma hreflang_plain route : route ∈ expertiseRoutes -> dollar_free (hreflangInsert route) = true.
Proof.
  intros Hin%list_elem_of_In.
  pose proof (proj1 (forallb_forall _ _) all_hreflang_clear route Hin) as C.
  unfold hreflang_clear in C. by apply andb_true_iff in C as [_ C].
Qed.

Lemma hreflangInsert_text route :
  hreflangInsert route
  = js "<!-- Canonical & hreflang -->" ++ nl ++ js "    " ++ hreflangBlock route.
Proof. unfold hreflangInsert. cbn [concat]. by rewrite app_nil_r. Qed.

(** What the hreflang step does to a page, by cases. *)
Lemma inject_hreflang_cases route s :
  dollar_free (hreflangInsert route) = true ->
  (inject_hreflang route s = s /\ ~ occurs (js "<!-- Canonical & hreflang -->") s)
  \/ (exists pre post,
        s = pre ++ js "<!-- Canonical & hreflang -->" ++ post
        /\ inject_hreflang route s
           = pre ++ js "<!-- Canonical & hreflang -->" ++ nl ++ js "    "
                 ++ hreflangBlock route ++ post
        /\ forall a b, s = a ++ js "<!-- Canonical & hreflang -->" ++ b ->
                       (length pre <= length a)%nat).
Proof.
  intros D. unfold inject_hreflang, replace_str.
  destruct (find_first _ s) as [[pre post] |] eqn:F.
  - right. exists pre, post. split; [by apply find_first_app |].
    split; [| intros a b E; exact (find_first_leftmost _ _ _ _ _ _ F E)].
    by rewrite (substitution_plain _ _ _ _ D), hreflangInsert_text, <- !(assoc_L (++)).
  - left. split; [reflexivity |]. intros [x E]%find_first_complete. congruence.
Qed.

(** The step is not idempotent: on its own output it adds the links
    again. *)
Lemma inject_hreflang_grows route s :
  dollar_free (hreflangInsert route) = true ->
  occurs (js "<!-- Canonical & hreflang -->") s ->
  (length s < length (inject_hreflang route s))%nat
  /\ occurs (js "<!-- Canonical & hreflang -->") (inject_hreflang route s).
Proof.
  intros D O.
  destruct (inject_hreflang_cases route s D) as [[_ N] | (pre & post & -> & -> & _)];
    [done |].
  split.
  - rewrite !length_app. change (length nl) with 1%nat. lia.
  - by exists pre, (nl ++ js "    " ++ hreflangBlock route ++ post).
Qed.

Lemma page_effects srv route q : effects (expertise srv route q) = [].
Proof. apply render_silent. Qed.

Lemma step_page_same w env relay route q :
  fst (step w (Event env relay (GetPage route q))) = w.
Proof.
  unfold step, handle. cbn [req env_at relay_at]. destruct (running w) eqn:R; [| done].
  destruct (handler_for registered route) as [h |] eqn:Hh; [| done].
  cbn [fmap option_fmap option_map fst fatal].
  rewrite (handler_for_silent _ _ _ (consts w) q Hh), app_nil_r.
  destruct w as [c hp r]. cbn in *. by rewrite R.
Qed.

(** C8. A page is rendered from the template read at the start, the route
    and the selected language, and from nothing else.  While the process
    runs, the answer to a page request after any run of requests (pages,
    the landing page, contact posts) is the page rendered from that
    template, so the same route and lang value give the same outcome again,
    byte for byte; a process that has stopped answers nothing.  A page
    request leaves the process as it found it.  The outcome does not depend
    on the rest of the constants, and two query values that select the same
    language give the same page.  What a render inserts, it inserts once:
    the hreflang links behind the first anchor comment, the og:image tags
    only where there are none.  The hreflang step is not idempotent: applied
    to a page it has made, it would insert the links again; nothing
    accumulates because every render starts from the template. *)
Theorem page_render_repeatable :
  (forall w evs env relay route q,
      snd (step (run w evs) (Event env relay (GetPage route q)))
      = if running (run w evs)
        then (fun h => outcome_of (h (consts w) q)) <$> handler_for registered route
        else None)
  /\ (forall w evs env1 relay1 env2 relay2 route q,
        running (run (fst (step w (Event env1 relay1 (GetPage route q)))) evs) = true ->
        snd (step (run (fst (step w (Event env1 relay1 (GetPage route q)))) evs)
                  (Event env2 relay2 (GetPage route q)))
        = snd (step w (Event env1 relay1 (GetPage route q))))
  /\ (forall w env relay route q,
        fst (step w (Event env relay (GetPage route q))) = w)
  /\ (forall srv srv' route q q',
        expertiseTemplate srv = expertiseTemplate srv' ->
        page_lang q = page_lang q' ->
        expertise srv route q = expertise srv' route q')
  /\ (forall route s, route ∈ expertiseRoutes ->
        (inject_hreflang route s = s /\ ~ occurs (js "<!-- Canonical & hreflang -->") s)
        \/ (exists pre post,
              s = pre ++ js "<!-- Canonical & hreflang -->" ++ post
              /\ inject_hreflang route s
                 = pre ++ js "<!-- Canonical & hreflang -->" ++ nl ++ js "    "
                       ++ hreflangBlock route ++ post
              /\ forall a b, s = a ++ js "<!-- Canonical & hreflang -->" ++ b ->
                             (length pre <= length a)%nat))
  /\ (forall s, inject_ogImage (inject_ogImage s) = inject_ogImage s)
  /\ (forall route s, route ∈ expertiseRoutes ->
        occurs (js "<!-- Canonical & hreflang -->") s ->
        (length (inject_hreflang route s)
         < length (inject_hreflang route (inject_hreflang route s)))%nat).
Proof.
  split; [| split; [| split; [| split; [| split; [| split]]]]].
  - intros. by rewrite step_page, run_consts.
  - intros w evs env1 relay1 env2 relay2 route q R.
    rewrite !step_page, run_consts, R, step_page_same.
    by rewrite step_page_same in R; rewrite (run_running _ _ R).
  - exact step_page_same.
  - intros srv srv' route q q' Et El. unfold expertise, render. by rewrite Et, El.
  - intros route s Hin. apply inject_hreflang_cases. by apply hreflang_plain.
  - exact inject_ogImage_again.
  - intros route s Hin O. pose proof (hreflang_plain route Hin) as D.
    destruct (inject_hreflang_grows route s D O) as [_ O'].
    by destruct (inject_hreflang_grows route _ D O') as [L _].
Qed.

Lemma page_render_repeatable_witness :
  snd (step (run (fst (step (World sample_server [] true)
                        (Event with_password delivers
                           (GetPage (js "/practice/criminal-lawyer") JUndefined))))
                 sample_run)
            (Event without_password fails
               (GetPage (js "/practice/criminal-lawyer") JUndefined)))
  = snd (step (World sample_server [] true)
           (Event with_password delivers
              (GetPage (js "/practice/criminal-lawyer") JUndefined))).
Proof.
  apply (proj1 (proj2 page_render_repeatable)). vm_compute. reflexivity.
Defined.

(** After a contact post that throws, the process has stopped and no page
    is sent. *)
Example stopped_after_throw :
  let w := run (World sample_server [] true)
             [Event with_password delivers (PostContact numeric_email)] in
  running w = false
  /\ snd (step w (Event with_password delivers (GetPage (js "/terms") JUndefined))) = None.
Proof.
  cbv zeta. assert (R : running (run (World sample_server [] true)
             [Event with_password delivers (PostContact numeric_email)]) = false)
    by (vm_compute; reflexivity).
  split; [exact R |]. by rewrite step_page, R.
Qed.
